(** * rCAPTCHA server: verification pipeline, sessions, tokens, rate limiter

    A shallow embedding of the server core of the rcaptcha repository
    (server/src/challenges/coherent.ts, sessions.ts, token.ts, rateLimit.ts
    and the /auth/submit handler of server.ts), with the properties of the
    design specification stated and proved over it.

    Conventions of the embedding.
    - A JavaScript string is a [string] of Latin-1 code units (one [ascii]
      per UTF-16 code unit below 256).  [toLowerCase], [trim], the regular
      expression classes [\s], [\w] and [\b] are written out for that range.
    - Integral JavaScript numbers (timestamps, counts, scores) are [Z].
      The numbers of the rate limiter (token counts, refill rates, waiting
      times) are IEEE-754 binary64 numbers, as in JavaScript: [spec_float]
      of the Standard Library at precision 53 and maximal exponent 1024,
      every operation rounded to nearest, ties to even.
    - [Date.now()], [crypto.getRandomValues], [Math.random], the process
      environment and the HTTP oracle are inputs: every function that reads
      one of them takes the value read as an argument.
    - The module-level stores are passed in and returned explicitly. *)

From Stdlib Require Import ZArith QArith Qpower SpecFloat List String Ascii
  DecimalString Lia Permutation Sorted Bool.
From stdpp Require Import gmap strings list fin_maps pretty.
Import ListNotations.

Local Open Scope string_scope.
Local Open Scope Z_scope.

(** ** Text: code units, case, white space, word characters *)

Module Text.

Definition code (c : ascii) : N := N_of_ascii c.

Definition in_range (lo hi : N) (c : ascii) : bool :=
  ((lo <=? code c) && (code c <=? hi))%N.

(** [\s] and the characters removed by [String.prototype.trim], below 256:
    TAB, LF, VT, FF, CR, SPACE and NBSP. *)
Definition is_space (c : ascii) : bool :=
  in_range 9 13 c || (code c =? 32)%N || (code c =? 160)%N.

Definition is_upper (c : ascii) : bool := in_range 65 90 c.
Definition is_lower (c : ascii) : bool := in_range 97 122 c.
Definition is_digit (c : ascii) : bool := in_range 48 57 c.

(** [\w] is [A-Za-z0-9_]. *)
Definition is_word_char (c : ascii) : bool :=
  is_upper c || is_lower c || is_digit c || (code c =? 95)%N.

(** [toLowerCase] on one Latin-1 code unit: A-Z and the accented capitals
    U+00C0..U+00DE (U+00D7, the multiplication sign, apart) move up by 32. *)
Definition lower_char (c : ascii) : ascii :=
  if is_upper c || (in_range 192 222 c && negb (code c =? 215)%N)
  then ascii_of_N (code c + 32)
  else c.

Definition chars (s : string) : list ascii := list_ascii_of_string s.
Definition text (l : list ascii) : string := string_of_list_ascii l.

Definition toLowerCase (s : string) : string :=
  text (List.map lower_char (chars s)).

Fixpoint drop_space (l : list ascii) : list ascii :=
  match l with
  | c :: l' => if is_space c then drop_space l' else l
  | [] => []
  end.

Definition trim_chars (l : list ascii) : list ascii :=
  rev (drop_space (rev (drop_space l))).

Definition trim (s : string) : string := text (trim_chars (chars s)).

(** [s.split(/\s+/)]: the pieces between maximal runs of white space; a
    leading or trailing run leaves an empty piece, and the empty string
    splits into one empty piece. *)
Fixpoint split_ws_from (cur : list ascii) (in_sep : bool) (l : list ascii)
  : list (list ascii) :=
  match l with
  | [] => [rev cur]
  | c :: l' =>
      if is_space c
      then if in_sep then split_ws_from cur true l'
           else rev cur :: split_ws_from [] true l'
      else split_ws_from (c :: cur) false l'
  end.

Definition split_ws (l : list ascii) : list (list ascii) :=
  split_ws_from [] false l.

(** The character that precedes the position after [u], when [prev]
    precedes [u]. *)
Fixpoint last_from (prev : option ascii) (u : list ascii) : option ascii :=
  match u with
  | [] => prev
  | x :: u' => last_from (Some x) u'
  end.

(** Decimal rendering of an integral number in a template literal. *)
Definition show (z : Z) : string := NilZero.string_of_int (Z.to_int z).

Definition join (sep : string) (l : list string) : string :=
  String.concat sep l.

Definition strlen (s : string) : Z := Z.of_nat (String.length s).

End Text.

(** ** Arrays, typed arrays and insertion-ordered maps *)

Module Js.

(** The value an element of a [Uint8Array] or [Uint32Array] holds. *)
Definition uint8 (z : Z) : Z := z mod 256.
Definition uint32 (z : Z) : Z := z mod 2 ^ 32.

(** [arr.sort((a, b) => key(a) - key(b))]: ascending by key, and stable
    (elements with equal keys keep their order). *)
Section Sorting.
Context {T : Type} (key : T -> Z).

Fixpoint insert_by (x : T) (l : list T) : list T :=
  match l with
  | [] => [x]
  | y :: l' => if key x <=? key y then x :: l else y :: insert_by x l'
  end.

Definition sort_by (l : list T) : list T := fold_right insert_by [] l.

Definition key_le (a b : T) : Prop := key a <= key b.
End Sorting.

(** A [Map] with string keys: the entries in insertion order.  [set] on a
    key that is present replaces the value where it stands. *)
Section OrderedMap.
Context {V : Type}.

Fixpoint map_get (k : string) (m : list (string * V)) : option V :=
  match m with
  | [] => None
  | (k', v) :: m' => if String.eqb k k' then Some v else map_get k m'
  end.

Fixpoint map_set (k : string) (v : V) (m : list (string * V))
  : list (string * V) :=
  match m with
  | [] => [(k, v)]
  | (k', v') :: m' =>
      if String.eqb k k' then (k, v) :: m' else (k', v') :: map_set k v m'
  end.

Fixpoint map_delete (k : string) (m : list (string * V))
  : list (string * V) :=
  match m with
  | [] => []
  | (k', v') :: m' =>
      if String.eqb k k' then m' else (k', v') :: map_delete k m'
  end.

Definition map_size (m : list (string * V)) : Z := Z.of_nat (List.length m).

Definition keys (m : list (string * V)) : list string := List.map fst m.
End OrderedMap.

End Js.

(** ** challenges/coherent.ts *)

Module Coherent.
Import Text Js.

Definition NOUNS : list string :=
  [ "apple"; "telescope"; "mountain"; "river"; "butterfly"; "castle"; "dragon";
    "library"; "volcano"; "umbrella"; "penguin"; "lighthouse"; "whisper"; "thunder";
    "garden"; "crystal"; "shadow"; "melody"; "puzzle"; "compass"; "lantern";
    "feather"; "anchor"; "rainbow"; "bridge"; "mirror"; "candle"; "forest";
    "island"; "treasure"; "clock"; "storm"; "diamond"; "sunset"; "keyboard" ].

Definition ADJECTIVES : list string :=
  [ "purple"; "ancient"; "silent"; "golden"; "frozen"; "hidden"; "curious";
    "gentle"; "fierce"; "mysterious"; "brilliant"; "hollow"; "distant"; "sacred";
    "fragile"; "endless"; "vivid"; "tranquil"; "bold"; "subtle" ].

Definition VERBS : list string :=
  [ "whisper"; "dance"; "climb"; "discover"; "remember"; "chase"; "embrace";
    "wander"; "create"; "believe"; "vanish"; "emerge"; "transform"; "protect" ].

Definition TIME_WORDS : list string :=
  [ "yesterday"; "tomorrow"; "wednesday"; "midnight"; "sunrise"; "autumn";
    "forever"; "suddenly"; "eventually"; "meanwhile" ].

Definition MAX_SENTENCE_LENGTH : Z := 10000.

Record CoherentChallenge := {
  words : list string;
  wordCount : Z;
  timeoutMs : Z
}.

Record CoherentVerifyResult := {
  valid : bool;
  errors : list string;
  coherenceScore : option Z
}.

(** *** pickRandom

    [randomBytes] is the [Uint32Array] filled by [crypto.getRandomValues]:
    element [i] is the sort key of item [i].  [Array.prototype.sort] is
    stable, so items with equal keys keep their order. *)

Definition indexed {T} (arr : list T) : list (nat * T) :=
  combine (seq 0 (List.length arr)) arr.

Definition pickRandom {T} (randomBytes : nat -> Z) (arr : list T) (n : nat)
  : list T :=
  let keyed := List.map (fun it => (snd it, uint32 (randomBytes (fst it))))
                        (indexed arr) in
  let shuffled := List.map fst (sort_by snd keyed) in
  firstn n shuffled.

(** *** generateCoherentChallenge

    The random source of one call.  [shuffle] is the outcome of
    [.sort(() => Math.random() - 0.5)]: a comparator that ignores its
    arguments leaves the order to the engine, which still returns a
    rearrangement of the array. *)
Record Entropy := {
  nounKeys : nat -> Z;
  adjectiveKeys : nat -> Z;
  verbKeys : nat -> Z;
  timeKeys : nat -> Z;
  shuffle : list string -> list string;
  randomByte : Z
}.

Definition shuffles (e : Entropy) : Prop :=
  forall l, Permutation l (shuffle e l).

Definition generateCoherentChallenge (e : Entropy) : CoherentChallenge :=
  let words :=
    shuffle e (pickRandom (nounKeys e) NOUNS 2
               ++ pickRandom (adjectiveKeys e) ADJECTIVES 1
               ++ pickRandom (verbKeys e) VERBS 1
               ++ pickRandom (timeKeys e) TIME_WORDS 1) in
  let wordCount := 15 + uint8 (randomByte e) mod 11 in
  {| words := words; wordCount := wordCount; timeoutMs := 10000 |}.

(** *** containsAllWords

    The pattern built by [new RegExp(`\\b${word.toLowerCase()}\\b`)] for a
    word that holds no pattern syntax character (see [literal_word]; every
    pool word is made of letters) is a word-boundary assertion, the
    characters of the word, and a second word-boundary assertion.
    [regex_test] is [RegExp.prototype.test] for such patterns (no [g] flag:
    the search starts at index 0 and tries every start position in turn). *)

Inductive Atom :=
  | WordBoundary
  | Char (c : ascii).

Definition is_word_opt (o : option ascii) : bool :=
  match o with Some c => is_word_char c | None => false end.

(** [\b]: exactly one of the two neighbouring positions holds a word
    character; outside the input there is none. *)
Definition at_boundary (prev next : option ascii) : bool :=
  xorb (is_word_opt prev) (is_word_opt next).

Fixpoint match_here (pat : list Atom) (prev : option ascii)
    (input : list ascii) : bool :=
  match pat with
  | [] => true
  | WordBoundary :: pat' =>
      at_boundary prev (head input) && match_here pat' prev input
  | Char c :: pat' =>
      match input with
      | x :: input' => Ascii.eqb x c && match_here pat' (Some x) input'
      | [] => false
      end
  end.

Fixpoint search (pat : list Atom) (prev : option ascii)
    (input : list ascii) : bool :=
  match_here pat prev input
  || match input with
     | [] => false
     | x :: input' => search pat (Some x) input'
     end.

Definition regex_test (pat : list Atom) (s : string) : bool :=
  search pat None (chars s).

Definition word_regex (word : string) : list Atom :=
  WordBoundary :: List.map Char (chars word) ++ [WordBoundary].

(** The words for which [word_regex] is the pattern the source builds. *)
Definition plain_word (w : string) : Prop :=
  Forall (fun c => is_word_char c = true) (chars w) /\ chars w <> [].

Record WordCheck := {
  wc_valid : bool;
  missing : list string
}.

(** The test of the loop body: the word is pushed onto [missing]. *)
Definition absent (sentence word : string) : bool :=
  let lowerSentence := toLowerCase sentence in
  negb (regex_test (word_regex (toLowerCase word)) lowerSentence).

Definition containsAllWords (sentence : string) (words : list string)
  : WordCheck :=
  let missing := List.filter (absent sentence) words in
  {| wc_valid := (List.length missing =? 0)%nat; missing := missing |}.

(** Pattern syntax characters: a word that holds one of them is not a
    literal pattern, and lies outside [word_regex]. *)
Definition is_syntax_char (c : ascii) : bool :=
  existsb (Ascii.eqb c) (chars "^$\.*+?()[]{}|").

Definition literal_word (w : string) : Prop :=
  Forall (fun c => is_syntax_char c = false) (chars w).

(** *** countWords *)

Definition countWords (sentence : string) : Z :=
  Z.of_nat
    (List.length
       (List.filter (fun w => (0 <? List.length w)%nat)
          (split_ws (trim_chars (chars sentence))))).

(** *** basicGrammarCheck *)

Record GrammarCheck := {
  gc_valid : bool;
  gc_error : option string
}.

Definition is_final_punct (c : ascii) : bool :=
  (code c =? 46)%N || (code c =? 33)%N || (code c =? 63)%N.

Definition starts_with_capital (l : list ascii) : bool :=
  match l with c :: _ => is_upper c | [] => false end.

Definition ends_with_punct (l : list ascii) : bool :=
  match rev l with c :: _ => is_final_punct c | [] => false end.

Definition basicGrammarCheck (sentence : string) : GrammarCheck :=
  let trimmed := trim_chars (chars sentence) in
  if (List.length trimmed =? 0)%nat then
    {| gc_valid := false; gc_error := Some "Empty sentence" |}
  else if negb (starts_with_capital trimmed) then
    {| gc_valid := false;
       gc_error := Some "Sentence should start with a capital letter" |}
  else if negb (ends_with_punct trimmed) then
    {| gc_valid := false;
       gc_error := Some "Sentence should end with punctuation (.!?)" |}
  else {| gc_valid := true; gc_error := None |}.

(** *** checkCoherence

    The process environment and the scoring service.  [fetch] gives, for
    the sentence sent, what the request comes to: the promise rejects, or a
    response arrives with its [ok] flag and a body. *)

Inductive Reply :=
  | ReplyUnreadable                 (* json() rejects, or reading the content throws *)
  | ReplyWithoutContent             (* data.choices?.[0]?.message?.content is undefined *)
  | ReplyContent (content : string).

Inductive FetchResult :=
  | FetchRejected
  | Response (ok : bool) (body : Reply).

Record World := {
  OPENAI_API_KEY : option string;
  fetch : string -> FetchResult
}.

Record CoherenceResult := {
  score : Z;
  error : option string
}.

(** [parseInt(s, 10)]: leading white space, an optional sign, then the
    longest run of decimal digits; [None] is [NaN]. *)
Definition digit_value (c : ascii) : Z := Z.of_N (code c) - 48.

Fixpoint take_digits (l : list ascii) : list ascii :=
  match l with
  | c :: l' => if is_digit c then c :: take_digits l' else []
  | [] => []
  end.

Definition digits_value (l : list ascii) : Z :=
  fold_left (fun acc c => 10 * acc + digit_value c) l 0.

Definition parse_digits (l : list ascii) : option Z :=
  match take_digits l with
  | [] => None
  | ds => Some (digits_value ds)
  end.

Definition parseInt (s : string) : option Z :=
  match drop_space (chars s) with
  | c :: l' =>
      if (code c =? 45)%N then option_map Z.opp (parse_digits l')
      else if (code c =? 43)%N then parse_digits l'
      else parse_digits (c :: l')
  | [] => None
  end.

Definition key_missing (k : option string) : bool :=
  match k with
  | None => true
  | Some s => (String.length s =? 0)%nat
  end.

Definition checkCoherence (w : World) (sentence : string) : CoherenceResult :=
  if key_missing (OPENAI_API_KEY w) then {| score := 7; error := None |}
  else
    match fetch w sentence with
    | FetchRejected =>
        {| score := 7; error := Some "Check failed, defaulting to pass" |}
    | Response false _ =>
        {| score := 7; error := Some "API error, defaulting to pass" |}
    | Response true ReplyUnreadable =>
        {| score := 7; error := Some "Check failed, defaulting to pass" |}
    | Response true reply =>
        let content :=
          match reply with ReplyContent c => trim c | _ => "" end in
        match parseInt content with
        | None => {| score := 7; error := None |}
        | Some score =>
            if (score <? 1) || (score >? 10)
            then {| score := 7; error := None |}
            else {| score := score; error := None |}
        end
    end.

(** *** verifyCoherent

    Besides its result the function leaves a trace: the sentences handed to
    [checkCoherence] and the failure record written to the console. *)

Inductive Event :=
  | CoherenceChecked (sentence : string)
  | VerificationFailed (errors : list string) (coherenceScore : option Z)
      (wordCount actualWordCount : Z).

Record CoherentAnswer := {
  sentence : option string
}.

Definition push_if (cond : bool) (msg : string) (errors : list string)
  : list string :=
  if cond then (errors ++ [msg])%list else errors.

(** [grammarCheck.error!]: the message is present whenever the check
    fails. *)
Definition asserted (e : option string) : string :=
  match e with Some msg => msg | None => "undefined" end.

(** [answer.sentence?.trim() || ''] *)
Definition candidate (answer : CoherentAnswer) : string :=
  match sentence answer with Some s => trim s | None => "" end.

Definition verifyCoherent (w : World) (challenge : CoherentChallenge)
    (answer : CoherentAnswer) : CoherentVerifyResult * list Event :=
  let sentence := candidate answer in
  if strlen sentence >? MAX_SENTENCE_LENGTH then
    ({| valid := false;
        errors := ["Sentence too long: " ++ show (strlen sentence)
                   ++ " chars (max " ++ show MAX_SENTENCE_LENGTH ++ ")"];
        coherenceScore := None |}, [])
  else
    let errors := [] in
    let wordCheck := containsAllWords sentence (words challenge) in
    let errors :=
      push_if (negb (wc_valid wordCheck))
        ("Missing words: " ++ join ", " (missing wordCheck)) errors in
    let actualCount := countWords sentence in
    let errors :=
      push_if (negb (actualCount =? wordCount challenge))
        ("Word count: expected " ++ show (wordCount challenge)
         ++ ", got " ++ show actualCount) errors in
    let grammarCheck := basicGrammarCheck sentence in
    let errors :=
      push_if (negb (gc_valid grammarCheck))
        (asserted (gc_error grammarCheck)) errors in
    let '(coherenceScore, errors, calls) :=
      if (List.length errors =? 0)%nat then
        let coherence := checkCoherence w sentence in
        (Some (score coherence),
         push_if (score coherence <? 7)
           ("Sentence not coherent enough (score: " ++ show (score coherence)
            ++ "/10, need 7+)") errors,
         [CoherenceChecked sentence])
      else (None, errors, []) in
    let valid := (List.length errors =? 0)%nat in
    let logged :=
      if valid then []
      else [VerificationFailed errors coherenceScore (wordCount challenge)
              (countWords sentence)] in
    ({| valid := valid; errors := errors; coherenceScore := coherenceScore |},
     (calls ++ logged)%list).

End Coherent.

(** ** sessions.ts *)

Module Sessions.
Import Text Js.

Inductive Status := active | passed | failed.

(** [CoherentChallenge & { id: string }]; the field [id] is [challengeId]
    here and the session's [id] is [sessionId]. *)
Record Challenge := {
  data : Coherent.CoherentChallenge;
  challengeId : string
}.

Record AuthSession := {
  sessionId : string;
  clientIp : string;
  currentBlock : Z;
  maxBlocks : Z;
  challenge : Challenge;
  blockStartedAt : Z;
  blockTimeoutMs : Z;
  sessionCreatedAt : Z;
  status : Status;
  passedAt : option Z;
  failedAt : option Z
}.

Definition SessionStore := list (string * AuthSession).

Definition SESSION_MAX_AGE_MS : Z := 5 * 60 * 1000.
Definition MAX_SESSIONS : Z := 10000.

Definition alphabet : list ascii :=
  chars "ABCDEFGHIJKLMNOPQRSTUVWXYZabcdefghijklmnopqrstuvwxyz0123456789".

(** [chars.charAt(i)] is the empty string out of range. *)
Definition charAt (l : list ascii) (i : Z) : list ascii :=
  match nth_error l (Z.to_nat i) with
  | Some c => [c]
  | None => []
  end.

(** [randomBytes] is the [Uint8Array] filled by [crypto.getRandomValues]. *)
Definition secureRandomString (randomBytes : nat -> Z) (length : nat)
  : string :=
  text (flat_map
          (fun i => charAt alphabet
                      (uint8 (randomBytes i) mod Z.of_nat (List.length alphabet)))
          (seq 0 length)).

Definition generateSessionId (randomBytes : nat -> Z) : string :=
  "ses_" ++ secureRandomString randomBytes 24.

Definition generateChallengeId (randomBytes : nat -> Z) : string :=
  "ch_" ++ secureRandomString randomBytes 16.

(** The random values one block's challenge consumes. *)
Record BlockEntropy := {
  challengeEntropy : Coherent.Entropy;
  challengeIdBytes : nat -> Z
}.

Definition freshChallenge (e : BlockEntropy) : Challenge :=
  {| data := Coherent.generateCoherentChallenge (challengeEntropy e);
     challengeId := generateChallengeId (challengeIdBytes e) |}.

Definition getSession (sessions : SessionStore) (id : string)
  : option AuthSession :=
  map_get id sessions.

Definition isBlockExpired (now : Z) (session : AuthSession) : bool :=
  let elapsed := now - blockStartedAt session in
  elapsed >? blockTimeoutMs session.

Definition getBlockTimeRemaining (now : Z) (session : AuthSession) : Z :=
  let elapsed := now - blockStartedAt session in
  Z.max 0 (blockTimeoutMs session - elapsed).

(** The session object is mutated in place; the function returns the
    session as it is afterwards, with its boolean result. *)
Definition advanceToNextBlock (now : Z) (e : BlockEntropy)
    (session : AuthSession) : AuthSession * bool :=
  if currentBlock session >=? maxBlocks session then
    ({| sessionId := sessionId session;
        clientIp := clientIp session;
        currentBlock := currentBlock session;
        maxBlocks := maxBlocks session;
        challenge := challenge session;
        blockStartedAt := blockStartedAt session;
        blockTimeoutMs := blockTimeoutMs session;
        sessionCreatedAt := sessionCreatedAt session;
        status := failed;
        passedAt := passedAt session;
        failedAt := Some now |}, false)
  else
    ({| sessionId := sessionId session;
        clientIp := clientIp session;
        currentBlock := currentBlock session + 1;
        maxBlocks := maxBlocks session;
        challenge := freshChallenge e;
        blockStartedAt := now;
        blockTimeoutMs := blockTimeoutMs session;
        sessionCreatedAt := sessionCreatedAt session;
        status := status session;
        passedAt := passedAt session;
        failedAt := failedAt session |}, true).

Definition markSessionPassed (now : Z) (session : AuthSession) : AuthSession :=
  {| sessionId := sessionId session;
     clientIp := clientIp session;
     currentBlock := currentBlock session;
     maxBlocks := maxBlocks session;
     challenge := challenge session;
     blockStartedAt := blockStartedAt session;
     blockTimeoutMs := blockTimeoutMs session;
     sessionCreatedAt := sessionCreatedAt session;
     status := passed;
     passedAt := Some now;
     failedAt := failedAt session |}.

Definition created (entry : string * AuthSession) : Z :=
  sessionCreatedAt (snd entry).

Definition expired (now : Z) (entry : string * AuthSession) : bool :=
  now - created entry >? SESSION_MAX_AGE_MS.

(** The eviction loop: [sessions.delete(sortedSessions[i][0])] for
    [i < toRemove]. *)
Definition evict (victims : list (string * AuthSession))
    (sessions : SessionStore) : SessionStore :=
  fold_left (fun m entry => map_delete (fst entry) m) victims sessions.

Definition cleanupOldSessions (now : Z) (sessions : SessionStore)
  : SessionStore :=
  let sessions := List.filter (fun entry => negb (expired now entry)) sessions in
  if map_size sessions >? MAX_SESSIONS then
    let sortedSessions := sort_by created sessions in
    let toRemove := map_size sessions - MAX_SESSIONS in
    evict (firstn (Z.to_nat toRemove) sortedSessions) sessions
  else sessions.

(** What one [createSession] call reads from outside: the random values
    and the two clock readings (its own and the one of the cleanup). *)
Record CreateInputs := {
  sessionIdBytes : nat -> Z;
  firstBlock : BlockEntropy;
  createdNow : Z;
  cleanupNow : Z
}.

Definition createSession (io : CreateInputs) (ip : string) (timeout : Z)
    (sessions : SessionStore) : AuthSession * SessionStore :=
  let id := generateSessionId (sessionIdBytes io) in
  let now := createdNow io in
  let session :=
    {| sessionId := id;
       clientIp := ip;
       currentBlock := 1;
       maxBlocks := 3;
       challenge := freshChallenge (firstBlock io);
       blockStartedAt := now;
       blockTimeoutMs := timeout;
       sessionCreatedAt := now;
       status := active;
       passedAt := None;
       failedAt := None |} in
  let sessions := map_set id session sessions in
  (session, cleanupOldSessions (cleanupNow io) sessions).

(** *** markSessionFailed, deleteSession, getSessionStats *)

Definition markSessionFailed (now : Z) (session : AuthSession) : AuthSession :=
  {| sessionId := sessionId session;
     clientIp := clientIp session;
     currentBlock := currentBlock session;
     maxBlocks := maxBlocks session;
     challenge := challenge session;
     blockStartedAt := blockStartedAt session;
     blockTimeoutMs := blockTimeoutMs session;
     sessionCreatedAt := sessionCreatedAt session;
     status := failed;
     passedAt := passedAt session;
     failedAt := Some now |}.

Definition deleteSession (id : string) (sessions : SessionStore)
  : SessionStore :=
  map_delete id sessions.

(** [{ active, total }]; the field [active] is [activeCount] here. *)
Record SessionStats := {
  activeCount : Z;
  total : Z
}.

Definition getSessionStats (sessions : SessionStore) : SessionStats :=
  {| activeCount :=
       fold_left
         (fun count entry =>
            match status (snd entry) with
            | active => count + 1
            | _ => count
            end)
         sessions 0;
     total := map_size sessions |}.

End Sessions.

(** ** token.ts *)

Module Token.
Import Text Js.

Record VerificationToken := {
  token : string;
  challengeId : string;
  issuedAt : Z;
  expiresAt : Z;
  clientIp : option string
}.

Record ValidateResponse := {
  valid : bool;
  v_challengeId : option string;
  v_expiresAt : option Z;
  error : option string
}.

Record Config := {
  port : Z;
  challengeTimeoutMs : Z;
  tokenExpiryMs : Z
}.

(** [MemoryTokenStore]: a [Map] whose order is never observed. *)
Abbreviation TokenStore := (gmap string VerificationToken).

Definition cleanup (now : Z) (store : TokenStore) : TokenStore :=
  base.filter (fun entry => ~ expiresAt (snd entry) < now) store.

(** [btoa] of a byte string. *)
Definition base64_alphabet : list ascii :=
  chars "ABCDEFGHIJKLMNOPQRSTUVWXYZabcdefghijklmnopqrstuvwxyz0123456789+/".

Definition sextet (z : Z) : ascii :=
  nth (Z.to_nat (Z.land z 63)) base64_alphabet "="%char.

Fixpoint btoa (bytes : list Z) : list ascii :=
  match bytes with
  | a :: b :: c :: rest =>
      sextet (Z.shiftr a 2)
      :: sextet (Z.lor (Z.shiftl (Z.land a 3) 4) (Z.shiftr b 4))
      :: sextet (Z.lor (Z.shiftl (Z.land b 15) 2) (Z.shiftr c 6))
      :: sextet c
      :: btoa rest
  | [a; b] =>
      [ sextet (Z.shiftr a 2);
        sextet (Z.lor (Z.shiftl (Z.land a 3) 4) (Z.shiftr b 4));
        sextet (Z.shiftl (Z.land b 15) 2);
        "="%char ]
  | [a] =>
      [ sextet (Z.shiftr a 2);
        sextet (Z.shiftl (Z.land a 3) 4);
        "="%char; "="%char ]
  | [] => []
  end.

Definition urlSafe (l : list ascii) : list ascii :=
  flat_map
    (fun c =>
       if (code c =? 43)%N then ["-"%char]
       else if (code c =? 47)%N then ["_"%char]
       else if (code c =? 61)%N then []
       else [c])
    l.

(** [randomBytes] is the 32-element [Uint8Array]. *)
Definition generateTokenString (randomBytes : nat -> Z) : string :=
  let bytes := List.map (fun i => uint8 (randomBytes i)) (seq 0 32) in
  "rcap_" ++ text (urlSafe (btoa bytes)).

Definition createToken (now : Z) (randomBytes : nat -> Z) (config : Config)
    (challenge : string) (ip : option string) (store : TokenStore)
  : VerificationToken * TokenStore :=
  let tokenData :=
    {| token := generateTokenString randomBytes;
       challengeId := challenge;
       issuedAt := now;
       expiresAt := now + tokenExpiryMs config;
       clientIp := ip |} in
  (tokenData, <[token tokenData := tokenData]> store).

Definition rejected (msg : string) : ValidateResponse :=
  {| valid := false; v_challengeId := None; v_expiresAt := None;
     error := Some msg |}.

(** The argument is [None] when the request carries no string there. *)
Definition validateToken (now : Z) (tok : option string) (store : TokenStore)
  : ValidateResponse * TokenStore :=
  match tok with
  | None => (rejected "Token is required", store)
  | Some tok =>
      if (String.length tok =? 0)%nat then
        (rejected "Token is required", store)
      else if negb (String.prefix "rcap_" tok) then
        (rejected "Invalid token format", store)
      else
        match store !! tok with
        | None => (rejected "Token not found or already used", store)
        | Some tokenData =>
            if now >? expiresAt tokenData then
              (rejected "Token expired", delete tok store)
            else
              ({| valid := true;
                  v_challengeId := Some (challengeId tokenData);
                  v_expiresAt := Some (expiresAt tokenData);
                  error := None |},
               delete tok store)
        end
  end.

Definition isTokenValid (now : Z) (tok : string) (store : TokenStore)
  : bool * TokenStore :=
  match store !! tok with
  | None => (false, store)
  | Some tokenData =>
      if now >? expiresAt tokenData then (false, delete tok store)
      else (true, store)
  end.

(** Redemption attempts on one token string, one after the other. *)
Fixpoint redeem_all (tok : string) (times : list Z) (store : TokenStore)
  : list ValidateResponse * TokenStore :=
  match times with
  | [] => ([], store)
  | now :: times' =>
      let '(r, store) := validateToken now (Some tok) store in
      let '(rs, store) := redeem_all tok times' store in
      (r :: rs, store)
  end.

(** [getTokenInfo]: the token's data, without consuming it. *)
Definition getTokenInfo (now : Z) (tok : string) (store : TokenStore)
  : option VerificationToken * TokenStore :=
  match store !! tok with
  | None => (None, store)
  | Some tokenData =>
      if now >? expiresAt tokenData then (None, delete tok store)
      else (Some tokenData, store)
  end.

Definition cleanupTokens (now : Z) (store : TokenStore) : TokenStore :=
  cleanup now store.

End Token.

(** ** JavaScript numbers: IEEE-754 binary64 *)

Module Double.

Definition double := spec_float.

Definition nan : double := S754_nan.

(** The double nearest to an integer. *)
Definition of_Z (z : Z) : double := binary_normalize 53 1024 z 0 false.

Definition add : double -> double -> double := SFadd 53 1024.
Definition sub : double -> double -> double := SFsub 53 1024.
Definition mul : double -> double -> double := SFmul 53 1024.
Definition div : double -> double -> double := SFdiv 53 1024.

Definition zero : double := of_Z 0.
Definition one : double := of_Z 1.
Definition thousand : double := of_Z 1000.

(** [a >= b], false when either side is NaN. *)
Definition geb (a b : double) : bool := SFleb b a.
Definition gtb (a b : double) : bool := SFltb b a.

(** [Math.min(a, b)] *)
Definition min (a b : double) : double :=
  match SFcompare a b with
  | None => nan
  | Some Lt => a
  | Some Gt => b
  | Some Eq => match b with S754_zero true => b | _ => a end
  end.

(** [Math.ceil(x)] and [Math.floor(x)] *)
Definition ceil (x : double) : double :=
  match x with
  | S754_finite s m e =>
      if 0 <=? e then x
      else
        let c := - ((- cond_Zopp s (Zpos m)) / 2 ^ (- e)) in
        if c =? 0 then S754_zero s else of_Z c
  | _ => x
  end.

Definition floor (x : double) : double :=
  match x with
  | S754_finite s m e =>
      if 0 <=? e then x
      else
        let c := cond_Zopp s (Zpos m) / 2 ^ (- e) in
        if c =? 0 then S754_zero s else of_Z c
  | _ => x
  end.

(** The number of binary digits of a mantissa, the exponent of the binade
    of a number, and what a number is worth. *)
Definition digits (m : positive) : Z := Zpos (digits2_pos m).

Definition fexp64 (x : Z) : Z := Z.max (x - 53) (-1074).

Definition value (x : double) : Q :=
  match x with
  | S754_finite s m e => (inject_Z (cond_Zopp s (Zpos m)) * 2 ^ e)%Q
  | _ => 0%Q
  end.

(** The value of a number that is not negative, in units of 2^-1074. *)
Definition units (x : double) : Z :=
  match x with
  | S754_finite _ m e => Zpos m * 2 ^ (e + 1074)
  | _ => 0
  end.

(** A finite double that is not negative: a zero, or a positive mantissa
    in canonical form. *)
Definition regular (x : double) : Prop :=
  match x with
  | S754_zero _ => True
  | S754_finite false m e => fexp64 (digits m + e) = e /\ e <= 971
  | _ => False
  end.

(** A double that is not negative and not NaN. *)
Definition nonneg (x : double) : Prop :=
  regular x \/ x = S754_infinity false.

Definition strictly_positive (x : double) : Prop :=
  match x with
  | S754_finite false _ _ | S754_infinity false => True
  | _ => False
  end.

End Double.

(** ** rateLimit.ts

    A clock reading ([Date.now()]) is a whole number of milliseconds; the
    difference of two readings is turned into a double where the source
    computes with it. *)

Module RateLimit.

Record RateLimitConfig := {
  maxTokens : Double.double;
  refillRate : Double.double;
  refillInterval : Double.double
}.

Record TokenBucket := {
  tokens : Double.double;
  lastRefill : Z
}.

Abbreviation BucketStore := (gmap string TokenBucket).

Record RateResult := {
  allowed : bool;
  retryAfterMs : option Double.double
}.

Definition RATE_LIMITS_challenge : RateLimitConfig :=
  {| maxTokens := Double.of_Z 10;
     refillRate := Double.div (Double.of_Z 10) (Double.of_Z 60);
     refillInterval := Double.of_Z 1000 |}.

Definition RATE_LIMITS_submit : RateLimitConfig :=
  {| maxTokens := Double.of_Z 30;
     refillRate := Double.div (Double.of_Z 30) (Double.of_Z 60);
     refillInterval := Double.of_Z 1000 |}.

Definition getBucket (now : Z) (store : BucketStore) (ip : string)
    (config : RateLimitConfig) : TokenBucket * BucketStore :=
  match store !! ip with
  | Some bucket => (bucket, store)
  | None =>
      let bucket := {| tokens := maxTokens config; lastRefill := now |} in
      (bucket, <[ip := bucket]> store)
  end.

Definition refillBucket (now : Z) (bucket : TokenBucket)
    (config : RateLimitConfig) : TokenBucket :=
  let elapsed := Double.of_Z (now - lastRefill bucket) in
  let tokensToAdd :=
    Double.mul (Double.div elapsed (Double.of_Z 1000)) (refillRate config) in
  {| tokens := Double.min (maxTokens config)
                 (Double.add (tokens bucket) tokensToAdd);
     lastRefill := now |}.

(** [getNow] is the clock reading of [getBucket] (used when the bucket is
    created), [refillNow] the one of [refillBucket].  The bucket object
    sits in the store, so each mutation is a store update at [ip]. *)
Definition checkRateLimit (getNow refillNow : Z) (store : BucketStore)
    (ip : string) (config : RateLimitConfig) : RateResult * BucketStore :=
  let '(bucket, store) := getBucket getNow store ip config in
  let bucket := refillBucket refillNow bucket config in
  if Double.geb (tokens bucket) (Double.of_Z 1) then
    let bucket := {| tokens := Double.sub (tokens bucket) (Double.of_Z 1);
                     lastRefill := lastRefill bucket |} in
    ({| allowed := true; retryAfterMs := None |}, <[ip := bucket]> store)
  else
    let tokensNeeded := Double.sub (Double.of_Z 1) (tokens bucket) in
    let retryAfter :=
      Double.ceil
        (Double.mul (Double.div tokensNeeded (refillRate config))
           (Double.of_Z 1000)) in
    ({| allowed := false; retryAfterMs := Some retryAfter |},
     <[ip := bucket]> store).

Definition checkSubmitRateLimit (getNow refillNow : Z) (submitStore : BucketStore)
    (ip : string) : RateResult * BucketStore :=
  checkRateLimit getNow refillNow submitStore ip RATE_LIMITS_submit.

(** A run of calls against one store, each with its address and its two
    clock readings. *)
Record Call := {
  ip : string;
  getNow : Z;
  refillNow : Z
}.

Fixpoint run (config : RateLimitConfig) (calls : list Call)
    (store : BucketStore) : list RateResult * BucketStore :=
  match calls with
  | [] => ([], store)
  | c :: calls' =>
      let '(r, store) := checkRateLimit (getNow c) (refillNow c) store (ip c) config in
      let '(rs, store) := run config calls' store in
      (r :: rs, store)
  end.

(** *** checkChallengeRateLimit, getRateLimitStats, cleanupRateLimitStores *)

Definition checkChallengeRateLimit (getNow refillNow : Z)
    (challengeStore : BucketStore) (ip : string) : RateResult * BucketStore :=
  checkRateLimit getNow refillNow challengeStore ip RATE_LIMITS_challenge.

Record BucketStats := {
  statTokens : Double.double;
  statMaxTokens : Double.double
}.

Definition bucket_stats (store : BucketStore) (ip : string)
    (config : RateLimitConfig) : BucketStats :=
  {| statTokens :=
       match store !! ip with
       | Some bucket => Double.floor (tokens bucket)
       | None => maxTokens config
       end;
     statMaxTokens := maxTokens config |}.

(** [{ challenge: {...}, submit: {...} }] *)
Definition getRateLimitStats (challengeStore submitStore : BucketStore)
    (ip : string) : BucketStats * BucketStats :=
  (bucket_stats challengeStore ip RATE_LIMITS_challenge,
   bucket_stats submitStore ip RATE_LIMITS_submit).

Definition staleThreshold : Z := 5 * 60 * 1000.

(** The loop body of [cleanupRateLimitStores] over one store.  [now] is
    the clock reading taken when the cleanup starts; [reads ip] is the one
    [refillBucket] takes when it comes to the bucket of [ip].  Both stores
    are refilled with the challenge configuration, as in the source. *)
Definition sweep_store (now : Z) (reads : string -> Z) (store : BucketStore)
  : BucketStore :=
  map_imap
    (fun ip bucket =>
       let bucket := refillBucket (reads ip) bucket RATE_LIMITS_challenge in
       if Double.geb (tokens bucket) (maxTokens RATE_LIMITS_challenge)
          && (now - lastRefill bucket >? staleThreshold)
       then None
       else Some bucket)
    store.

Definition cleanupRateLimitStores (now : Z) (reads : string -> Z)
    (challengeStore submitStore : BucketStore) : BucketStore * BucketStore :=
  (sweep_store now reads challengeStore, sweep_store now reads submitStore).

End RateLimit.

(** ** server.ts: POST /auth/submit

    The block of the request handler for the route [/auth/submit], from
    its rate-limit check on, for one request run to its response.  (The
    steps common to all routes, preflight and the Content-Length limit,
    come before it and touch no state.)  The handler suspends only inside
    [verifyCoherent]; requests interleaved at that point are outside this
    model. *)

Module Server.
Import Text Js Sessions.

Inductive JsValue :=
  | JsUndefined
  | JsNull
  | JsString (s : string)
  | JsOther (truthy : bool).        (* numbers, booleans, arrays, objects *)

Definition falsy (v : JsValue) : bool :=
  match v with
  | JsUndefined | JsNull => true
  | JsString s => (String.length s =? 0)%nat
  | JsOther truthy => negb truthy
  end.

Definition is_undefined (v : JsValue) : bool :=
  match v with JsUndefined => true | _ => false end.

(** [req.json()]: the body read as [{ sessionId, answer }], or a body that
    cannot be read so. *)
Inductive Body :=
  | Unreadable
  | Fields (sessionId answer : JsValue).

Record State := {
  sessions : SessionStore;
  tokenStore : Token.TokenStore;
  submitStore : RateLimit.BucketStore
}.

(** The clock readings and random values the handler may consume, one
    field per place of the source that reads them. *)
Record Inputs := {
  rateGetNow : Z;
  rateRefillNow : Z;
  expiryNow : Z;
  advanceNow : Z;
  nextBlock : BlockEntropy;
  passedNow : Z;
  tokenNow : Z;
  tokenBytes : nat -> Z;
  remainingNow : Z
}.

Inductive Response :=
  | TooManyRequests (retryAfter : Double.double)
  | BadRequest (error : string)
  | NotFound (error : string)
  | AuthFailed (error : string) (block : Z)
  | BlockExpired (newBlock : Z) (challenge : Challenge) (timeoutMs expiresAt : Z)
      (message : string)
  | Success (token : string) (block : Z) (coherenceScore : option Z)
  | Failure (errors : list string) (block timeRemaining : Z)
      (coherenceScore : option Z).

Inductive Effect :=
  | FailureLogged (kind : string)
  | Verified (challenge : Coherent.CoherentChallenge)
      (answer : Coherent.CoherentAnswer) (events : list Coherent.Event).

Definition status_name (s : Status) : string :=
  match s with
  | active => "active"
  | passed => "passed"
  | failed => "failed"
  end.

Definition is_active (s : Status) : bool :=
  match s with active => true | _ => false end.

Definition too_long (answer : JsValue) : bool :=
  match answer with
  | JsString s => strlen s >? Coherent.MAX_SENTENCE_LENGTH
  | _ => false
  end.

(** [sessions.get(body.sessionId)]: only a string can be a key. *)
Definition lookup_session (sessions : SessionStore) (id : JsValue)
  : option (string * AuthSession) :=
  match id with
  | JsString s => option_map (pair s) (getSession sessions s)
  | _ => None
  end.

(** [{ sentence: body.answer }], for an answer that is a string or
    [null]. *)
Definition as_answer (answer : JsValue) : Coherent.CoherentAnswer :=
  {| Coherent.sentence :=
       match answer with JsString s => Some s | _ => None end |}.

Definition with_sessions (st : State) (sessions : SessionStore) : State :=
  {| sessions := sessions; tokenStore := tokenStore st;
     submitStore := submitStore st |}.

Definition rateLimitResponse (retryAfterMs : Double.double) : Response :=
  TooManyRequests (Double.ceil (Double.div retryAfterMs (Double.of_Z 1000))).

Definition authSubmit (config : Token.Config) (w : Coherent.World)
    (io : Inputs) (ip : string) (body : Body) (st : State)
  : Response * State * list Effect :=
  let '(rateCheck, buckets) :=
    RateLimit.checkSubmitRateLimit (rateGetNow io) (rateRefillNow io)
      (submitStore st) ip in
  let st := {| sessions := sessions st; tokenStore := tokenStore st;
               submitStore := buckets |} in
  if negb (RateLimit.allowed rateCheck) then
    (rateLimitResponse (default Double.nan (RateLimit.retryAfterMs rateCheck)), st,
     [FailureLogged "rate_limit_exceeded"])
  else
    match body with
    | Unreadable => (BadRequest "Invalid request body", st, [])
    | Fields id answer =>
        if falsy id || is_undefined answer then
          (BadRequest "Missing sessionId or answer", st, [])
        else if too_long answer then
          (BadRequest ("Answer too long. Maximum "
                       ++ show Coherent.MAX_SENTENCE_LENGTH ++ " characters."),
           st, [])
        else
          match lookup_session (sessions st) id with
          | None =>
              (NotFound "Session not found or expired", st,
               [FailureLogged "session_not_found"])
          | Some (key, session) =>
              if negb (is_active (status session)) then
                (BadRequest ("Session already " ++ status_name (status session)),
                 st, [FailureLogged "session_expired"])
              else if isBlockExpired (expiryNow io) session then
                let '(session, advanced) :=
                  advanceToNextBlock (advanceNow io) (nextBlock io) session in
                let st := with_sessions st (map_set key session (sessions st)) in
                if negb advanced then
                  (AuthFailed "All blocks exhausted. Authentication failed."
                     (currentBlock session),
                   st, [FailureLogged "blocks_exhausted"])
                else
                  (BlockExpired (currentBlock session) (challenge session)
                     (blockTimeoutMs session)
                     (blockStartedAt session + blockTimeoutMs session)
                     ("Block " ++ show (currentBlock session - 1)
                      ++ " expired. Now on block " ++ show (currentBlock session)
                      ++ " of " ++ show (maxBlocks session) ++ "."),
                   st, [])
              else
                match answer with
                | JsOther _ =>
                    (* [answer.sentence?.trim] is not a function: the
                       exception is caught by the handler *)
                    (BadRequest "Invalid request body", st, [])
                | _ =>
                    let sentence := as_answer answer in
                    let '(verifyResult, events) :=
                      Coherent.verifyCoherent w (data (challenge session)) sentence in
                    let verified :=
                      Verified (data (challenge session)) sentence events in
                    if Coherent.valid verifyResult then
                      let session := markSessionPassed (passedNow io) session in
                      let '(tokenData, tokens) :=
                        Token.createToken (tokenNow io) (tokenBytes io) config
                          (challengeId (challenge session)) (Some ip)
                          (tokenStore st) in
                      (Success (Token.token tokenData) (currentBlock session)
                         (Coherent.coherenceScore verifyResult),
                       {| sessions := map_set key session (sessions st);
                          tokenStore := tokens;
                          submitStore := submitStore st |},
                       [verified])
                    else
                      (Failure (Coherent.errors verifyResult)
                         (currentBlock session)
                         (getBlockTimeRemaining (remainingNow io) session)
                         (Coherent.coherenceScore verifyResult),
                       st, [verified; FailureLogged "coherence_failed"])
                end
          end
    end.

End Server.

(** ** challenges/index.ts: the single-shot challenge store *)

Module Challenges.
Import Text Js Coherent.

Inductive ChallengeType := coherent.

(** The field [id] is [challengeId] here. *)
Record MultiChallenge := {
  challengeId : string;
  type : ChallengeType;
  createdAt : Z;
  expiresAt : Z;
  clientIp : option string;
  verified : bool;
  data : CoherentChallenge
}.

Record ChallengePayload := {
  payloadWords : list string;
  payloadWordCount : Z;
  instruction : string
}.

Record VerifyResult := {
  success : bool;
  error : option string
}.

Definition ChallengeStore := list (string * MultiChallenge).

Definition MAX_CHALLENGES : Z := 10000.

Definition stale (now : Z) (entry : string * MultiChallenge) : bool :=
  expiresAt (snd entry) <? now.

Definition made (entry : string * MultiChallenge) : Z :=
  createdAt (snd entry).

Definition cleanupChallenges (now : Z) (challengeStore : ChallengeStore)
  : ChallengeStore :=
  let challengeStore :=
    List.filter (fun entry => negb (stale now entry)) challengeStore in
  if map_size challengeStore >? MAX_CHALLENGES then
    let sortedChallenges := sort_by made challengeStore in
    let toRemove := map_size challengeStore - MAX_CHALLENGES in
    fold_left (fun m entry => map_delete (fst entry) m)
      (firstn (Z.to_nat toRemove) sortedChallenges) challengeStore
  else challengeStore.

(** [n.toString(36)] and [b.toString(16).padStart(2, '0')] *)
Definition digits36 : list ascii := chars "0123456789abcdefghijklmnopqrstuvwxyz".

Definition digit (d : Z) : ascii := nth (Z.to_nat d) digits36 "0"%char.

Fixpoint base36 (fuel : nat) (n : Z) (acc : list ascii) : list ascii :=
  match fuel with
  | O => acc
  | S fuel' =>
      if n <? 36 then digit n :: acc
      else base36 fuel' (n / 36) (digit (n mod 36) :: acc)
  end.

Definition toString36 (n : Z) : string :=
  if n <? 0 then "-" ++ text (base36 (S (Z.to_nat (Z.log2 (- n)))) (- n) [])
  else text (base36 (S (Z.to_nat (Z.log2 n))) n []).

Definition hex2 (b : Z) : list ascii := [digit (b / 16); digit (b mod 16)].

(** [randomBytes] is the 12-element [Uint8Array]. *)
Definition generateId (now : Z) (randomBytes : nat -> Z) : string :=
  let randomPart :=
    text (flat_map (fun i => hex2 (uint8 (randomBytes i))) (seq 0 12)) in
  "ch_" ++ toString36 now ++ "_" ++ randomPart.

(** What one [generateChallenge] call reads from outside. *)
Record GenerateInputs := {
  idNow : Z;
  idBytes : nat -> Z;
  createdNow : Z;
  entropy : Entropy
}.

Definition generateChallengeOfType (io : GenerateInputs) (type : ChallengeType)
    (config : Token.Config) (ip : option string)
    (challengeStore : ChallengeStore) : MultiChallenge * ChallengeStore :=
  let id := generateId (idNow io) (idBytes io) in
  let now := createdNow io in
  let timeoutMs :=
    if Token.challengeTimeoutMs config =? 0 then 30000
    else Token.challengeTimeoutMs config in
  let data := generateCoherentChallenge (entropy io) in
  let challenge :=
    {| challengeId := id;
       type := coherent;
       createdAt := now;
       expiresAt := now + timeoutMs;
       clientIp := ip;
       verified := false;
       data := data |} in
  (challenge, map_set id challenge challengeStore).

Definition generateChallenge (io : GenerateInputs) (config : Token.Config)
    (ip : option string) (challengeStore : ChallengeStore)
  : MultiChallenge * ChallengeStore :=
  generateChallengeOfType io coherent config ip challengeStore.

Definition challengeToPayload (challenge : MultiChallenge) (timeoutMs : Z)
  : ChallengePayload :=
  let d := data challenge in
  {| payloadWords := words d;
     payloadWordCount := wordCount d;
     instruction :=
       "Write a meaningful " ++ show (wordCount d)
       ++ "-word sentence using ALL of these words: " ++ join ", " (words d) |}.

Definition failure (msg : string) : VerifyResult :=
  {| success := false; error := Some msg |}.

Definition mark_verified (challenge : MultiChallenge) : MultiChallenge :=
  {| challengeId := challengeId challenge;
     type := type challenge;
     createdAt := createdAt challenge;
     expiresAt := expiresAt challenge;
     clientIp := clientIp challenge;
     verified := true;
     data := data challenge |}.

(** [answer] is [answer.answer || '']: a string, or [None] for a value
    that is neither a string nor falsy, on which [verifyCoherent] throws
    (its [trim] is not a function); the result is then [None], the promise
    being rejected.  The challenge object sits in the store, so marking it
    verified is a store update. *)
Definition verifyAnswer (now : Z) (w : World) (id : string)
    (answer : option string) (challengeStore : ChallengeStore)
  : option VerifyResult * ChallengeStore * list Event :=
  match map_get id challengeStore with
  | None => (Some (failure "Challenge not found or expired"), challengeStore, [])
  | Some challenge =>
      if verified challenge then
        (Some (failure "Challenge already verified"), challengeStore, [])
      else if now >? expiresAt challenge then
        (Some (failure "Challenge expired"), map_delete id challengeStore, [])
      else
        match answer with
        | None => (None, challengeStore, [])
        | Some sentence =>
            let '(result, events) :=
              verifyCoherent w (data challenge) {| sentence := Some sentence |} in
            if negb (valid result) then
              let joined := join "; " (errors result) in
              (Some (failure (if (String.length joined =? 0)%nat
                              then "Sentence not coherent" else joined)),
               challengeStore, events)
            else
              (Some {| success := true; error := None |},
               map_set id (mark_verified challenge) challengeStore, events)
        end
  end.

Definition getChallenge (now : Z) (id : string)
    (challengeStore : ChallengeStore)
  : option MultiChallenge * ChallengeStore :=
  match map_get id challengeStore with
  | None => (None, challengeStore)
  | Some challenge =>
      if now >? expiresAt challenge then (None, map_delete id challengeStore)
      else (Some challenge, challengeStore)
  end.

(** [Map.prototype.delete] answers whether the key was there. *)
Definition consumeChallenge (id : string) (challengeStore : ChallengeStore)
  : bool * ChallengeStore :=
  (match map_get id challengeStore with Some _ => true | None => false end,
   map_delete id challengeStore).

End Challenges.

(** ** logger.ts *)

Module Logger.

Inductive LogLevel := debug | info | warn | error.

Inductive FailureEvent :=
  | rate_limit_exceeded
  | session_not_found
  | session_expired
  | coherence_failed
  | blocks_exhausted
  | challenge_not_found.

Record LoggerConfig := {
  enabled : bool;
  level : LogLevel
}.

(** [Partial<LoggerConfig>] *)
Record PartialConfig := {
  newEnabled : option bool;
  newLevel : option LogLevel
}.

Definition LOG_LEVEL_PRIORITY (l : LogLevel) : Z :=
  match l with
  | debug => 0
  | info => 1
  | warn => 2
  | error => 3
  end.

Definition FAILURE_WINDOW_MS : Z := 5 * 60 * 1000.
Definition REPEAT_OFFENDER_THRESHOLD : Z := 5.

Definition configureLogger (config : PartialConfig)
    (loggerConfig : LoggerConfig) : LoggerConfig :=
  {| enabled := default (enabled loggerConfig) (newEnabled config);
     level := default (level loggerConfig) (newLevel config) |}.

Definition shouldLog (loggerConfig : LoggerConfig) (l : LogLevel) : bool :=
  if negb (enabled loggerConfig) then false
  else LOG_LEVEL_PRIORITY l >=? LOG_LEVEL_PRIORITY (level loggerConfig).

(** [failureTracker]: address to timestamps of failures *)
Abbreviation FailureTracker := (gmap string (list Z)).

Record FailureStatus := {
  failureCount : Z;
  isRepeatOffender : bool
}.

Definition within_window (now : Z) (failures : list Z) : list Z :=
  List.filter (fun ts => now - ts <? FAILURE_WINDOW_MS) failures.

Definition trackFailure (now : Z) (ip : string) (failureTracker : FailureTracker)
  : FailureStatus * FailureTracker :=
  let failures := default [] (failureTracker !! ip) in
  let failures := (within_window now failures ++ [now])%list in
  let failureCount := Z.of_nat (List.length failures) in
  ({| failureCount := failureCount;
      isRepeatOffender := failureCount >=? REPEAT_OFFENDER_THRESHOLD |},
   <[ip := failures]> failureTracker).

(** The entry written to the console (its ISO timestamp and the caller's
    own detail fields apart). *)
Record FailureLogEntry := {
  entryLevel : LogLevel;
  event : FailureEvent;
  ip : string;
  sessionId : option string;
  challengeId : option string;
  detailFailureCount : Z;
  detailIsRepeatOffender : bool
}.

Definition logFailure (loggerConfig : LoggerConfig) (now : Z)
    (event : FailureEvent) (ip : string) (sessionId challengeId : option string)
    (failureTracker : FailureTracker)
  : option FailureLogEntry * FailureTracker :=
  let '(tracked, failureTracker) := trackFailure now ip failureTracker in
  let l := if isRepeatOffender tracked then error else warn in
  if negb (shouldLog loggerConfig l) then (None, failureTracker)
  else
    (Some {| entryLevel := l; event := event; ip := ip;
             sessionId := sessionId; challengeId := challengeId;
             detailFailureCount := failureCount tracked;
             detailIsRepeatOffender := isRepeatOffender tracked |},
     failureTracker).

Definition cleanupFailureTracker (now : Z) (failureTracker : FailureTracker)
  : FailureTracker :=
  omap
    (fun failures =>
       let recentFailures := within_window now failures in
       if (List.length recentFailures =? 0)%nat then None
       else Some recentFailures)
    failureTracker.

End Logger.

(** ** server.ts: POST /auth/start, POST /submit and the WebSocket counters *)

Module Routes.
Import Text Js Sessions Server.

(** *** POST /auth/start *)

Record StartState := {
  challengeBuckets : RateLimit.BucketStore;
  startSessions : SessionStore;
  startFailures : Logger.FailureTracker
}.

Record StartInputs := {
  startRateGetNow : Z;
  startRateRefillNow : Z;
  startLogNow : Z;
  creation : CreateInputs
}.

Inductive StartResponse :=
  | StartLimited (retryAfter : Double.double)
  | Started (sessionId : string) (block maxBlocks : Z) (challenge : Challenge)
      (timeoutMs expiresAt : Z).

Definition authStart (config : Token.Config) (logger : Logger.LoggerConfig)
    (io : StartInputs) (ip : string) (st : StartState)
  : StartResponse * StartState * option Logger.FailureLogEntry :=
  let '(rateCheck, buckets) :=
    RateLimit.checkChallengeRateLimit (startRateGetNow io)
      (startRateRefillNow io) (challengeBuckets st) ip in
  if negb (RateLimit.allowed rateCheck) then
    let '(entry, failures) :=
      Logger.logFailure logger (startLogNow io) Logger.rate_limit_exceeded ip
        None None (startFailures st) in
    (StartLimited
       (Double.ceil
          (Double.div (default Double.nan (RateLimit.retryAfterMs rateCheck))
             (Double.of_Z 1000))),
     {| challengeBuckets := buckets; startSessions := startSessions st;
        startFailures := failures |},
     entry)
  else
    let '(session, sessions) :=
      createSession (creation io) ip (Token.challengeTimeoutMs config)
        (startSessions st) in
    (Started (Sessions.sessionId session) (currentBlock session)
       (Sessions.maxBlocks session) (Sessions.challenge session)
       (blockTimeoutMs session)
       (blockStartedAt session + blockTimeoutMs session),
     {| challengeBuckets := buckets; startSessions := sessions;
        startFailures := startFailures st |},
     None).

(** *** POST /submit (single-shot flow) *)

Record SubmitState := {
  challenges : Challenges.ChallengeStore;
  tokens : Token.TokenStore;
  failures : Logger.FailureTracker
}.

Record SubmitInputs := {
  getNow : Z;
  logNow : Z;
  verifyNow : Z;
  issueNow : Z;
  issueBytes : nat -> Z
}.

Inductive SubmitResponse :=
  | SubmitBadRequest (error : string)
  | SubmitNotFound (error : string)
  | SubmitResult (success : bool) (token : option string) (error : option string).

(** [answer.answer || ''] for the body's [answer]: a string stays (the
    empty one included), [null] and the other falsy values give the empty
    string; [None] is any other value. *)
Definition answer_text (answer : JsValue) : option string :=
  match answer with
  | JsString s => Some s
  | JsOther true => None
  | _ => Some ""
  end.

(** The response, the stores, what [verifyCoherent] left on its trace and
    the failure entry written, if any. *)
Definition submit (config : Token.Config) (logger : Logger.LoggerConfig)
    (w : Coherent.World) (io : SubmitInputs) (ip : string) (body : Body)
    (st : SubmitState)
  : SubmitResponse * SubmitState * list Coherent.Event
    * option Logger.FailureLogEntry :=
  match body with
  | Unreadable => (SubmitBadRequest "Invalid request body", st, [], None)
  | Fields id answer =>
      if falsy id || is_undefined answer then
        (SubmitBadRequest "Missing challengeId or answer", st, [], None)
      else
        let key := match id with JsString s => Some s | _ => None end in
        let '(found, challenges) :=
          match key with
          | Some k => Challenges.getChallenge (getNow io) k (challenges st)
          | None => (None, challenges st)
          end in
        match found, key with
        | Some challenge, Some k =>
            let '(result, challenges, events) :=
              Challenges.verifyAnswer (verifyNow io) w k (answer_text answer)
                challenges in
            match result with
            | None =>
                (SubmitBadRequest "Invalid request body",
                 {| challenges := challenges; tokens := tokens st;
                    failures := failures st |}, events, None)
            | Some result =>
                if Challenges.success result then
                  let '(tokenData, tokens) :=
                    Token.createToken (issueNow io) (issueBytes io) config k
                      (Some ip) (tokens st) in
                  let '(_, challenges) :=
                    Challenges.consumeChallenge k challenges in
                  (SubmitResult true (Some (Token.token tokenData))
                     (Challenges.error result),
                   {| challenges := challenges; tokens := tokens;
                      failures := failures st |}, events, None)
                else
                  (SubmitResult false None (Challenges.error result),
                   {| challenges := challenges; tokens := tokens st;
                      failures := failures st |}, events, None)
            end
        | _, _ =>
            let '(entry, failures) :=
              Logger.logFailure logger (logNow io) Logger.challenge_not_found ip
                None (match key with Some k => Some k | None => None end)
                (failures st) in
            (SubmitNotFound "Challenge not found or expired",
             {| challenges := challenges; tokens := tokens st;
                failures := failures |}, [], entry)
        end
  end.

(** *** WebSocket connection counters *)

Definition MAX_TOTAL_CONNECTIONS : Z := 1000.
Definition MAX_CONNECTIONS_PER_IP : Z := 10.

Record Connections := {
  totalConnections : Z;
  connectionsPerIp : gmap string Z
}.

(** [connectionsPerIp.get(ip) || 0] *)
Definition connections_of (conns : Connections) (ip : string) : Z :=
  default 0 (connectionsPerIp conns !! ip).

(** [ws.data.clientIp || 'unknown'] *)
Definition peer (clientIp : option string) : string :=
  match clientIp with
  | Some s => if (String.length s =? 0)%nat then "unknown" else s
  | None => "unknown"
  end.

Inductive Upgrade :=
  | AtCapacity
  | TooManyForIp
  | MayUpgrade.

(** The checks before [server.upgrade]. *)
Definition upgrade_check (ip : string) (conns : Connections) : Upgrade :=
  if totalConnections conns >=? MAX_TOTAL_CONNECTIONS then AtCapacity
  else if connections_of conns ip >=? MAX_CONNECTIONS_PER_IP then TooManyForIp
  else MayUpgrade.

(** The counting part of the [open] handler. *)
Definition ws_open (clientIp : option string) (conns : Connections)
  : Connections :=
  let ip := peer clientIp in
  {| totalConnections := totalConnections conns + 1;
     connectionsPerIp :=
       <[ip := connections_of conns ip + 1]> (connectionsPerIp conns) |}.

(** The [close] handler. *)
Definition ws_close (clientIp : option string) (conns : Connections)
  : Connections :=
  let ip := peer clientIp in
  let current := connections_of conns ip in
  {| totalConnections := Z.max 0 (totalConnections conns - 1);
     connectionsPerIp :=
       if current <=? 1 then delete ip (connectionsPerIp conns)
       else <[ip := current - 1]> (connectionsPerIp conns) |}.

End Routes.

(** ** The specification's vocabulary

    Definitions that follow the wording of the design specification, for
    comparison with the functions above. *)

Module PipelineSpec.
Import Text Coherent.

(** "Appears as a whole-word, case-insensitive match": the word stands in
    the candidate, letter case apart, with no word character next to it on
    either side. *)
Definition same_ignoring_case (a b : list ascii) : Prop :=
  List.map lower_char a = List.map lower_char b.

Definition occurs_whole_word (word sentence : string) : Prop :=
  exists pre mid post,
    chars sentence = (pre ++ mid ++ post)%list
    /\ same_ignoring_case mid (chars word)
    /\ is_word_opt (last pre) = false
    /\ is_word_opt (head post) = false.

(** The checks of the verification pipeline, one by one: what each of
    them adds to the error list for a candidate [s]. *)
Definition lexical_coverage (ch : CoherentChallenge) (s : string)
  : list string :=
  if wc_valid (containsAllWords s (words ch)) then []
  else ["Missing words: " ++ join ", " (missing (containsAllWords s (words ch)))].

Definition exact_count (ch : CoherentChallenge) (s : string) : list string :=
  if countWords s =? wordCount ch then []
  else ["Word count: expected " ++ show (wordCount ch)
        ++ ", got " ++ show (countWords s)].

Definition well_formed (s : string) : list string :=
  if gc_valid (basicGrammarCheck s) then []
  else [asserted (gc_error (basicGrammarCheck s))].

Definition coherence (w : World) (s : string) : list string :=
  if score (checkCoherence w s) <? 7 then
    ["Sentence not coherent enough (score: "
     ++ show (score (checkCoherence w s)) ++ "/10, need 7+)"]
  else [].

(** "Checks 2-4 are independent and all reported together." *)
Definition cheap_checks (ch : CoherentChallenge) (s : string) : list string :=
  (lexical_coverage ch s ++ exact_count ch s ++ well_formed s)%list.

Definition oracle_called (trace : list Event) : Prop :=
  exists s, In (CoherenceChecked s) trace.

(** "The oracle's reply parses as an integer in 1..10." *)
Definition usable_score (content : string) : option Z :=
  match parseInt content with
  | Some n => if (1 <=? n) && (n <=? 10) then Some n else None
  | None => None
  end.

Definition reply_score (r : Reply) : option Z :=
  match r with
  | ReplyUnreadable => None
  | ReplyWithoutContent => usable_score ""
  | ReplyContent c => usable_score (trim c)
  end.

(** "The oracle is unavailable or mis-configured": the API key is
    missing, the request fails, the response is not ok, or the reply holds
    no usable score. *)
Inductive oracle_unavailable (w : World) (s : string) : Prop :=
  | key_is_missing :
      key_missing (OPENAI_API_KEY w) = true -> oracle_unavailable w s
  | request_failed :
      fetch w s = FetchRejected -> oracle_unavailable w s
  | response_not_ok body :
      fetch w s = Response false body -> oracle_unavailable w s
  | reply_unusable body :
      fetch w s = Response true body -> reply_score body = None ->
      oracle_unavailable w s.

End PipelineSpec.

Module RateSpec.
Import RateLimit.

(** A capacity the count can be taken down from one by one: a finite
    double from 0 to 2^53. *)
Definition countable (x : Double.double) : Prop :=
  Double.regular x /\ Double.geb (Double.of_Z (2 ^ 53)) x = true.

(** "Never negative and never above the configured maximum." *)
Definition within_bounds (config : RateLimitConfig) (b : TokenBucket) : Prop :=
  valid_binary 53 1024 (tokens b) = true
  /\ Double.geb (tokens b) Double.zero = true
  /\ Double.geb (maxTokens config) (tokens b) = true.

Definition store_within_bounds (config : RateLimitConfig) (since : Z)
    (store : BucketStore) : Prop :=
  forall ip b, store !! ip = Some b ->
    within_bounds config b /\ 0 <= lastRefill b <= since.

(** Clock readings ([Date.now()], whole milliseconds below 2^53) that
    never go back, from [since] on. *)
Fixpoint non_decreasing (since : Z) (calls : list Call) : Prop :=
  match calls with
  | [] => True
  | c :: calls' =>
      since <= getNow c /\ getNow c <= refillNow c /\ refillNow c < 2 ^ 53
      /\ non_decreasing (refillNow c) calls'
  end.

(** "Elapsed time times refill rate, capped at capacity." *)
Definition refilled (config : RateLimitConfig) (now : Z) (b : TokenBucket)
  : Double.double :=
  Double.min (maxTokens config)
    (Double.add (tokens b)
       (Double.mul (Double.div (Double.of_Z (now - lastRefill b)) Double.thousand)
          (refillRate config))).

Definition bucket_of (config : RateLimitConfig) (now : Z) (store : BucketStore)
    (ip : string) : TokenBucket :=
  default {| tokens := maxTokens config; lastRefill := now |} (store !! ip).

Definition burst (ip : string) (now : Z) (n : nat) : list Call :=
  repeat {| ip := ip; getNow := now; refillNow := now |} n.

Definition granted : RateResult :=
  {| allowed := true; retryAfterMs := None |}.

(** "(1 - currentTokens) / refillRate", in milliseconds, rounded up. *)
Definition retry_after (config : RateLimitConfig) (currentTokens : Double.double)
  : Double.double :=
  Double.ceil
    (Double.mul (Double.div (Double.sub Double.one currentTokens) (refillRate config))
       Double.thousand).

End RateSpec.

Module ServerSpec.
Import Text Js Sessions Server.

(** "Performs no verification of the submitted answer." *)
Definition no_verification (trace : list Effect) : Prop :=
  forall ch a events, ~ In (Verified ch a events) trace.

(** "The timeout transition": below the maximum the session stays active
    on the next block, with a freshly generated challenge and the block
    start time reset; at the maximum it fails and keeps its challenge. *)
Definition timeout_transition (io : Inputs) (before after : AuthSession)
  : Prop :=
  if currentBlock before <? maxBlocks before then
    status after = active
    /\ currentBlock after = currentBlock before + 1
    /\ challenge after = freshChallenge (nextBlock io)
    /\ blockStartedAt after = advanceNow io
  else
    status after = failed
    /\ currentBlock after = currentBlock before
    /\ challenge after = challenge before.

(** The rate limiter lets the request through. *)
Definition let_through (io : Inputs) (ip : string) (st : State) : Prop :=
  RateLimit.allowed
    (fst (RateLimit.checkSubmitRateLimit (rateGetNow io) (rateRefillNow io)
            (submitStore st) ip)) = true.

(** "Expiry is checked before verification on every submission", read
    literally: every submission to an active session whose block has timed
    out goes through the timeout transition, unverified. *)
Definition expired_submission_advances : Prop :=
  forall config w io ip key answer st session,
    getSession (sessions st) key = Some session ->
    status session = active ->
    isBlockExpired (expiryNow io) session = true ->
    let outcome :=
      authSubmit config w io ip (Fields (JsString key) (JsString answer)) st in
    no_verification (snd outcome)
    /\ exists after,
         getSession (sessions (snd (fst outcome))) key = Some after
         /\ timeout_transition io session after.

End ServerSpec.

Module FormatSpec.
Import Text Token.

(** The characters of a URL-safe token body and of an identifier. *)
Definition is_url_safe (c : ascii) : bool :=
  is_upper c || is_lower c || is_digit c || (code c =? 45)%N || (code c =? 95)%N.

Definition is_alphanumeric (c : ascii) : bool :=
  is_upper c || is_lower c || is_digit c.

(** A base64 character that the URL-safe rewriting turns into one
    URL-safe character. *)
Definition keeps_one (c : ascii) : Prop :=
  exists c', urlSafe [c] = [c'] /\ is_url_safe c' = true.

End FormatSpec.

Module SessionSpec.
Import Sessions.

(** Block timeouts one after the other: each step is the clock reading and
    the random values of one [advanceToNextBlock] call. *)
Fixpoint advance_all (steps : list (Z * BlockEntropy)) (session : AuthSession)
  : list bool * AuthSession :=
  match steps with
  | [] => ([], session)
  | (now, e) :: steps' =>
      let '(session, advanced) := advanceToNextBlock now e session in
      let '(results, session) := advance_all steps' session in
      (advanced :: results, session)
  end.
End SessionSpec.

(** ** Concrete inputs used in the examples below *)

Module Scenario.
Import Text Js Coherent Sessions Server.

(** A random source under which the noun draw and the verb draw both
    come out as "whisper": the noun keys put index 12 first, all other
    keys are equal (a stable sort then keeps the pool order), and the
    final shuffle leaves the order as it is. *)
Definition whisper_entropy : Entropy :=
  {| nounKeys := fun i => if (i =? 12)%nat then 0 else 1;
     adjectiveKeys := fun _ => 0;
     verbKeys := fun _ => 0;
     timeKeys := fun _ => 0;
     shuffle := fun l => l;
     randomByte := 0 |}.

(** A session on block 1 whose 9-second block started at time 0, and a
    submission that reaches it at time 20000 with an answer of 10,001
    characters. *)
Definition stale_session : AuthSession :=
  {| sessionId := "ses_A"; clientIp := "203.0.113.7";
     currentBlock := 1; maxBlocks := 3;
     challenge :=
       {| data := {| words := ["apple"; "river"; "purple"; "dance"; "autumn"];
                     wordCount := 15; timeoutMs := 10000 |};
          challengeId := "ch_A" |};
     blockStartedAt := 0; blockTimeoutMs := 9000; sessionCreatedAt := 0;
     status := active; passedAt := None; failedAt := None |}.

Definition stale_state : State :=
  {| sessions := [("ses_A", stale_session)];
     tokenStore := ∅; submitStore := ∅ |}.

Definition late_inputs : Inputs :=
  {| rateGetNow := 20000; rateRefillNow := 20000; expiryNow := 20000;
     advanceNow := 20000;
     nextBlock := {| challengeEntropy :=
                       {| nounKeys := fun i => Z.of_nat i;
                          adjectiveKeys := fun i => Z.of_nat i;
                          verbKeys := fun i => Z.of_nat i;
                          timeKeys := fun i => Z.of_nat i;
                          shuffle := fun l => l;
                          randomByte := 7 |};
                     challengeIdBytes := fun i => Z.of_nat i |};
     passedNow := 20000; tokenNow := 20000; tokenBytes := fun _ => 0;
     remainingNow := 20000 |}.

(** The reads of a [createSession] call at time 400000: older sessions
    are past the maximum age by then. *)
Definition first_inputs : CreateInputs :=
  {| sessionIdBytes := fun i => Z.of_nat i;
     firstBlock := nextBlock late_inputs;
     createdNow := 400000;
     cleanupNow := 400001 |}.

(** A full store: 10,000 sessions under the keys "0", "1", ..., created
    one millisecond apart from time 300000 on.  At time 400001 none of them
    is past the maximum age, and the oldest is the one under "0". *)
Definition crowd_member (i : nat) : string * AuthSession :=
  (pretty i,
   {| sessionId := pretty i; clientIp := "198.51.100.2";
      currentBlock := 1; maxBlocks := 3;
      challenge := challenge stale_session;
      blockStartedAt := 300000 + Z.of_nat i; blockTimeoutMs := 9000;
      sessionCreatedAt := 300000 + Z.of_nat i;
      status := active; passedAt := None; failedAt := None |}).

Definition crowd : SessionStore :=
  List.map crowd_member (seq 0 (Z.to_nat MAX_SESSIONS)).

Definition oversized_answer : string :=
  text (repeat "a"%char (Z.to_nat 10001)).

Definition test_config : Token.Config :=
  {| Token.port := 9816; Token.challengeTimeoutMs := 9000;
     Token.tokenExpiryMs := 60000 |}.

Definition no_oracle : World :=
  {| OPENAI_API_KEY := None;
     fetch := fun _ => FetchRejected |}.

(** Two rate-limited calls from one address half a second apart, then
    one from another address. *)
Definition three_calls : list RateLimit.Call :=
  [ {| RateLimit.ip := "203.0.113.7";
       RateLimit.getNow := 1000; RateLimit.refillNow := 1000 |};
    {| RateLimit.ip := "203.0.113.7";
       RateLimit.getNow := 1500; RateLimit.refillNow := 1501 |};
    {| RateLimit.ip := "198.51.100.2";
       RateLimit.getNow := 1501; RateLimit.refillNow := 1501 |} ].

End Scenario.

(** ** Vocabulary for the logger, the socket counters and the word pools *)

Module LoggerSpec.
Import Logger.

(** Failures of one address reported one after the other, each at its
    clock reading. *)
Fixpoint log_all (loggerConfig : LoggerConfig) (times : list Z)
    (event : FailureEvent) (ip : string) (failureTracker : FailureTracker)
  : list (option FailureLogEntry) * FailureTracker :=
  match times with
  | [] => ([], failureTracker)
  | now :: times' =>
      let '(entry, failureTracker) :=
        logFailure loggerConfig now event ip None None failureTracker in
      let '(entries, failureTracker) :=
        log_all loggerConfig times' event ip failureTracker in
      (entry :: entries, failureTracker)
  end.

(** Clock readings that all lie in the failure window that opens at
    [first]. *)
Definition in_window (first : Z) (times : list Z) : Prop :=
  Forall (fun t => first <= t < first + FAILURE_WINDOW_MS) times.

(** What is written for the [n]-th failure on record: a warning up to the
    fourth, an error from the fifth on, if the logger lets that level
    through. *)
Definition nth_entry (loggerConfig : LoggerConfig) (event : FailureEvent)
    (ip : string) (n : nat) : option FailureLogEntry :=
  let l := if Z.of_nat n <? 5 then warn else error in
  if shouldLog loggerConfig l then
    Some {| entryLevel := l; event := event; ip := ip;
            sessionId := None; challengeId := None;
            detailFailureCount := Z.of_nat n;
            detailIsRepeatOffender := negb (Z.of_nat n <? 5) |}
  else None.

End LoggerSpec.

Module ConnectionSpec.
Import Routes.

(** Counters as the handlers leave them: a total that is not negative and
    no address with a count below one. *)
Definition counted (conns : Connections) : Prop :=
  0 <= totalConnections conns
  /\ forall ip c, connectionsPerIp conns !! ip = Some c -> 1 <= c.

Definition within_limits (conns : Connections) : Prop :=
  totalConnections conns <= MAX_TOTAL_CONNECTIONS
  /\ forall ip, connections_of conns ip <= MAX_CONNECTIONS_PER_IP.

(** What happens to the counters: a client asks for an upgrade (and the
    socket is opened if the checks let it through), or a socket closes. *)
Inductive SocketEvent :=
  | Connects (ip : string)
  | Closes (ip : string).

Definition address (ev : SocketEvent) : string :=
  match ev with Connects ip | Closes ip => ip end.

Definition socket_step (conns : Connections) (ev : SocketEvent) : Connections :=
  match ev with
  | Connects ip =>
      match upgrade_check ip conns with
      | MayUpgrade => ws_open (Some ip) conns
      | _ => conns
      end
  | Closes ip => ws_close (Some ip) conns
  end.

End ConnectionSpec.

Module GeneratorSpec.

(** Membership in a word pool, decided. *)
Definition among (pool : list string) (w : string) : bool :=
  existsb (String.eqb w) pool.

End GeneratorSpec.

(** ** Concrete inputs of the single-shot flow and of a submission in time *)

Module ChallengeScenario.
Import Text Js Coherent Challenges.

(** A challenge of the single-shot flow, issued at time 1000 for nine
    seconds, and a store that holds only it. *)
Definition open_challenge : MultiChallenge :=
  {| challengeId := "ch_A"; type := coherent;
     createdAt := 1000; expiresAt := 10000;
     clientIp := Some "203.0.113.7"; verified := false;
     data := {| words := ["apple"; "river"]; wordCount := 5; timeoutMs := 10000 |} |}.

Definition one_challenge : ChallengeStore := [("ch_A", open_challenge)].

Definition good_answer : string := "The apple crossed the river.".

(** 10,001 unexpired challenges under the keys "0", "1", ..., created one
    millisecond apart. *)
Definition challenge_crowd_member (i : nat) : string * MultiChallenge :=
  (pretty i,
   {| challengeId := pretty i; type := coherent;
      createdAt := Z.of_nat i; expiresAt := 30000 + Z.of_nat i;
      clientIp := None; verified := false;
      data := data open_challenge |}).

Definition challenge_crowd : ChallengeStore :=
  List.map challenge_crowd_member (seq 0 (S (Z.to_nat MAX_CHALLENGES))).

(** The single-shot flow with that one challenge open, and the reads of a
    submission at time 2000. *)
Definition one_open : Routes.SubmitState :=
  {| Routes.challenges := one_challenge; Routes.tokens := ∅;
     Routes.failures := ∅ |}.

Definition prompt_inputs : Routes.SubmitInputs :=
  {| Routes.getNow := 2000; Routes.logNow := 2000; Routes.verifyNow := 2000;
     Routes.issueNow := 2001; Routes.issueBytes := fun i => Z.of_nat i |}.

Definition default_logger : Logger.LoggerConfig :=
  {| Logger.enabled := true; Logger.level := Logger.info |}.

End ChallengeScenario.

Module SubmissionScenario.
Import Text Js Sessions Server Scenario.

(** A submission in time: the reads of a request at time 5000, and a
    15-word answer that holds the five words of [stale_session]. *)
Definition prompt_reads : Inputs :=
  {| rateGetNow := 5000; rateRefillNow := 5000; expiryNow := 5000;
     advanceNow := 5000; nextBlock := nextBlock late_inputs;
     passedNow := 5001; tokenNow := 5002; tokenBytes := fun i => Z.of_nat i;
     remainingNow := 5003 |}.

Definition fitting_answer : string :=
  "The purple apple fell in the river and we dance every autumn near the water.".

End SubmissionScenario.

(** * Properties *)

(** ** The functions on small inputs *)

Module Examples.
Import Text Js Coherent Scenario.

Example trim_both_ends : trim "  Hello world.  " = "Hello world.".
Proof. reflexivity. Qed.

Example split_keeps_edge_pieces :
  List.map text (split_ws (chars " a  b ")) = [""; "a"; "b"; ""].
Proof. reflexivity. Qed.

Example countWords_runs : countWords "  The apple   is red. " = 4.
Proof. reflexivity. Qed.

Example countWords_empty : countWords "" = 0.
Proof. reflexivity. Qed.

Example whole_words_only :
  missing (containsAllWords "The Apple pineapples whisper."
             ["apple"; "pine"; "whisper"; "the"]) = ["pine"].
Proof. reflexivity. Qed.

Example grammar_needs_capital :
  gc_error (basicGrammarCheck "hello.")
  = Some "Sentence should start with a capital letter".
Proof. reflexivity. Qed.

Example parseInt_prefix : parseInt "8 out of 10" = Some 8.
Proof. reflexivity. Qed.

Example parseInt_nan : parseInt "eight" = None.
Proof. reflexivity. Qed.

Example btoa_padding : text (Token.btoa [77; 97]) = "TWE=".
Proof. reflexivity. Qed.

Example token_of_zero_bytes :
  Token.generateTokenString (fun _ => 0)
  = "rcap_AAAAAAAAAAAAAAAAAAAAAAAAAAAAAAAAAAAAAAAAAAA".
Proof. reflexivity. Qed.

Example eleventh_call_denied :
  List.map RateLimit.allowed
    (fst (RateLimit.run RateLimit.RATE_LIMITS_challenge
            (RateSpec.burst "203.0.113.7" 5 11) ∅))
  = (repeat true 10 ++ [false])%list.
Proof. vm_compute. reflexivity. Qed.

End Examples.

Module TextFacts.
Import Text.

Lemma chars_text l : chars (text l) = l.
Proof. apply list_ascii_of_string_of_list_ascii. Qed.

Lemma text_chars s : text (chars s) = s.
Proof. apply string_of_list_ascii_of_string. Qed.

Lemma chars_toLowerCase s : chars (toLowerCase s) = List.map lower_char (chars s).
Proof. unfold toLowerCase. apply chars_text. Qed.

Lemma lower_char_word c : is_word_char (lower_char c) = is_word_char c.
Proof. destruct c as [[] [] [] [] [] [] [] []]; reflexivity. Qed.

Lemma lower_char_idem c : lower_char (lower_char c) = lower_char c.
Proof. destruct c as [[] [] [] [] [] [] [] []]; reflexivity. Qed.
End TextFacts.

Module CoherentFacts.
Import Text Coherent TextFacts.

Lemma last_from_app prev u v : last_from prev (u ++ v) = last_from (last_from prev u) v.
Proof. revert prev; induction u as [|x u IH]; intros prev; simpl; auto. Qed.

Lemma last_from_None u : last_from None u = last u.
Proof.
  induction u as [|x u IH] using rev_ind; [reflexivity|].
  rewrite last_from_app, last_snoc. reflexivity.
Qed.

Lemma last_from_cons prev x u : last_from prev (x :: u) = last (x :: u).
Proof.
  revert prev x; induction u as [|y u IH]; intros prev x; [reflexivity|].
  change (last_from (Some x) (y :: u) = last (x :: y :: u)).
  rewrite IH. reflexivity.
Qed.

Lemma match_chars u pat prev input :
  match_here (List.map Char u ++ pat) prev input = true <->
  exists rest, input = (u ++ rest)%list /\ match_here pat (last_from prev u) rest = true.
Proof.
  revert prev input; induction u as [|c u IH]; intros prev input; simpl.
  - split; [intros H; exists input; auto | intros (rest & -> & H); exact H].
  - destruct input as [|x input'].
    + split; [discriminate | intros (rest & E & _); discriminate].
    + rewrite andb_true_iff, IH. split.
      * intros [Hx (rest & -> & H)]. apply Ascii.eqb_eq in Hx. subst.
        exists rest. auto.
      * intros (rest & E & H). injection E as -> ->. split.
        -- apply Ascii.eqb_refl.
        -- exists rest. auto.
Qed.

Lemma search_spec pat prev input :
  search pat prev input = true <->
  exists pre post, input = (pre ++ post)%list
                   /\ match_here pat (last_from prev pre) post = true.
Proof.
  revert prev; induction input as [|x input IH]; intros prev; simpl.
  - rewrite orb_false_r. split.
    + intros H. exists [], []. auto.
    + intros (pre & post & E & H).
      symmetry in E. apply app_eq_nil in E as [-> ->]. exact H.
  - rewrite orb_true_iff, IH. split.
    + intros [H | (pre & post & -> & H)].
      * exists [], (x :: input). auto.
      * exists (x :: pre), post. auto.
    + intros (pre & post & E & H). destruct pre as [|y pre].
      * left. simpl in *. subst post. exact H.
      * right. injection E as -> ->. exists pre, post. auto.
Qed.

Lemma is_word_last_map l :
  is_word_opt (last (List.map lower_char l)) = is_word_opt (last l).
Proof.
  induction l as [|x l IH] using rev_ind; [reflexivity|].
  rewrite List.map_app. simpl. rewrite !last_snoc. simpl.
  apply lower_char_word.
Qed.

Lemma is_word_head_map l :
  is_word_opt (head (List.map lower_char l)) = is_word_opt (head l).
Proof. destruct l; simpl; [reflexivity | apply lower_char_word]. Qed.

Lemma last_word_chars u :
  u <> [] -> Forall (fun c => is_word_char c = true) u ->
  is_word_opt (last u) = true.
Proof.
  induction u as [|x u IH] using rev_ind; [congruence|].
  intros _ H. rewrite last_snoc. simpl.
  apply Forall_app in H as [_ H]. inversion H; assumption.
Qed.

Lemma match_word u prev input :
  u <> [] -> Forall (fun c => is_word_char c = true) u ->
  match_here (WordBoundary :: List.map Char u ++ [WordBoundary]) prev input = true <->
  is_word_opt prev = false
  /\ exists rest, input = (u ++ rest)%list /\ is_word_opt (head rest) = false.
Proof.
  intros Hne Hw.
  assert (Hlast : forall p, is_word_opt (last_from p u) = true).
  { intros p. destruct u as [|c u']; [congruence|].
    rewrite last_from_cons. apply last_word_chars; assumption. }
  cbn [match_here]. rewrite andb_true_iff, match_chars. cbn [match_here].
  split.
  - intros [Hb (rest & -> & Hr)]. rewrite andb_true_r in Hr.
    unfold at_boundary in *. rewrite Hlast in Hr.
    destruct u as [|c u']; [congruence|]. simpl in Hb.
    inversion Hw as [|? ? Hc _]; subst. rewrite Hc in Hb.
    split.
    + destruct (is_word_opt prev); [discriminate | reflexivity].
    + exists rest. split; [reflexivity|].
      destruct (is_word_opt (head rest)); [discriminate | reflexivity].
  - intros [Hp (rest & -> & Hr)]. split.
    + unfold at_boundary. rewrite Hp.
      destruct u as [|c u']; [congruence|]. simpl.
      inversion Hw; subst; assumption.
    + exists rest. split; [reflexivity|].
      rewrite andb_true_r. unfold at_boundary. rewrite Hlast, Hr. reflexivity.
Qed.

Lemma plain_lower w :
  plain_word w ->
  List.map lower_char (chars w) <> []
  /\ Forall (fun c => is_word_char c = true) (List.map lower_char (chars w)).
Proof.
  intros [Hw Hne]. split.
  - destruct (chars w); [congruence | discriminate].
  - apply List.Forall_forall. intros c Hc. apply List.in_map_iff in Hc as (c0 & <- & Hc0).
    rewrite lower_char_word. rewrite List.Forall_forall in Hw. auto.
Qed.

Lemma regex_test_whole_word w s :
  plain_word w ->
  regex_test (word_regex (toLowerCase w)) (toLowerCase s) = true
  <-> PipelineSpec.occurs_whole_word w s.
Proof.
  intros Hp. destruct (plain_lower w Hp) as [Hne Hw].
  unfold regex_test, word_regex. rewrite !chars_toLowerCase, search_spec.
  unfold PipelineSpec.occurs_whole_word, PipelineSpec.same_ignoring_case. split.
  - intros (pre & post & E & H).
    apply match_word in H as [Hpre (rest & -> & Hrest)]; try assumption.
    apply map_eq_app in E as (pre0 & tl0 & E0 & <- & E1).
    apply map_eq_app in E1 as (mid0 & post0 & -> & Em & <-).
    exists pre0, mid0, post0. repeat split; try assumption.
    + rewrite last_from_None, is_word_last_map in Hpre. exact Hpre.
    + rewrite is_word_head_map in Hrest. exact Hrest.
  - intros (pre & mid & post & E & Em & Hpre & Hpost).
    exists (List.map lower_char pre), (List.map lower_char (mid ++ post)).
    split; [rewrite E, List.map_app; reflexivity|].
    apply match_word; try assumption. split.
    + rewrite last_from_None, is_word_last_map. exact Hpre.
    + exists (List.map lower_char post). split.
      * rewrite List.map_app, Em. reflexivity.
      * rewrite is_word_head_map. exact Hpost.
Qed.

End CoherentFacts.

Module CoherentProps.
Import Text Coherent TextFacts CoherentFacts.

Lemma filter_nil_iff {A} (f : A -> bool) (l : list A) :
  List.filter f l = [] <-> forall x, In x l -> f x = false.
Proof.
  induction l as [|y l IH]; simpl.
  - split; [intros _ x [] | reflexivity].
  - destruct (f y) eqn:Hy.
    + split; [discriminate | intros H; specialize (H y (or_introl eq_refl)); congruence].
    + rewrite IH. split.
      * intros H x [<- | Hx]; auto.
      * intros H x Hx. apply H. now right.
Qed.

Lemma filter_only {A} (f : A -> bool) (l : list A) (w : A) :
  List.NoDup l -> In w l -> f w = true ->
  (forall x, In x l -> x <> w -> f x = false) ->
  List.filter f l = [w].
Proof.
  induction l as [|y l IH]; intros Hnd Hin Hw Hothers; [destruct Hin|].
  apply List.NoDup_cons_iff in Hnd as [Hy Hnd].
  simpl. destruct Hin as [-> | Hin].
  - rewrite Hw. f_equal.
    apply filter_nil_iff. intros x Hx. apply Hothers; [now right|].
    intros ->. contradiction.
  - rewrite (Hothers y); [| now left | intros ->; contradiction].
    apply IH; auto. intros x Hx. apply Hothers. now right.
Qed.

Lemma absent_spec sentence w :
  plain_word w -> absent sentence w = true <-> ~ PipelineSpec.occurs_whole_word w sentence.
Proof.
  intros Hp. unfold absent. rewrite negb_true_iff, <- not_true_iff_false.
  rewrite (regex_test_whole_word w sentence Hp). reflexivity.
Qed.

(** C7: lexical coverage is whole-word and case-insensitive.  For required
    words made of word characters, a word is listed as missing exactly when
    it does not occur in the candidate, letter case apart, with no word
    character on either side; the check passes exactly when every required
    word occurs so; a candidate lacking exactly one required word is
    reported with that word and no other (once, when the required words are
    pairwise distinct). *)
Theorem containsAllWords_whole_word (sentence : string) (words : list string) :
  Forall plain_word words ->
  let check := containsAllWords sentence words in
  (forall w, In w (missing check) <->
             In w words /\ ~ PipelineSpec.occurs_whole_word w sentence)
  /\ (wc_valid check = true <->
      forall w, In w words -> PipelineSpec.occurs_whole_word w sentence)
  /\ (forall w, In w words -> ~ PipelineSpec.occurs_whole_word w sentence ->
        (forall w', In w' words -> w' <> w -> PipelineSpec.occurs_whole_word w' sentence) ->
        (forall x, In x (missing check) <-> x = w)
        /\ (List.NoDup words -> missing check = [w])).
Proof.
  intros Hplain check.
  assert (Hm : missing check = List.filter (absent sentence) words) by reflexivity.
  rewrite List.Forall_forall in Hplain.
  assert (H1 : forall w, In w (missing check) <->
                         In w words /\ ~ PipelineSpec.occurs_whole_word w sentence).
  { intros w. rewrite Hm, filter_In. split; intros [Hin H]; split; auto.
    - apply absent_spec; auto.
    - apply absent_spec; auto. }
  split; [exact H1|]. split.
  - unfold check, containsAllWords; cbn [wc_valid].
    rewrite Nat.eqb_eq, List.length_zero_iff_nil.
    rewrite filter_nil_iff. split.
    + intros H w Hin. specialize (H w Hin).
      unfold absent in H. apply negb_false_iff in H.
      apply regex_test_whole_word; auto.
    + intros H w Hin. unfold absent. apply negb_false_iff.
      apply regex_test_whole_word; auto.
  - intros w Hin Hw Hothers. split.
    + intros x. rewrite H1. split.
      * intros [Hx Hnot]. destruct (string_dec x w) as [|Hne]; [assumption|].
        exfalso. apply Hnot. auto.
      * intros ->. auto.
    + intros Hnd. rewrite Hm. apply filter_only; auto.
      * apply absent_spec; auto.
      * intros x Hx Hne. unfold absent. apply negb_false_iff.
        apply regex_test_whole_word; auto.
Qed.

Lemma containsAllWords_whole_word_witness :
  missing (containsAllWords "The purple Apples fell by the river."
             ["apple"; "purple"; "river"]) = ["apple"].
Proof.
  refine (proj2 (proj2 (proj2 (containsAllWords_whole_word
            "The purple Apples fell by the river." ["apple"; "purple"; "river"] _))
            "apple" _ _ _) _).
  - repeat constructor; discriminate.
  - simpl; auto.
  - apply absent_spec; [repeat constructor; discriminate | reflexivity].
  - intros w' [<- | [<- | [<- | []]]] Hne; try congruence.
    + apply regex_test_whole_word; [repeat constructor; discriminate | reflexivity].
    + apply regex_test_whole_word; [repeat constructor; discriminate | reflexivity].
  - repeat (constructor; [simpl; intuition discriminate|]). constructor.
Defined.

End CoherentProps.

Module PipelineProps.
Import Text Coherent PipelineSpec.

Lemma length_zero {A} (l : list A) : (List.length l =? 0)%nat = true <-> l = [].
Proof. rewrite Nat.eqb_eq. apply List.length_zero_iff_nil. Qed.

(** The error list built by the three unconditional checks. *)
Lemma pushes_cheap ch s :
  push_if (negb (gc_valid (basicGrammarCheck s)))
    (asserted (gc_error (basicGrammarCheck s)))
    (push_if (negb (countWords s =? wordCount ch))
       ("Word count: expected " ++ show (wordCount ch)
        ++ ", got " ++ show (countWords s))
       (push_if (negb (wc_valid (containsAllWords s (words ch))))
          ("Missing words: " ++ join ", " (missing (containsAllWords s (words ch))))
          []))
  = cheap_checks ch s.
Proof.
  unfold cheap_checks, lexical_coverage, exact_count, well_formed, push_if.
  destruct (wc_valid _), (countWords s =? wordCount ch),
    (gc_valid _); reflexivity.
Qed.

Lemma verifyCoherent_unfold w ch ans :
  strlen (candidate ans) <= MAX_SENTENCE_LENGTH ->
  verifyCoherent w ch ans =
  let s := candidate ans in
  let cheap := cheap_checks ch s in
  match cheap with
  | [] =>
      let errors := coherence w s in
      ({| valid := (List.length errors =? 0)%nat; errors := errors;
          coherenceScore := Some (score (checkCoherence w s)) |},
       CoherenceChecked s ::
       if (List.length errors =? 0)%nat then []
       else [VerificationFailed errors (Some (score (checkCoherence w s)))
               (wordCount ch) (countWords s)])
  | _ =>
      ({| valid := false; errors := cheap; coherenceScore := None |},
       [VerificationFailed cheap None (wordCount ch) (countWords s)])
  end.
Proof.
  intros Hlen. unfold verifyCoherent.
  replace (strlen (candidate ans) >? MAX_SENTENCE_LENGTH) with false
    by (symmetry; rewrite Z.gtb_ltb; apply Z.ltb_ge; exact Hlen).
  cbv zeta. rewrite pushes_cheap.
  destruct (cheap_checks ch (candidate ans)) as [|e es] eqn:Hcheap.
  - cbn [List.length Nat.eqb]. unfold coherence, push_if.
    destruct (score (checkCoherence w (candidate ans)) <? 7); reflexivity.
  - reflexivity.
Qed.

(** C1: for a candidate whose trimmed text has at most 10,000 characters,
    the errors of checks 2-4 (lexical coverage, exact count, surface
    well-formedness) are all collected, in that order; when there is one,
    the oracle is not called and these are the errors returned; when there
    is none, the oracle is called on the candidate and the only possible
    error is the coherence error; and [valid] holds exactly when the error
    list is empty.  Required words are literal patterns. *)
Theorem verifyCoherent_accumulates (w : World) (ch : CoherentChallenge)
    (ans : CoherentAnswer) :
  Forall literal_word (words ch) ->
  strlen (candidate ans) <= MAX_SENTENCE_LENGTH ->
  let s := candidate ans in
  let result := fst (verifyCoherent w ch ans) in
  let trace := snd (verifyCoherent w ch ans) in
  (cheap_checks ch s <> [] ->
     errors result = cheap_checks ch s
     /\ coherenceScore result = None
     /\ ~ oracle_called trace)
  /\ (cheap_checks ch s = [] ->
     errors result = coherence w s
     /\ coherenceScore result = Some (score (checkCoherence w s))
     /\ (forall x, In (CoherenceChecked x) trace <-> x = s))
  /\ (oracle_called trace <-> cheap_checks ch s = [])
  /\ (valid result = true <-> errors result = []).
Proof.
  intros _ Hlen s result trace. subst result trace.
  rewrite (verifyCoherent_unfold w ch ans Hlen). fold s. cbv zeta.
  unfold oracle_called.
  destruct (cheap_checks ch s) as [|e es] eqn:Hcheap; cbn [fst snd errors valid coherenceScore].
  - split; [congruence|]. split; [|split].
    + intros _. split; [reflexivity|]. split; [reflexivity|].
      intros x. destruct (List.length (coherence w s) =? 0)%nat; simpl.
      * split; [intros [E | []]; congruence | intros ->; auto].
      * split; [intros [E | [E | []]]; congruence | intros ->; auto].
    + split; [reflexivity|]. intros _. exists s. now left.
    + apply length_zero.
  - split; [|split; [congruence|split]].
    + intros _. split; [reflexivity|]. split; [reflexivity|].
      intros (x & [E | []]). discriminate.
    + split; [|discriminate]. intros (x & [E | []]). discriminate.
    + split; discriminate.
Qed.

Lemma verifyCoherent_accumulates_witness :
  errors (fst (verifyCoherent
                 {| OPENAI_API_KEY := None; fetch := fun _ => FetchRejected |}
                 {| words := ["apple"; "river"]; wordCount := 4; timeoutMs := 10000 |}
                 {| sentence := Some " the apple falls " |}))
  = ["Missing words: river"; "Word count: expected 4, got 3";
     "Sentence should start with a capital letter"].
Proof.
  refine (proj1 (proj1 (verifyCoherent_accumulates
            {| OPENAI_API_KEY := None; fetch := fun _ => FetchRejected |}
            {| words := ["apple"; "river"]; wordCount := 4; timeoutMs := 10000 |}
            {| sentence := Some " the apple falls " |} _ _) _)).
  - repeat constructor.
  - vm_compute. discriminate.
  - vm_compute. discriminate.
Defined.

(** C5: when the oracle is unavailable (no API key, a failed request, a
    response that is not ok, or a reply without an integer score in 1..10)
    [checkCoherence] returns the passing score 7, and a candidate that
    passes checks 2-4 is then accepted by [verifyCoherent]. *)
Theorem checkCoherence_fallback (w : World) (s : string) :
  oracle_unavailable w s ->
  score (checkCoherence w s) = 7
  /\ forall ch ans,
       Forall literal_word (words ch) ->
       candidate ans = s ->
       strlen s <= MAX_SENTENCE_LENGTH ->
       cheap_checks ch s = [] ->
       valid (fst (verifyCoherent w ch ans)) = true
       /\ errors (fst (verifyCoherent w ch ans)) = [].
Proof.
  intros Hun.
  assert (Hscore : score (checkCoherence w s) = 7).
  { unfold checkCoherence.
    destruct Hun as [Hk | Hf | body Hf | body Hf Hr].
    - rewrite Hk. reflexivity.
    - destruct (key_missing _); [reflexivity|]. rewrite Hf. reflexivity.
    - destruct (key_missing _); [reflexivity|]. rewrite Hf. reflexivity.
    - destruct (key_missing _); [reflexivity|]. rewrite Hf.
      destruct body as [| |c]; [reflexivity| |];
        unfold reply_score, usable_score in Hr.
      + destruct (parseInt "") as [n|]; [|reflexivity].
        destruct (Z.leb_spec 1 n), (Z.leb_spec n 10); simpl in Hr;
          try discriminate;
          destruct (Z.ltb_spec n 1), (Z.gtb_spec n 10); simpl; try reflexivity; lia.
      + destruct (parseInt (trim c)) as [n|]; [|reflexivity].
        destruct (Z.leb_spec 1 n), (Z.leb_spec n 10); simpl in Hr;
          try discriminate;
          destruct (Z.ltb_spec n 1), (Z.gtb_spec n 10); simpl; try reflexivity; lia. }
  split; [exact Hscore|].
  intros ch ans _ Hs Hlen Hcheap. subst s.
  rewrite (verifyCoherent_unfold w ch ans Hlen). cbv zeta. rewrite Hcheap.
  cbn [fst valid errors]. unfold coherence. rewrite Hscore. split; reflexivity.
Qed.

Lemma checkCoherence_fallback_witness :
  score (checkCoherence
           {| OPENAI_API_KEY := Some "sk-test";
              fetch := fun _ => Response true (ReplyContent "eleven") |}
           "The apple falls.") = 7.
Proof.
  refine (proj1 (checkCoherence_fallback _ "The apple falls." _)).
  apply reply_unusable with (body := ReplyContent "eleven"); reflexivity.
Defined.

End PipelineProps.

Module MapFacts.
Import Js.

Section OrderedMapFacts.
Context {V : Type}.
Implicit Types (m : list (string * V)) (k : string) (e : string * V).

Lemma key_determines m e e' :
  List.NoDup (keys m) -> In e m -> In e' m -> fst e = fst e' -> e = e'.
Proof.
  induction m as [|x m IH]; intros Hnd He He' Hk; [destruct He|].
  cbn in Hnd. apply List.NoDup_cons_iff in Hnd as [Hx Hnd].
  destruct He as [-> | He], He' as [-> | He']; auto.
  - exfalso. apply Hx. rewrite Hk. apply List.in_map. exact He'.
  - exfalso. apply Hx. rewrite <- Hk. apply List.in_map. exact He.
Qed.

Lemma map_delete_absent k m : ~ In k (keys m) -> map_delete k m = m.
Proof.
  induction m as [|[k' v] m IH]; intros Hk; [reflexivity|].
  cbn in *. destruct (String.eqb_spec k k') as [-> | Hne].
  - exfalso. apply Hk. now left.
  - f_equal. apply IH. tauto.
Qed.

Lemma map_delete_In k m e :
  List.NoDup (keys m) ->
  In e (map_delete k m) <-> In e m /\ fst e <> k.
Proof.
  induction m as [|[k' v] m IH]; intros Hnd; cbn; [tauto|].
  cbn in Hnd. apply List.NoDup_cons_iff in Hnd as [Hx Hnd].
  destruct (String.eqb_spec k k') as [-> | Hne].
  - split.
    + intros He. split; [now right|]. intros Hk. apply Hx. rewrite <- Hk.
      apply List.in_map. exact He.
    + intros [[<- | He] Hk]; [cbn in Hk; congruence | exact He].
  - cbn. rewrite IH by exact Hnd. split.
    + intros [<- | [He Hk]]; [split; [now left | cbn; congruence] | tauto].
    + intros [[<- | He] Hk]; [now left | right; tauto].
Qed.

Lemma map_delete_keys k m :
  List.NoDup (keys m) -> List.NoDup (keys (map_delete k m)).
Proof.
  induction m as [|[k' v] m IH]; intros Hnd; cbn; [constructor|].
  cbn in Hnd. apply List.NoDup_cons_iff in Hnd as [Hx Hnd].
  destruct (String.eqb_spec k k') as [-> | Hne]; [exact Hnd|].
  cbn. constructor; [|apply IH; exact Hnd].
  intros Hin. apply Hx. unfold keys in *.
  apply List.in_map_iff in Hin as (e & <- & He).
  apply map_delete_In in He as [He _]; [|exact Hnd].
  apply List.in_map. exact He.
Qed.

Lemma map_delete_length k m :
  In k (keys m) -> S (List.length (map_delete k m)) = List.length m.
Proof.
  induction m as [|[k' v] m IH]; intros Hk; [destruct Hk|].
  cbn in *. destruct (String.eqb_spec k k') as [-> | Hne]; [reflexivity|].
  cbn. f_equal. apply IH. destruct Hk as [E | Hk]; [congruence | exact Hk].
Qed.

Lemma map_set_keys k v m :
  List.NoDup (keys m) -> List.NoDup (keys (map_set k v m)).
Proof.
  induction m as [|[k' v'] m IH]; intros Hnd; cbn.
  - constructor; [intros [] | constructor].
  - cbn in Hnd. pose proof Hnd as Hnd0.
    apply List.NoDup_cons_iff in Hnd as [Hx Hnd].
    destruct (String.eqb_spec k k') as [-> | Hne]; [exact Hnd0|].
    cbn. constructor; [|apply IH; exact Hnd].
    intros Hin. apply Hx. clear -Hin Hne.
    induction m as [|[k2 v2] m IHm]; cbn in *.
    + destruct Hin as [-> | []]. congruence.
    + destruct (String.eqb_spec k k2) as [-> | Hne2]; cbn in Hin.
      * destruct Hin as [-> | Hin]; [congruence | now right].
      * destruct Hin as [-> | Hin]; [now left | right; auto].
Qed.

Lemma filter_keys (f : string * V -> bool) m :
  List.NoDup (keys m) -> List.NoDup (keys (List.filter f m)).
Proof.
  induction m as [|x m IH]; intros Hnd; cbn; [constructor|].
  cbn in Hnd. apply List.NoDup_cons_iff in Hnd as [Hx Hnd].
  destruct (f x); [|apply IH; exact Hnd].
  cbn. constructor; [|apply IH; exact Hnd].
  intros Hin. apply Hx. unfold keys in *.
  apply List.in_map_iff in Hin as (e & <- & He).
  apply List.filter_In in He as [He _]. apply List.in_map. exact He.
Qed.
End OrderedMapFacts.

Section SortFacts.
Context {T : Type} (key : T -> Z).

Lemma insert_by_perm x l : Permutation (insert_by key x l) (x :: l).
Proof.
  induction l as [|y l IH]; cbn; [reflexivity|].
  destruct (key x <=? key y); [reflexivity|].
  rewrite IH. apply perm_swap.
Qed.

Lemma sort_by_perm l : Permutation (sort_by key l) l.
Proof.
  induction l as [|x l IH]; cbn; [reflexivity|].
  rewrite insert_by_perm, IH. reflexivity.
Qed.

Lemma insert_by_sorted x l :
  StronglySorted (key_le key) l -> StronglySorted (key_le key) (insert_by key x l).
Proof.
  induction l as [|y l IH]; intros Hs; cbn.
  - constructor; constructor.
  - destruct (Z.leb_spec (key x) (key y)) as [Hle | Hgt].
    + constructor; [exact Hs|].
      apply StronglySorted_inv in Hs as [_ Hy].
      constructor; [exact Hle|].
      eapply List.Forall_impl; [|exact Hy].
      intros a Ha. unfold key_le in *. lia.
    + apply StronglySorted_inv in Hs as [Hs Hy].
      constructor; [apply IH; exact Hs|].
      apply List.Forall_forall. intros a Ha.
      apply (Permutation_in _ (insert_by_perm x l)) in Ha.
      destruct Ha as [<- | Ha].
      * unfold key_le. lia.
      * rewrite List.Forall_forall in Hy. auto.
Qed.

Lemma sort_by_sorted l : StronglySorted (key_le key) (sort_by key l).
Proof.
  induction l as [|x l IH]; cbn; [constructor|].
  apply insert_by_sorted. exact IH.
Qed.

(** In a sorted list nothing in a prefix is above anything behind it. *)
Lemma sorted_prefix_le l n a b :
  StronglySorted (key_le key) l ->
  In a (firstn n l) -> In b (skipn n l) -> key a <= key b.
Proof.
  revert n; induction l as [|x l IH]; intros n Hs Ha Hb.
  - rewrite List.firstn_nil in Ha. destruct Ha.
  - destruct n as [|n]; [destruct Ha|]. cbn in Ha, Hb.
    apply StronglySorted_inv in Hs as [Hs Hx].
    destruct Ha as [<- | Ha].
    + rewrite List.Forall_forall in Hx. apply Hx.
      rewrite <- (List.firstn_skipn n l). apply List.in_or_app. now right.
    + apply (IH n); assumption.
Qed.
End SortFacts.

End MapFacts.

Module GeneratorProps.
Import Text Js Coherent Scenario MapFacts TextFacts.

Lemma pickRandom_length {T} r (arr : list T) n :
  (n <= List.length arr)%nat -> List.length (pickRandom r arr n) = n.
Proof.
  intros Hn. unfold pickRandom, indexed.
  rewrite List.length_firstn, List.length_map.
  rewrite (Permutation_length (sort_by_perm _ _)).
  rewrite List.length_map, List.length_combine, List.length_seq. lia.
Qed.

(** The part of the generator's contract that holds for every random
    source: five required words and a target count between 15 and 25. *)
Lemma generated_shape e :
  shuffles e ->
  List.length (words (generateCoherentChallenge e)) = 5%nat
  /\ 15 <= wordCount (generateCoherentChallenge e) <= 25.
Proof.
  intros Hsh. split.
  - unfold generateCoherentChallenge; cbn [words].
    rewrite <- (Permutation_length (Hsh _)).
    rewrite !List.length_app, !pickRandom_length; [reflexivity | | | |];
      vm_compute; lia.
  - unfold generateCoherentChallenge, uint8; cbn [wordCount].
    pose proof (Z.mod_pos_bound (randomByte e mod 256) 11 ltac:(lia)). lia.
Qed.

Lemma firstn_incl {A} n (l : list A) : incl (firstn n l) l.
Proof.
  intros x Hx. rewrite <- (List.firstn_skipn n l). apply List.in_or_app. now left.
Qed.

Lemma pickRandom_incl {T} r (arr : list T) n : incl (pickRandom r arr n) arr.
Proof.
  intros x Hx. unfold pickRandom in Hx. apply firstn_incl in Hx.
  apply List.in_map_iff in Hx as ([y k] & <- & Hy).
  apply (Permutation_in _ (sort_by_perm _ _)) in Hy.
  apply List.in_map_iff in Hy as ([i z] & E & Hz). injection E as <- _.
  unfold indexed in Hz. apply List.in_combine_r in Hz. exact Hz.
Qed.

Lemma plain_literal w : plain_word w -> literal_word w.
Proof.
  intros [Hw _]. unfold literal_word.
  eapply List.Forall_impl; [|exact Hw].
  intros c. destruct c as [[] [] [] [] [] [] [] []]; vm_compute; congruence.
Qed.

Lemma pool_words_plain :
  Forall plain_word (NOUNS ++ ADJECTIVES ++ VERBS ++ TIME_WORDS)%list.
Proof.
  repeat (apply List.Forall_cons;
          [split; [repeat constructor | discriminate]|]).
  apply List.Forall_nil.
Qed.

(** Every required word of a generated challenge comes from a pool, and
    is therefore made of letters. *)
Lemma generated_words_plain e :
  shuffles e -> Forall plain_word (words (generateCoherentChallenge e)).
Proof.
  intros Hsh. apply List.Forall_forall. intros w Hw.
  unfold generateCoherentChallenge in Hw; cbn [words] in Hw.
  apply (Permutation_in _ (Permutation_sym (Hsh _))) in Hw.
  pose proof pool_words_plain as Hpool. rewrite List.Forall_forall in Hpool.
  apply Hpool.
  repeat (apply List.in_app_or in Hw as [Hw | Hw];
          [apply pickRandom_incl in Hw; auto 10 using List.in_or_app |]).
  apply pickRandom_incl in Hw. auto 10 using List.in_or_app.
Qed.

(** C2 (evaluation at the failing input): "whisper" stands in both the
    noun pool and the verb pool, so a challenge can hold it twice.  Under
    [whisper_entropy] the generator returns five words, two of them
    "whisper", with a target count in range. *)
Theorem generateCoherentChallenge_repeats_whisper :
  shuffles whisper_entropy
  /\ words (generateCoherentChallenge whisper_entropy)
     = ["whisper"; "apple"; "purple"; "whisper"; "yesterday"]
  /\ ~ List.NoDup (words (generateCoherentChallenge whisper_entropy))
  /\ In "whisper" NOUNS /\ In "whisper" VERBS.
Proof.
  split; [intros l; reflexivity|].
  assert (E : words (generateCoherentChallenge whisper_entropy)
              = ["whisper"; "apple"; "purple"; "whisper"; "yesterday"])
    by (vm_compute; reflexivity).
  split; [exact E|]. split.
  - rewrite E. intros H. apply List.NoDup_cons_iff in H as [H _].
    apply H. simpl. auto.
  - split; vm_compute; auto 20.
Qed.

End GeneratorProps.

Module TokenProps.
Import Text Token Scenario.

Lemma prefix_append (p s : string) : String.prefix p (p ++ s) = true.
Proof.
  induction p as [|a p IH]; simpl; [destruct s; reflexivity|].
  destruct (ascii_dec a a); [exact IH | congruence].
Qed.

Lemma issued_format r :
  (String.length (generateTokenString r) =? 0)%nat = false
  /\ String.prefix "rcap_" (generateTokenString r) = true.
Proof. split; [reflexivity | apply prefix_append]. Qed.

Lemma validate_absent now tok (store : TokenStore) :
  store !! tok = None ->
  (String.length tok =? 0)%nat = false ->
  String.prefix "rcap_" tok = true ->
  validateToken now (Some tok) store
  = (rejected "Token not found or already used", store).
Proof.
  intros Hnone Hlen Hpre. unfold validateToken.
  rewrite Hlen, Hpre, Hnone. reflexivity.
Qed.

Lemma redeem_all_absent tok times (store : TokenStore) :
  store !! tok = None ->
  (String.length tok =? 0)%nat = false ->
  String.prefix "rcap_" tok = true ->
  redeem_all tok times store
  = (List.map (fun _ => rejected "Token not found or already used") times, store).
Proof.
  intros Hnone Hlen Hpre. induction times as [|t times IH]; [reflexivity|].
  cbn [redeem_all]. rewrite validate_absent by assumption. rewrite IH. reflexivity.
Qed.

(** C3: redemption is exactly-once.  A token issued by [createToken] and
    redeemed no later than its expiry is accepted by the first
    [validateToken] call, which returns the bound challenge and deletes the
    token; every later call on the same string, at whatever time, answers
    "Token not found or already used" and leaves the store as it is. *)
Theorem validateToken_exactly_once (now0 : Z) (randomBytes : nat -> Z)
    (config : Config) (ch : string) (ip : option string)
    (store : TokenStore) (now1 : Z) (later : list Z) :
  let issued := fst (createToken now0 randomBytes config ch ip store) in
  let store1 := snd (createToken now0 randomBytes config ch ip store) in
  now1 <= expiresAt issued ->
  let first := validateToken now1 (Some (token issued)) store1 in
  fst first = {| valid := true; v_challengeId := Some ch;
                 v_expiresAt := Some (now0 + tokenExpiryMs config);
                 error := None |}
  /\ snd first = delete (token issued) store1
  /\ snd first !! token issued = None
  /\ redeem_all (token issued) later (snd first)
     = (List.map (fun _ => rejected "Token not found or already used") later,
        snd first).
Proof.
  intros issued store1 Hlive first.
  destruct (issued_format randomBytes) as [Hlen Hpre].
  assert (Hfirst : first =
            ({| valid := true; v_challengeId := Some ch;
                v_expiresAt := Some (now0 + tokenExpiryMs config);
                error := None |}, delete (token issued) store1)).
  { subst first store1 issued. unfold validateToken, createToken in *.
    cbn [fst snd token expiresAt challengeId] in *.
    rewrite Hlen, Hpre. cbn [negb]. rewrite lookup_insert_eq.
    cbn [expiresAt challengeId].
    replace (now1 >? now0 + tokenExpiryMs config) with false
      by (symmetry; rewrite Z.gtb_ltb; apply Z.ltb_ge; exact Hlive).
    reflexivity. }
  rewrite Hfirst. cbn [fst snd].
  assert (Hgone : delete (token issued) store1 !! token issued = None)
    by apply lookup_delete_eq.
  repeat split; try assumption.
  apply redeem_all_absent; assumption.
Qed.

Lemma validateToken_exactly_once_witness :
  fst (validateToken 2000
         (Some (token (fst (createToken 1000 (fun _ => 0) test_config "ch_A"
                              (Some "203.0.113.7") ∅))))
         (snd (createToken 1000 (fun _ => 0) test_config "ch_A"
                 (Some "203.0.113.7") ∅)))
  = {| valid := true; v_challengeId := Some "ch_A";
       v_expiresAt := Some 61000; error := None |}.
Proof.
  refine (proj1 (validateToken_exactly_once 1000 (fun _ => 0) test_config
            "ch_A" (Some "203.0.113.7") ∅ 2000 [3000; 70000] _)).
  simpl. lia.
Defined.

End TokenProps.

(** ** Double arithmetic *)

Module DoubleFacts.
Import Double.

Lemma fexp_eq x : fexp 53 1024 x = fexp64 x.
Proof. reflexivity. Qed.

Lemma digits_bounds m : 2 ^ (digits m - 1) <= Zpos m < 2 ^ digits m.
Proof.
  unfold digits. induction m as [m IH | m IH |]; cbn [digits2_pos].
  - rewrite Pos2Z.inj_succ.
    replace (Z.succ (Zpos (digits2_pos m)) - 1) with (Z.succ (Zpos (digits2_pos m) - 1)) by lia.
    rewrite !Z.pow_succ_r by lia. lia.
  - rewrite Pos2Z.inj_succ.
    replace (Z.succ (Zpos (digits2_pos m)) - 1) with (Z.succ (Zpos (digits2_pos m) - 1)) by lia.
    rewrite !Z.pow_succ_r by lia. lia.
  - cbn. lia.
Qed.

Lemma digits_pos m : 1 <= digits m.
Proof. unfold digits. lia. Qed.

Lemma digits_unique m k : 2 ^ (k - 1) <= Zpos m < 2 ^ k -> digits m = k.
Proof.
  intros [Hlo Hhi]. pose proof (digits_bounds m) as [Dlo Dhi].
  pose proof (digits_pos m) as Hd.
  destruct (Z.lt_trichotomy (digits m) k) as [H | [H | H]]; [|exact H|].
  - pose proof (Z.pow_le_mono_r 2 (digits m) (k - 1) ltac:(lia) ltac:(lia)). lia.
  - pose proof (Z.pow_le_mono_r 2 k (digits m - 1) ltac:(lia) ltac:(lia)). lia.
Qed.

Lemma digits_le m k : Zpos m < 2 ^ k -> digits m <= k.
Proof.
  intros Hhi. pose proof (digits_bounds m) as [Dlo _].
  destruct (Z_lt_le_dec k (digits m)) as [H|H]; [|exact H].
  pose proof (Z.pow_le_mono_r 2 k (digits m - 1) ltac:(lia) ltac:(lia)). lia.
Qed.

Lemma digits_ge m k : 2 ^ (k - 1) <= Zpos m -> k <= digits m.
Proof.
  intros Hlo. pose proof (digits_bounds m) as [_ Dhi].
  destruct (Z_lt_le_dec (digits m) k) as [H|H]; [|exact H].
  pose proof (Z.pow_le_mono_r 2 (digits m) (k - 1) ltac:(lia) ltac:(lia)). lia.
Qed.

Lemma pow2_pos k : 0 <= k -> 0 < 2 ^ k.
Proof. intros H. apply Z.pow_pos_nonneg; lia. Qed.

Lemma iter_xO m n : Zpos (Pos.iter xO m n) = Zpos m * 2 ^ Zpos n.
Proof.
  induction n as [|n IH] using Pos.peano_ind.
  - cbn [Pos.iter]. rewrite Pos2Z.inj_xO. lia.
  - rewrite Pos.iter_succ, Pos2Z.inj_xO, IH, Pos2Z.inj_succ, Z.pow_succ_r by lia. lia.
Qed.

Lemma iter_pos_eq {A} (f : A -> A) n :
  forall x, SpecFloat.iter_pos f n x = Pos.iter f x n.
Proof.
  induction n as [n IH | n IH |]; intros x; cbn [SpecFloat.iter_pos Pos.iter].
  - rewrite !IH, !Pos.iter_swap. reflexivity.
  - rewrite !IH. reflexivity.
  - reflexivity.
Qed.

Lemma shr_1_m r : 0 <= shr_m r -> shr_m (shr_1 r) = shr_m r / 2.
Proof.
  destruct r as [m rb sb]. cbn [shr_m]. intros Hm.
  destruct m as [| p | p]; [reflexivity | | lia].
  destruct p as [p | p |]; cbn [shr_1 shr_m].
  - apply Z.div_unique with (r := 1); lia.
  - apply Z.div_unique with (r := 0); lia.
  - reflexivity.
Qed.

Lemma shr_m_iter n : forall r, 0 <= shr_m r ->
  shr_m (Pos.iter shr_1 r n) = shr_m r / 2 ^ Zpos n.
Proof.
  induction n as [|n IH] using Pos.peano_ind; intros r Hr.
  - cbn [Pos.iter]. rewrite shr_1_m by exact Hr. reflexivity.
  - rewrite Pos.iter_succ, shr_1_m, IH by (try rewrite IH by exact Hr;
      try apply Z.div_pos; try apply pow2_pos; lia).
    rewrite Z.div_div by (try apply pow2_pos; lia).
    rewrite Pos2Z.inj_succ, Z.pow_succ_r by lia. f_equal. lia.
Qed.

Lemma shr_1_exact q :
  0 <= q -> shr_1 (Build_shr_record (2 * q) false false) = Build_shr_record q false false.
Proof. intros Hq. destruct q as [|p|p]; [reflexivity | reflexivity | lia]. Qed.

Lemma shr_iter_exact n : forall q, 0 <= q ->
  Pos.iter shr_1 (Build_shr_record (q * 2 ^ Zpos n) false false) n
  = Build_shr_record q false false.
Proof.
  induction n as [|n IH] using Pos.peano_ind; intros q Hq.
  - cbn [Pos.iter]. replace (q * 2 ^ 1) with (2 * q) by lia. apply shr_1_exact, Hq.
  - rewrite Pos.iter_succ, Pos2Z.inj_succ, Z.pow_succ_r by lia.
    replace (q * (2 * 2 ^ Zpos n)) with ((2 * q) * 2 ^ Zpos n) by lia.
    rewrite IH by lia. apply shr_1_exact, Hq.
Qed.


Lemma fexp_mono x y : x <= y -> fexp64 x <= fexp64 y.
Proof. unfold fexp64. lia. Qed.

Lemma fexp_ge x : -1074 <= fexp64 x.
Proof. unfold fexp64. lia. Qed.

Lemma digits_mono (p q : positive) : Zpos p <= Zpos q -> digits p <= digits q.
Proof.
  intros H. apply digits_ge. pose proof (digits_bounds p). lia.
Qed.

Lemma digits_div (m : positive) n : 0 <= n < digits m ->
  exists q : positive, Zpos m / 2 ^ n = Zpos q /\ digits q = digits m - n.
Proof.
  intros Hn. pose proof (digits_bounds m) as [Dlo Dhi].
  pose proof (pow2_pos n ltac:(lia)) as Hp.
  assert (Hlo : 2 ^ (digits m - n - 1) <= Zpos m / 2 ^ n).
  { apply Z.div_le_lower_bound; [exact Hp|].
    rewrite <- Z.pow_add_r by lia.
    replace (n + (digits m - n - 1)) with (digits m - 1) by lia. exact Dlo. }
  assert (Hhi : Zpos m / 2 ^ n < 2 ^ (digits m - n)).
  { apply Z.div_lt_upper_bound; [exact Hp|].
    rewrite <- Z.pow_add_r by lia.
    replace (n + (digits m - n)) with (digits m) by lia. exact Dhi. }
  pose proof (pow2_pos (digits m - n - 1) ltac:(lia)) as Hq.
  destruct (Zpos m / 2 ^ n) as [|q|q] eqn:E; [lia | | lia].
  exists q. split; [reflexivity|]. apply digits_unique. lia.
Qed.

Lemma record_of_loc_m m l : shr_m (shr_record_of_loc m l) = m.
Proof. destruct l as [|[]]; reflexivity. Qed.

Lemma loc_of_record_of_loc m l : loc_of_shr_record (shr_record_of_loc m l) = l.
Proof. destruct l as [|[]]; reflexivity. Qed.

Lemma rne_cases m l :
  round_nearest_even m l = m \/ round_nearest_even m l = m + 1.
Proof.
  destruct l as [|[]]; cbn [round_nearest_even]; auto.
  destruct (Z.even m); auto.
Qed.

(** The first step of rounding: the mantissa is shifted right up to the
    exponent of its binade. *)
Lemma shr_fexp_spec m e l :
  0 <= m ->
  exists r,
    shr_fexp 53 1024 m e l = (r, Z.max e (fexp64 (Zdigits2 m + e)))
    /\ shr_m r = m / 2 ^ (Z.max e (fexp64 (Zdigits2 m + e)) - e)
    /\ (fexp64 (Zdigits2 m + e) <= e -> r = shr_record_of_loc m l).
Proof.
  intros Hm. unfold shr_fexp, shr. rewrite fexp_eq.
  set (f := fexp64 (Zdigits2 m + e)).
  destruct (f - e) as [|n|n] eqn:En.
  - replace (Z.max e f) with e by lia. eexists. split; [reflexivity|].
    split; [|reflexivity].
    rewrite record_of_loc_m, Z.sub_diag, Z.pow_0_r, Z.div_1_r. reflexivity.
  - replace (Z.max e f) with (e + Zpos n) by lia.
    eexists. split; [reflexivity|]. split; [|lia].
    rewrite iter_pos_eq, shr_m_iter by (rewrite record_of_loc_m; exact Hm).
    rewrite record_of_loc_m. f_equal. f_equal. lia.
  - replace (Z.max e f) with e by lia. eexists. split; [reflexivity|].
    split; [|reflexivity].
    rewrite record_of_loc_m, Z.sub_diag, Z.pow_0_r, Z.div_1_r. reflexivity.
Qed.

Lemma shr_fexp_pos (m : positive) e l :
  -1074 < digits m + e ->
  exists r (q : positive),
    shr_fexp 53 1024 (Zpos m) e l = (r, Z.max e (fexp64 (digits m + e)))
    /\ shr_m r = Zpos q
    /\ digits q + Z.max e (fexp64 (digits m + e)) = digits m + e
    /\ Zpos q = Zpos m / 2 ^ (Z.max e (fexp64 (digits m + e)) - e)
    /\ (fexp64 (digits m + e) <= e -> r = shr_record_of_loc (Zpos m) l).
Proof.
  intros HX.
  destruct (shr_fexp_spec (Zpos m) e l ltac:(lia)) as (r & Hr & Hm & Hloc).
  change (Zdigits2 (Zpos m)) with (digits m) in *.
  set (e' := Z.max e (fexp64 (digits m + e))) in *.
  destruct (digits_div m (e' - e)) as (q & Hq & Hd).
  { pose proof (digits_pos m). unfold e', fexp64. lia. }
  exists r, q. split; [exact Hr|]. split; [congruence|].
  split; [lia|]. split; [congruence | exact Hloc].
Qed.

Lemma canonical_iff m e :
  canonical_mantissa 53 1024 m e = true <-> fexp64 (digits m + e) = e.
Proof. unfold canonical_mantissa. rewrite fexp_eq. apply Z.eqb_eq. Qed.

(** Rounding a positive mantissa that is not below the least subnormal
    gives a positive number (or overflows). *)
Lemma aux_positive s (mx : positive) ex l :
  -1074 < digits mx + ex ->
  (exists m e,
     binary_round_aux 53 1024 s (Zpos mx) ex l = S754_finite s m e
     /\ e <= 971 /\ -1074 < digits m + e
     /\ (ex <= fexp64 (digits mx + ex) -> fexp64 (digits m + e) = e))
  \/ (binary_round_aux 53 1024 s (Zpos mx) ex l = S754_infinity s
      /\ 971 < Z.max ex (fexp64 (digits mx + ex + 1))).
Proof.
  intros HX. unfold binary_round_aux.
  destruct (shr_fexp_pos mx ex l HX) as (r1 & q1 & -> & Hm1 & Hd1 & _ & _).
  set (e1 := Z.max ex (fexp64 (digits mx + ex))) in *.
  assert (Hq : exists q : positive,
             round_nearest_even (shr_m r1) (loc_of_shr_record r1) = Zpos q
             /\ Zpos q1 <= Zpos q <= Zpos q1 + 1).
  { destruct (rne_cases (shr_m r1) (loc_of_shr_record r1)) as [-> | ->];
      rewrite Hm1.
    - exists q1. split; [reflexivity | lia].
    - exists (q1 + 1)%positive. split; [reflexivity | lia]. }
  destruct Hq as (q & -> & Hle & Hle').
  pose proof (digits_mono q1 q Hle) as Hdq.
  assert (Hdq' : digits q <= digits q1 + 1).
  { apply digits_le. pose proof (digits_bounds q1) as [_ Hb].
    rewrite Z.pow_add_r, Z.pow_1_r by (pose proof (digits_pos q1); lia). lia. }
  destruct (shr_fexp_pos q e1 loc_Exact ltac:(lia)) as (r2 & q2 & -> & -> & Hd2 & _ & _).
  replace (51 + Z.pos 920) with 971 by reflexivity.
  change (Z.sub 1024 53) with 971.
  destruct (Z.leb_spec (Z.max e1 (fexp64 (digits q + e1))) 971) as [Hle2 | Hgt2].
  - left. eexists _, _. split; [reflexivity|]. split; [exact Hle2|].
    split; [lia|]. intros Hal. rewrite Hd2.
    assert (E1 : e1 = fexp64 (digits mx + ex)) by (unfold e1; lia).
    pose proof (fexp_mono (digits mx + ex) (digits q + e1) ltac:(lia)). lia.
  - right. split; [reflexivity|]. unfold e1, fexp64 in *. lia.
Qed.

(** Rounding from an exponent that is not above the one of the binade
    gives a number in canonical form. *)
Lemma aux_valid s mx ex l :
  0 <= mx -> ex <= fexp64 (Zdigits2 mx + ex) ->
  match binary_round_aux 53 1024 s mx ex l with
  | S754_finite s' m e => s' = s /\ fexp64 (digits m + e) = e /\ e <= 971
  | S754_zero s' => s' = s
  | S754_infinity s' => s' = s /\ 971 < fexp64 (Zdigits2 mx + ex + 1)
  | S754_nan => False
  end.
Proof.
  intros Hmx Hal.
  destruct (Z_lt_le_dec (-1074) (Zdigits2 mx + ex)) as [HX | HX].
  - destruct mx as [|mx|mx]; [|clear Hmx|lia].
    { cbn [Zdigits2] in *. unfold fexp64 in Hal. lia. }
    change (Zdigits2 (Zpos mx)) with (digits mx) in *.
    destruct (aux_positive s mx ex l HX) as [(m & e & -> & He & _ & Hc) | [-> Hinf]];
      auto.
    split; [reflexivity|]. pose proof (fexp_mono (digits mx + ex) (digits mx + ex + 1)). lia.
  - unfold binary_round_aux.
    destruct (shr_fexp_spec mx ex l Hmx) as (r1 & -> & Hm1 & _).
    set (e1 := Z.max ex (fexp64 (Zdigits2 mx + ex))) in *.
    assert (E1 : e1 = -1074) by (unfold e1, fexp64 in *; lia).
    assert (H1 : shr_m r1 = 0).
    { rewrite Hm1. destruct mx as [|mx|mx]; [reflexivity| |lia].
      apply Z.div_small. change (Zdigits2 (Zpos mx)) with (digits mx) in HX.
      pose proof (digits_bounds mx) as [_ Hb]. pose proof (digits_pos mx).
      pose proof (Z.pow_le_mono_r 2 (digits mx) (e1 - ex) ltac:(lia) ltac:(lia)).
      lia. }
    rewrite H1.
    destruct (rne_cases 0 (loc_of_shr_record r1)) as [E | E]; rewrite E; clear E.
    + destruct (shr_fexp_spec 0 e1 loc_Exact ltac:(lia)) as (r2 & -> & Hm2 & _).
      rewrite Hm2, Z.div_0_l by (apply Z.pow_nonzero; unfold fexp64; cbn; lia).
      reflexivity.
    + rewrite E1. cbv. repeat split; congruence.
Qed.


Lemma digits_shift (m m' : positive) n :
  0 <= n -> Zpos m' = Zpos m * 2 ^ n -> digits m' = digits m + n.
Proof.
  intros Hn E. apply digits_unique. rewrite E.
  pose proof (digits_bounds m) as [Dlo Dhi]. pose proof (digits_pos m).
  pose proof (pow2_pos n Hn).
  replace (digits m + n - 1) with ((digits m - 1) + n) by lia.
  rewrite !Z.pow_add_r by lia. nia.
Qed.

Lemma shl_align_spec mx ex ex' :
  exists m',
    shl_align mx ex ex' = (m', Z.min ex ex')
    /\ Zpos m' = Zpos mx * 2 ^ (ex - Z.min ex ex')
    /\ digits m' + Z.min ex ex' = digits mx + ex.
Proof.
  unfold shl_align. destruct (ex' - ex) as [|d|d] eqn:Ed.
  - exists mx. replace (Z.min ex ex') with ex by lia.
    rewrite Z.sub_diag, Z.pow_0_r. split; [reflexivity|]. split; lia.
  - exists mx. replace (Z.min ex ex') with ex by lia.
    rewrite Z.sub_diag, Z.pow_0_r. split; [reflexivity|]. split; lia.
  - exists (Pos.iter xO mx d). replace (Z.min ex ex') with ex' by lia.
    assert (E : Zpos (Pos.iter xO mx d) = Zpos mx * 2 ^ (ex - ex')).
    { rewrite iter_xO. f_equal. f_equal. lia. }
    split; [reflexivity|]. split; [exact E|].
    rewrite (digits_shift mx _ (ex - ex') ltac:(lia) E). lia.
Qed.

(** [binary_round] always returns a number in canonical form. *)
Lemma binary_round_valid s mx ex :
  match binary_round 53 1024 s mx ex with
  | S754_finite s' m e => s' = s /\ fexp64 (digits m + e) = e /\ e <= 971
  | S754_zero s' => s' = s
  | S754_infinity s' => s' = s /\ 971 < fexp64 (digits mx + ex + 1)
  | S754_nan => False
  end.
Proof.
  unfold binary_round. rewrite fexp_eq.
  change (Zpos (digits2_pos mx)) with (digits mx).
  destruct (shl_align_spec mx ex (fexp64 (digits mx + ex))) as (mz & -> & Hm & Hd).
  pose proof (aux_valid s (Zpos mz) (Z.min ex (fexp64 (digits mx + ex))) loc_Exact
                ltac:(lia)) as H.
  change (Zdigits2 (Zpos mz)) with (digits mz) in H. rewrite Hd in H.
  apply H. lia.
Qed.

Lemma binary_round_positive s mx ex :
  -1074 < digits mx + ex ->
  (exists m e, binary_round 53 1024 s mx ex = S754_finite s m e
               /\ fexp64 (digits m + e) = e /\ e <= 971)
  \/ (binary_round 53 1024 s mx ex = S754_infinity s
      /\ 971 < fexp64 (digits mx + ex + 1)).
Proof.
  intros HX. unfold binary_round. rewrite fexp_eq.
  change (Zpos (digits2_pos mx)) with (digits mx).
  destruct (shl_align_spec mx ex (fexp64 (digits mx + ex))) as (mz & -> & Hm & Hd).
  destruct (aux_positive s mz (Z.min ex (fexp64 (digits mx + ex))) loc_Exact
              ltac:(lia)) as [(m & e & -> & He & _ & Hc) | [-> Hinf]].
  - left. exists m, e. split; [reflexivity|]. split; [|exact He].
    apply Hc. rewrite Hd. lia.
  - right. split; [reflexivity|]. rewrite Hd in Hinf.
    pose proof (fexp_mono (digits mx + ex) (digits mx + ex + 1)). lia.
Qed.

(** A mantissa in canonical form is left as it is. *)
Lemma aux_canonical s m e :
  fexp64 (digits m + e) = e -> e <= 971 ->
  binary_round_aux 53 1024 s (Zpos m) e loc_Exact = S754_finite s m e.
Proof.
  intros Hc He. unfold binary_round_aux.
  destruct (shr_fexp_spec (Zpos m) e loc_Exact ltac:(lia)) as (r1 & -> & _ & Hr1).
  change (Zdigits2 (Zpos m)) with (digits m) in *. rewrite Hc in *.
  rewrite Hr1 by lia. cbn [shr_record_of_loc shr_m loc_of_shr_record round_nearest_even].
  destruct (shr_fexp_spec (Zpos m) (Z.max e e) loc_Exact ltac:(lia)) as (r2 & -> & _ & Hr2).
  change (Zdigits2 (Zpos m)) with (digits m) in *.
  rewrite Z.max_id in *. rewrite Hc in *. rewrite Hr2 by lia.
  cbn [shr_record_of_loc shr_m]. rewrite Z.max_id.
  change (Z.sub 1024 53) with 971.
  destruct (Z.leb_spec e 971); [reflexivity | lia].
Qed.

(** Rounding is exact on what a double can hold: a mantissa and exponent
    that denote the value of a canonical pair round to that pair. *)
Lemma binary_round_exact s (M : positive) E (m : positive) e c :
  fexp64 (digits m + e) = e -> e <= 971 -> c <= E -> c <= e ->
  Zpos M * 2 ^ (E - c) = Zpos m * 2 ^ (e - c) ->
  binary_round 53 1024 s M E = S754_finite s m e.
Proof.
  intros Hc He HcE Hce Hval.
  assert (Hcases : (e <= E /\ Zpos m = Zpos M * 2 ^ (E - e))
                   \/ (E < e /\ Zpos M = Zpos m * 2 ^ (e - E))).
  { destruct (Z_le_gt_dec e E) as [H | H]; [left | right]; (split; [lia|]).
    - replace (E - c) with ((E - e) + (e - c)) in Hval by lia.
      rewrite Z.pow_add_r, Z.mul_assoc in Hval by lia.
      apply Z.mul_reg_r in Hval; [lia|]. pose proof (pow2_pos (e - c)); lia.
    - replace (e - c) with ((e - E) + (E - c)) in Hval by lia.
      rewrite Z.pow_add_r, Z.mul_assoc in Hval by lia.
      apply Z.mul_reg_r in Hval; [lia|]. pose proof (pow2_pos (E - c)); lia. }
  assert (HX : digits M + E = digits m + e).
  { destruct Hcases as [[H Hm] | [H Hm]].
    - rewrite (digits_shift M m (E - e) ltac:(lia) Hm). lia.
    - rewrite (digits_shift m M (e - E) ltac:(lia) Hm). lia. }
  unfold binary_round. rewrite fexp_eq.
  change (Zpos (digits2_pos M)) with (digits M). rewrite HX, Hc.
  destruct (shl_align_spec M E e) as (mz & -> & Hmz & _).
  destruct Hcases as [[H Hm] | [H Hm]].
  - replace (Z.min E e) with e in * by lia.
    assert (mz = m) as -> by lia. apply aux_canonical; assumption.
  - replace (Z.min E e) with E in * by lia.
    rewrite Z.sub_diag, Z.pow_0_r, Z.mul_1_r in Hmz.
    assert (mz = M) as -> by lia.
    unfold binary_round_aux, shr_fexp, shr.
    change (Zdigits2 (Zpos M)) with (digits M). rewrite fexp_eq, HX, Hc.
    destruct (e - E) as [|n|n] eqn:En; [lia | | lia].
    cbn [shr_record_of_loc]. rewrite iter_pos_eq, Hm, shr_iter_exact by lia.
    cbn [shr_m loc_of_shr_record round_nearest_even].
    change (Zdigits2 (Zpos m)) with (digits m).
    replace (E + Zpos n) with e by lia. rewrite fexp_eq, Hc, Z.sub_diag.
    cbn [shr_record_of_loc shr_m]. change (Z.sub 1024 53) with 971.
    destruct (Z.leb_spec e 971); [reflexivity | lia].
Qed.

(** Every value of at most 53 digits above the subnormal exponent has a
    canonical form. *)
Lemma canonical_exists (M : positive) E :
  digits M <= 53 -> -1074 <= E ->
  exists m : positive,
    Zpos m = Zpos M * 2 ^ (E - fexp64 (digits M + E))
    /\ fexp64 (digits m + fexp64 (digits M + E)) = fexp64 (digits M + E)
    /\ fexp64 (digits M + E) <= E.
Proof.
  intros Hd HE. set (e := fexp64 (digits M + E)).
  assert (He : e <= E) by (unfold e, fexp64; lia).
  pose proof (pow2_pos (E - e) ltac:(lia)) as Hp.
  destruct (Zpos M * 2 ^ (E - e)) as [|m|m] eqn:Em; [lia | | lia].
  exists m. split; [reflexivity|]. split; [|exact He].
  rewrite (digits_shift M m (E - e) ltac:(lia) (eq_sym Em)).
  replace (digits M + (E - e) + e) with (digits M + E) by lia. reflexivity.
Qed.

Lemma canonical_digits m e : fexp64 (digits m + e) = e ->
  -1074 <= e /\ digits m <= 53 /\ (-1074 < e -> digits m = 53).
Proof. unfold fexp64. lia. Qed.

(** Two positive numbers in canonical form compare as their values. *)
Lemma compare_canonical m1 e1 m2 e2 c :
  fexp64 (digits m1 + e1) = e1 -> fexp64 (digits m2 + e2) = e2 ->
  c <= e1 -> c <= e2 ->
  SFcompare (S754_finite false m1 e1) (S754_finite false m2 e2)
  = Some (Zpos m1 * 2 ^ (e1 - c) ?= Zpos m2 * 2 ^ (e2 - c)).
Proof.
  intros H1 H2 Hc1 Hc2. cbn [SFcompare]. f_equal.
  destruct (canonical_digits _ _ H1) as (Hm1 & Hd1 & Hn1).
  destruct (canonical_digits _ _ H2) as (Hm2 & Hd2 & Hn2).
  pose proof (digits_bounds m1) as [Lo1 Hi1].
  pose proof (digits_bounds m2) as [Lo2 Hi2].
  assert (Hlt : forall (a b : positive) ea eb,
             digits a <= 53 -> digits b = 53 -> ea < eb -> c <= ea ->
             Zpos a * 2 ^ (ea - c) < Zpos b * 2 ^ (eb - c)).
  { intros a b ea eb Ha Hb Hab Hca.
    pose proof (digits_bounds a) as [_ Hia]. pose proof (digits_bounds b) as [Lob _].
    rewrite Hb in Lob. change (2 ^ (53 - 1)) with 4503599627370496 in Lob.
    pose proof (Z.pow_le_mono_r 2 (digits a) 53 ltac:(lia) Ha) as Hpa.
    change (2 ^ 53) with 9007199254740992 in Hpa.
    replace (eb - c) with ((eb - ea - 1) + 1 + (ea - c)) by lia.
    rewrite !Z.pow_add_r by lia. rewrite Z.pow_1_r.
    pose proof (pow2_pos (eb - ea - 1) ltac:(lia)) as HQ.
    pose proof (pow2_pos (ea - c) ltac:(lia)) as HP.
    rewrite Z.mul_assoc. apply Z.mul_lt_mono_pos_r; [exact HP|].
    set (Q := 2 ^ (eb - ea - 1)) in *. nia. }
  destruct (Z.compare_spec e1 e2) as [E | E | E].
  - subst e2. change (Pos.compare_cont Eq m1 m2) with (Zpos m1 ?= Zpos m2).
    pose proof (pow2_pos (e1 - c) ltac:(lia)) as HP.
    destruct (Z.compare_spec (Zpos m1) (Zpos m2)) as [H | H | H]; symmetry.
    + apply Z.compare_eq_iff. congruence.
    + apply Z.compare_lt_iff, Z.mul_lt_mono_pos_r; assumption.
    + apply Z.compare_gt_iff, Z.mul_lt_mono_pos_r; assumption.
  - symmetry. apply Z.compare_lt_iff. apply Hlt; lia.
  - symmetry. apply Z.compare_gt_iff. apply Hlt; lia.
Qed.


(** *** Order *)

Lemma units_nonneg x : 0 <= units x.
Proof.
  destruct x as [| | |s m e]; cbn [units]; lia.
Qed.

Lemma units_finite_pos s m e : -1074 <= e -> 0 < units (S754_finite s m e).
Proof. intros He. cbn [units]. pose proof (pow2_pos (e + 1074)). lia. Qed.

Lemma compare_regular a b :
  regular a -> regular b -> SFcompare a b = Some (units a ?= units b).
Proof.
  destruct a as [sa| | |[] ma ea], b as [sb| | |[] mb eb]; cbn [regular];
    try tauto; intros Ha Hb; try reflexivity.
  - destruct Hb as [Hb _]. pose proof (units_finite_pos false mb eb
      ltac:(pose proof (fexp_ge (digits mb + eb)); lia)) as Hu.
    cbn [SFcompare]. f_equal. symmetry. apply Z.compare_lt_iff. exact Hu.
  - destruct Ha as [Ha _]. pose proof (units_finite_pos false ma ea
      ltac:(pose proof (fexp_ge (digits ma + ea)); lia)) as Hu.
    cbn [SFcompare]. f_equal. symmetry. apply Z.compare_gt_iff. exact Hu.
  - destruct Ha as [Ha _], Hb as [Hb _].
    rewrite (compare_canonical ma ea mb eb (-1074) Ha Hb)
      by (pose proof (fexp_ge (digits ma + ea));
          pose proof (fexp_ge (digits mb + eb)); lia).
    cbn [units]. replace (ea - -1074) with (ea + 1074) by lia.
    replace (eb - -1074) with (eb + 1074) by lia. reflexivity.
Qed.

Lemma leb_regular a b :
  regular a -> regular b -> SFleb a b = true <-> units a <= units b.
Proof.
  intros Ha Hb. unfold SFleb. rewrite (compare_regular a b Ha Hb).
  destruct (Z.compare_spec (units a) (units b)); split; intros; try lia;
    try reflexivity; discriminate.
Qed.

Lemma regular_units_inj a b :
  regular a -> regular b -> 0 < units a -> units a = units b -> a = b.
Proof.
  intros Ha Hb Hpos E.
  pose proof (compare_regular a b Ha Hb) as Hc.
  rewrite E, Z.compare_refl in Hc.
  destruct a as [sa| | |[] ma ea], b as [sb| | |[] mb eb]; cbn [regular] in *;
    try tauto; cbn [units] in *; try lia.
  cbn [SFcompare] in Hc. injection Hc as Hc.
  destruct (Z.compare_spec ea eb) as [-> | |]; try discriminate.
  apply Pcompare_Eq_eq in Hc. subst. reflexivity.
Qed.

(** *** Integers *)

Lemma of_Z_regular k :
  0 <= k <= 2 ^ 53 -> regular (of_Z k) /\ units (of_Z k) = k * 2 ^ 1074.
Proof.
  intros Hk. destruct (Z.eq_dec k (2 ^ 53)) as [-> | Hne].
  { split; [vm_compute; split; [reflexivity | discriminate] | vm_compute; reflexivity]. }
  destruct k as [|M|M]; [split; [exact I | reflexivity] | | lia].
  assert (Hd : digits M <= 53) by (apply digits_le; lia).
  destruct (canonical_exists M 0 Hd ltac:(lia)) as (m & Hm & Hc & He).
  set (e := fexp64 (digits M + 0)) in *.
  unfold of_Z, binary_normalize.
  rewrite (binary_round_exact false M 0 m e e Hc ltac:(lia) ltac:(lia) ltac:(lia))
    by (rewrite Hm, Z.sub_diag, Z.pow_0_r; lia).
  split; [split; [exact Hc | lia]|]. cbn [units]. rewrite Hm, <- Z.mul_assoc.
  rewrite <- Z.pow_add_r by (pose proof (fexp_ge (digits M + 0)); fold e in H; lia).
  f_equal. f_equal. lia.
Qed.


Lemma one_eq : one = S754_finite false 4503599627370496 (-52).
Proof. reflexivity. Qed.

Lemma thousand_eq : thousand = S754_finite false 8796093022208000 (-43).
Proof. reflexivity. Qed.

Lemma pow2_split a b : 0 <= a -> 0 <= b -> 2 ^ (a + b) = 2 ^ a * 2 ^ b.
Proof. intros. apply Z.pow_add_r; assumption. Qed.

(** *** Taking one token *)

Lemma regular_range m e :
  regular (S754_finite false m e) ->
  2 ^ 1074 <= units (S754_finite false m e) <= 2 ^ 53 * 2 ^ 1074 ->
  -52 <= e <= 1 /\ (e = 1 -> m = 4503599627370496%positive).
Proof.
  intros [Hc He] [Hlo Hhi]. cbn [units] in *.
  destruct (canonical_digits m e Hc) as (Hm & Hd & Hn).
  pose proof (digits_bounds m) as [Dlo Dhi].
  pose proof (Z.pow_le_mono_r 2 (digits m) 53 ltac:(lia) Hd) as Hp.
  assert (H1 : -52 <= e).
  { destruct (Z_lt_le_dec e (-52)) as [H|H]; [exfalso | exact H].
    pose proof (Z.pow_le_mono_r 2 (e + 1074) 1021 ltac:(lia) ltac:(lia)) as Hq.
    pose proof (pow2_pos (e + 1074) ltac:(lia)) as Hpp.
    replace 1074 with (53 + 1021) in Hlo at 1 by lia.
    rewrite pow2_split in Hlo by lia. nia. }
  assert (Hm52 : 2 ^ 52 <= Zpos m).
  { rewrite (Hn ltac:(lia)) in Dlo. exact Dlo. }
  assert (H2 : e <= 1 /\ (e = 1 -> Zpos m = 2 ^ 52)).
  { destruct (Z_lt_le_dec 1 e) as [H|H].
    - exfalso.
      pose proof (Z.pow_le_mono_r 2 (2 + 1074) (e + 1074) ltac:(lia) ltac:(lia)) as Hq.
      rewrite (pow2_split 2 1074) in Hq by lia.
      change (2 ^ 53) with (2 * 2 ^ 52) in Hhi.
      pose proof (pow2_pos 1074 ltac:(lia)). change (2 ^ 2) with 4 in Hq. nia.
    - split; [exact H|]. intros ->.
      rewrite (pow2_split 1 1074) in Hhi by lia.
      change (2 ^ 53) with (2 * 2 ^ 52) in Hhi. change (2 ^ 1) with 2 in Hhi.
      pose proof (pow2_pos 1074 ltac:(lia)). nia. }
  split; [lia|]. intros E. destruct H2 as [_ H2]. specialize (H2 E).
  change (2 ^ 52) with (Zpos 4503599627370496) in H2. congruence.
Qed.

Lemma sub_one x :
  regular x -> 2 ^ 1074 <= units x <= 2 ^ 53 * 2 ^ 1074 ->
  regular (sub x one) /\ units (sub x one) = units x - 2 ^ 1074.
Proof.
  intros Hx Hu.
  destruct x as [sx| | |[] m e]; cbn [regular] in Hx; try tauto.
  { cbn [units] in Hu. pose proof (pow2_pos 1074 ltac:(lia)). lia. }
  destruct (regular_range m e Hx Hu) as ([Hlo Hhi] & Htop).
  destruct Hx as [Hc He].
  destruct (Z.eq_dec e 1) as [-> | Hne].
  { rewrite (Htop eq_refl). split.
    - vm_compute. split; [reflexivity | discriminate].
    - vm_compute. reflexivity. }
  assert (He0 : e <= 0) by lia. clear Hhi Htop Hne.
  destruct (canonical_digits m e Hc) as (_ & Hd & Hn).
  pose proof (digits_bounds m) as [Dlo Dhi]. rewrite (Hn ltac:(lia)) in Dlo, Dhi.
  rewrite one_eq. unfold sub, SFsub, binary_normalize.
  replace (Z.min e (-52)) with (-52) by lia.
  destruct (shl_align_spec m e (-52)) as (ma & -> & Hma & _).
  destruct (shl_align_spec 4503599627370496 (-52) (-52)) as (mb & -> & Hmb & _).
  replace (Z.min e (-52)) with (-52) in * by lia.
  cbn [fst cond_Zopp]. rewrite Hma, Hmb. clear ma mb Hma Hmb.
  change (Z.min (-52) (-52)) with (-52). change (-52 - -52) with 0.
  rewrite Z.pow_0_r, Z.mul_1_r. replace (e - -52) with (e + 52) by lia.
  change (Zpos 4503599627370496) with (2 ^ 52).
  (* the difference is [q] at exponent [e] *)
  set (q := Zpos m - 2 ^ (- e)).
  assert (Hq : Zpos m * 2 ^ (e + 52) - 2 ^ 52 = q * 2 ^ (e + 52)).
  { unfold q. rewrite Z.mul_sub_distr_r, <- pow2_split by lia.
    replace (- e + (e + 52)) with 52 by lia. reflexivity. }
  assert (Hqlo : 0 <= q).
  { unfold q. pose proof (Z.pow_le_mono_r 2 (- e) 52 ltac:(lia) ltac:(lia)).
    change (2 ^ (53 - 1)) with (2 ^ 52) in Dlo. lia. }
  assert (Hunits : units (S754_finite false m e) - 2 ^ 1074 = q * 2 ^ (e + 1074)).
  { cbn [units]. unfold q. rewrite Z.mul_sub_distr_r, <- pow2_split by lia.
    replace (- e + (e + 1074)) with 1074 by lia. reflexivity. }
  rewrite Hq, Hunits.
  pose proof (pow2_pos (e + 52) ltac:(lia)) as Hp.
  destruct q as [|Q|Q] eqn:EQ; [| |lia].
  { cbn. split; [exact I | reflexivity]. }
  assert (HdQ : digits Q <= 53).
  { apply digits_le. pose proof (pow2_pos (- e) ltac:(lia)).
    change (2 ^ 53) with 9007199254740992 in *. lia. }
  destruct (canonical_exists Q e HdQ ltac:(lia)) as (m' & Hm' & Hc' & He').
  set (e' := fexp64 (digits Q + e)) in *.
  pose proof (fexp_ge (digits Q + e)) as Hge. fold e' in Hge.
  destruct (Zpos Q * 2 ^ (e + 52)) as [|P|P] eqn:EP; [lia | | lia].
  rewrite (binary_round_exact false P (-52) m' e' (-1074) Hc' ltac:(lia)
             ltac:(lia) ltac:(lia)).
  - split; [split; [exact Hc' | lia]|]. cbn [units].
    rewrite Hm', <- Z.mul_assoc, <- pow2_split by lia.
    f_equal. f_equal. lia.
  - rewrite <- EP, Hm', <- !Z.mul_assoc, <- !pow2_split by lia.
    f_equal. f_equal. lia.
Qed.


(** *** Sums, products and quotients of numbers that are not negative *)

Lemma nonneg_of_round m e :
  match binary_round 53 1024 false m e with
  | S754_nan => False
  | x => nonneg x
  end.
Proof.
  pose proof (binary_round_valid false m e) as H.
  destruct (binary_round 53 1024 false m e) as [s| s | |s m' e'].
  - left. exact I.
  - destruct H as [-> _]. right. reflexivity.
  - exact H.
  - destruct H as (-> & Hc & He). left. split; assumption.
Qed.

Lemma add_nonneg a b : regular a -> nonneg b -> nonneg (add a b).
Proof.
  intros Ha [Hb | ->].
  - destruct a as [sa| | |[] ma ea], b as [sb| | |[] mb eb]; cbn [regular] in *;
      try tauto; unfold add; cbn [SFadd].
    + left. destruct sa, sb; exact I.
    + left. exact Hb.
    + left. exact Ha.
    + destruct (shl_align_spec ma ea (Z.min ea eb)) as (xa & -> & _ & _).
      destruct (shl_align_spec mb eb (Z.min ea eb)) as (xb & -> & _ & _).
      cbn [fst cond_Zopp]. change (Zpos xa + Zpos xb) with (Zpos (xa + xb)).
      cbn [binary_normalize].
      pose proof (nonneg_of_round (xa + xb) (Z.min ea eb)) as H.
      destruct (binary_round 53 1024 false (xa + xb) (Z.min ea eb)); tauto.
  - right. destruct a as [sa| | |[] ma ea]; cbn [regular] in Ha; try tauto;
      reflexivity.
Qed.

Lemma nonneg_of_aux mx ex l :
  0 <= mx -> ex <= fexp64 (Zdigits2 mx + ex) ->
  nonneg (binary_round_aux 53 1024 false mx ex l).
Proof.
  intros Hm Hal. pose proof (aux_valid false mx ex l Hm Hal) as H.
  destruct (binary_round_aux 53 1024 false mx ex l) as [s| s | |s m' e'].
  - left. exact I.
  - destruct H as [-> _]. right. reflexivity.
  - destruct H.
  - destruct H as (-> & Hc & He). left. split; assumption.
Qed.

Lemma digits_mul ma mb : digits ma + digits mb - 1 <= digits (ma * mb).
Proof.
  apply digits_ge. rewrite Pos2Z.inj_mul.
  pose proof (digits_bounds ma) as [La _]. pose proof (digits_bounds mb) as [Lb _].
  pose proof (digits_pos ma). pose proof (digits_pos mb).
  replace (digits ma + digits mb - 1 - 1) with ((digits ma - 1) + (digits mb - 1)) by lia.
  rewrite pow2_split by lia.
  pose proof (pow2_pos (digits ma - 1) ltac:(lia)).
  pose proof (pow2_pos (digits mb - 1) ltac:(lia)). nia.
Qed.

Lemma mul_nonneg a b : regular a -> regular b -> nonneg (mul a b).
Proof.
  intros Ha Hb.
  destruct a as [sa| | |[] ma ea], b as [sb| | |[] mb eb]; cbn [regular] in *;
    try tauto; unfold mul; cbn [SFmul xorb].
  - left. exact I.
  - left. exact I.
  - left. exact I.
  - destruct Ha as [Ha _], Hb as [Hb _].
    apply nonneg_of_aux; [lia|].
    change (Zdigits2 (Zpos (ma * mb))) with (digits (ma * mb)).
    destruct (canonical_digits _ _ Ha) as (Hea & Hda & Hna).
    destruct (canonical_digits _ _ Hb) as (Heb & Hdb & Hnb).
    pose proof (digits_mul ma mb) as Hd.
    pose proof (digits_pos ma). pose proof (digits_pos mb).
    unfold fexp64 in *. lia.
Qed.

(** The quotient of two finite numbers in canonical form is rounded from
    an exponent that is not above the one of its binade. *)
Lemma div_core_aligned m1 e1 m2 e2 :
  fexp64 (digits m1 + e1) = e1 -> fexp64 (digits m2 + e2) = e2 ->
  let '(q, e', l) := SFdiv_core_binary 53 1024 (Zpos m1) e1 (Zpos m2) e2 in
  0 <= q /\ e' <= fexp64 (Zdigits2 q + e')
  /\ e' <= e1 - e2
  /\ Zdigits2 q + e' <= digits m1 + e1 - e2
  /\ e' = Z.min (fexp64 (digits m1 + e1 - (digits m2 + e2))) (e1 - e2)
  /\ q = Zpos m1 * 2 ^ (e1 - e2 - e') / Zpos m2.
Proof.
  intros H1 H2. unfold SFdiv_core_binary.
  change (Zdigits2 (Zpos m1)) with (digits m1).
  change (Zdigits2 (Zpos m2)) with (digits m2). rewrite fexp_eq.
  set (Y := digits m1 + e1 - (digits m2 + e2)).
  set (e' := Z.min (fexp64 Y) (e1 - e2)).
  set (s := e1 - e2 - e').
  assert (Hs : 0 <= s) by (unfold s, e'; lia).
  set (m' := match s with Zpos _ => Z.shiftl (Zpos m1) s | 0 => Zpos m1 | Zneg _ => 0 end).
  assert (Hm' : m' = Zpos m1 * 2 ^ s).
  { unfold m'. destruct s as [|p|p] eqn:Es; [|apply Z.shiftl_mul_pow2|]; lia. }
  pose proof (Z_div_mod m' (Zpos m2) ltac:(lia)) as Hdiv.
  assert (Hquot : fst (Z.div_eucl m' (Zpos m2)) = Zpos m1 * 2 ^ s / Zpos m2).
  { rewrite <- Hm'. unfold Z.div. destruct (Z.div_eucl m' (Zpos m2)); reflexivity. }
  destruct (Z.div_eucl m' (Zpos m2)) as [q r]. destruct Hdiv as [Hq Hr].
  cbn [fst] in Hquot.
  destruct (canonical_digits _ _ H1) as (He1 & Hd1 & Hn1).
  destruct (canonical_digits _ _ H2) as (He2 & Hd2 & Hn2).
  pose proof (digits_bounds m1) as [L1 U1]. pose proof (digits_bounds m2) as [L2 U2].
  pose proof (digits_pos m1). pose proof (digits_pos m2).
  pose proof (pow2_pos s Hs) as Hps.
  assert (Hq0 : 0 <= q) by nia.
  split; [exact Hq0|]. split; [|split; [unfold e'; lia|]].
  2: split; [|split; [reflexivity | exact Hquot]].
  - clear Hquot. destruct q as [|Q|Q]; [| |lia].
    + (* the quotient is zero: it lies below the subnormal range *)
      cbn [Zdigits2]. rewrite Z.add_0_l.
      destruct (Z_lt_le_dec (-1074) (Y - 53)) as [HY | HY].
      * exfalso. assert (Es : s = 53 - digits m1 + digits m2)
          by (unfold s, e', fexp64, Y; lia).
        assert (Hbig : Zpos m2 <= Zpos m1 * 2 ^ s).
        { rewrite Es.
          replace (53 - digits m1 + digits m2) with ((53 - digits m1) + digits m2) by lia.
          rewrite pow2_split, Z.mul_assoc by lia.
          pose proof (pow2_pos (53 - digits m1) ltac:(lia)).
          assert (1 <= Zpos m1 * 2 ^ (53 - digits m1)) by nia.
          pose proof (pow2_pos (digits m2) ltac:(lia)).
          transitivity (1 * 2 ^ digits m2); [lia|].
          apply Z.mul_le_mono_nonneg_r; lia. }
        lia.
      * unfold e', fexp64. lia.
    + change (Zdigits2 (Zpos Q)) with (digits Q).
      assert (HdQ : digits m1 + s - digits m2 <= digits Q).
      { destruct (Z_le_gt_dec (digits m1 + s - digits m2) 0) as [Hk | Hk];
          [pose proof (digits_pos Q); lia|].
        apply digits_ge.
        set (k := digits m1 + s - digits m2) in *.
        assert (Hlow : Zpos m2 * 2 ^ (k - 1) <= Zpos m1 * 2 ^ s).
        { assert (E : 2 ^ (digits m1 - 1) * 2 ^ s = 2 ^ (k - 1) * 2 ^ digits m2).
          { rewrite <- !pow2_split by lia. f_equal. unfold k. lia. }
          pose proof (pow2_pos (k - 1) ltac:(lia)). nia. }
        pose proof (pow2_pos (k - 1) ltac:(lia)).
        destruct (Z_lt_le_dec (Zpos Q) (2 ^ (k - 1))) as [Hlt | Hge]; [|exact Hge].
        exfalso.
        assert (Zpos m2 * Zpos Q <= Zpos m2 * (2 ^ (k - 1) - 1))
          by (apply Z.mul_le_mono_nonneg_l; lia).
        lia. }
      pose proof (fexp_mono Y (digits Q + e') ltac:(unfold Y, s in *; lia)).
      assert (e' <= fexp64 Y) by (unfold e'; lia). lia.
  - clear Hquot.
    destruct q as [|Q|Q]; [cbn [Zdigits2]; unfold e'; lia | | lia].
    change (Zdigits2 (Zpos Q)) with (digits Q).
    assert (digits Q <= digits m1 + s).
    { apply digits_le. rewrite pow2_split by lia.
      assert (Zpos Q * 1 <= Zpos Q * Zpos m2)
        by (apply Z.mul_le_mono_nonneg_l; lia).
      assert (Zpos m1 * 2 ^ s < 2 ^ digits m1 * 2 ^ s)
        by (apply Z.mul_lt_mono_pos_r; lia).
      lia. }
    unfold s in *. lia.
Qed.

Lemma div_nonneg a b :
  regular a -> regular b -> b <> S754_zero false -> b <> S754_zero true ->
  nonneg (div a b).
Proof.
  intros Ha Hb Hz1 Hz2.
  destruct a as [sa| | |[] ma ea], b as [[]| | |[] mb eb]; cbn [regular] in *;
    try tauto; try congruence; unfold div; cbn [SFdiv xorb].
  - left. exact I.
  - destruct Ha as [Ha _], Hb as [Hb _].
    pose proof (div_core_aligned ma ea mb eb Ha Hb) as H.
    destruct (SFdiv_core_binary 53 1024 (Zpos ma) ea (Zpos mb) eb) as [[q e'] l].
    destruct H as (Hq & Hal & _). apply nonneg_of_aux; assumption.
Qed.


Lemma regular_top m e :
  regular (S754_finite false m e) ->
  units (S754_finite false m e) <= 2 ^ 53 * 2 ^ 1074 ->
  digits m + e <= 54.
Proof.
  intros [Hc _] Hu. cbn [units] in Hu.
  destruct (canonical_digits m e Hc) as (He & _ & _).
  pose proof (digits_bounds m) as [Lo _]. pose proof (digits_pos m).
  pose proof (pow2_pos (e + 1074) ltac:(lia)) as Hp.
  assert (H1 : 2 ^ (digits m - 1 + (e + 1074)) <= 2 ^ (53 + 1074)).
  { rewrite !pow2_split by lia.
    transitivity (Zpos m * 2 ^ (e + 1074)); [|exact Hu].
    apply Z.mul_le_mono_nonneg_r; lia. }
  apply Z.pow_le_mono_r_iff in H1; lia.
Qed.

(** Milliseconds to seconds: a bounded number divided by 1000 stays
    finite. *)
Lemma div_thousand a :
  regular a -> units a <= 2 ^ 53 * 2 ^ 1074 -> regular (div a thousand).
Proof.
  intros Ha Hu. rewrite thousand_eq.
  destruct a as [sa| | |[] ma ea]; cbn [regular] in Ha; try tauto.
  pose proof (regular_top ma ea Ha Hu) as Htop. destruct Ha as [Ha _].
  unfold div. cbn [SFdiv xorb].
  pose proof (div_core_aligned ma ea 8796093022208000 (-43) Ha eq_refl) as H.
  destruct (SFdiv_core_binary 53 1024 (Zpos ma) ea (Zpos 8796093022208000) (-43))
    as [[q e'] l].
  destruct H as (Hq & Hal & _ & Hd & _).
  pose proof (aux_valid false q e' l Hq Hal) as H.
  destruct (binary_round_aux 53 1024 false q e' l) as [s| s | |s m' e''].
  - exact I.
  - destruct H as [_ H]. unfold fexp64 in H. lia.
  - destruct H.
  - destruct H as (-> & Hc & He). split; assumption.
Qed.

(** *** The smaller of two numbers *)

Lemma min_regular a b :
  regular a -> nonneg b ->
  regular (min a b) /\ units (min a b) <= units a
  /\ (min a b = a \/ min a b = b).
Proof.
  intros Ha [Hb | ->].
  - unfold min. rewrite (compare_regular a b Ha Hb).
    destruct (Z.compare_spec (units a) (units b)) as [E | E | E].
    + destruct b as [[]| | |sb mb eb]; auto using Z.le_refl.
      split; [exact I|]. split; [|auto]. cbn [units]. apply units_nonneg.
    + auto using Z.le_refl.
    + split; [exact Hb|]. split; [lia | auto].
  - unfold min.
    destruct a as [sa| | |[] ma ea]; cbn [regular] in Ha; try tauto;
      cbn [SFcompare]; auto using Z.le_refl.
Qed.

(** A valid double between zero and a finite bound is a finite double
    that is not negative. *)
Lemma regular_of_bounds x hi :
  valid_binary 53 1024 x = true -> regular hi ->
  SFleb zero x = true -> SFleb x hi = true -> regular x.
Proof.
  intros Hv Hhi Hlo Hle.
  destruct x as [sx| [] | |[] m e]; try exact I; try discriminate.
  - destruct hi as [sh| | |[] mh eh]; cbn [regular] in Hhi; try tauto; discriminate.
  - cbn [valid_binary] in Hv. unfold bounded in Hv.
    apply andb_true_iff in Hv as [Hc He].
    apply canonical_iff in Hc. apply Z.leb_le in He. split; [exact Hc | exact He].
Qed.

Lemma valid_of_regular x : regular x -> valid_binary 53 1024 x = true.
Proof.
  destruct x as [sx| | |[] m e]; cbn [regular]; try tauto; try reflexivity.
  intros [Hc He]. cbn [valid_binary]. unfold bounded.
  apply andb_true_iff. split; [apply canonical_iff, Hc | apply Z.leb_le, He].
Qed.

Lemma zero_le_regular x : regular x -> SFleb zero x = true.
Proof.
  intros Hx. apply (leb_regular zero x I Hx). apply units_nonneg.
Qed.

(** *** What a number is worth *)

Lemma value_units x :
  regular x -> (value x == inject_Z (units x) / inject_Z (2 ^ 1074))%Q.
Proof.
  destruct x as [sx| | |[] m e]; cbn [regular]; try tauto;
    try (intros _; reflexivity).
  intros [Hc _]. destruct (canonical_digits m e Hc) as (He & _ & _).
  cbn [value units cond_Zopp].
  rewrite inject_Z_mult, (Zpower_Qpower 2 (e + 1074)) by lia.
  rewrite (Zpower_Qpower 2 1074) by lia.
  rewrite Qpower_plus by discriminate.
  change (inject_Z 2) with 2%Q.
  field.
Qed.


(** *** The waiting time reported on a denial *)

Lemma strictly_positive_gt x : strictly_positive x -> gtb x zero = true.
Proof. destruct x as [|[]| |[] m e]; cbn; tauto. Qed.

Lemma of_Z_positive c : 1 <= c -> strictly_positive (of_Z c).
Proof.
  intros Hc. destruct c as [|p|p]; try lia. unfold of_Z, binary_normalize.
  destruct (binary_round_positive false p 0 ltac:(pose proof (digits_pos p); lia))
    as [(m & e & -> & _) | [-> _]]; exact I.
Qed.

Lemma ceil_positive x : strictly_positive x -> strictly_positive (ceil x).
Proof.
  destruct x as [|[]| |[] m e]; cbn [strictly_positive]; try tauto. intros _.
  unfold ceil. destruct (0 <=? e) eqn:He; [exact I|]. apply Z.leb_gt in He.
  cbn [cond_Zopp].
  pose proof (pow2_pos (- e) ltac:(lia)) as Hp.
  pose proof (Z.div_lt_upper_bound (- Zpos m) (2 ^ (- e)) 0 Hp ltac:(lia)) as Hd.
  destruct (Z.eqb_spec (- (- Zpos m / 2 ^ (- e))) 0) as [E | _]; [lia|].
  apply of_Z_positive. lia.
Qed.

Lemma reciprocal_positive r :
  regular r -> strictly_positive r -> strictly_positive (div one r).
Proof.
  intros Hr Hp. rewrite one_eq.
  destruct r as [|[]| |[] m2 e2]; cbn [strictly_positive regular] in *; try tauto.
  destruct Hr as [Hc He]. unfold div. cbn [SFdiv xorb].
  pose proof (div_core_aligned 4503599627370496 (-52) m2 e2 eq_refl Hc) as H.
  destruct (SFdiv_core_binary 53 1024 (Zpos 4503599627370496) (-52) (Zpos m2) e2)
    as [[q e'] l].
  destruct H as (_ & _ & _ & _ & He' & Hq).
  change (digits 4503599627370496) with 53 in He'.
  destruct (canonical_digits m2 e2 Hc) as (Hlo & Hd & _).
  pose proof (digits_bounds m2) as [_ Hm2]. pose proof (digits_pos m2) as Hd1.
  assert (Hs : digits m2 <= -52 - e2 - e' \/ 51 <= -52 - e2 - e')
    by (unfold fexp64 in He'; lia).
  assert (Hge : -1074 <= e') by (unfold fexp64 in He'; lia).
  assert (Hq1 : 1 <= q).
  { rewrite Hq. apply Z.div_le_lower_bound; [lia|]. rewrite Z.mul_1_r.
    change (Zpos 4503599627370496) with (2 ^ 52). rewrite <- pow2_split by lia.
    destruct Hs as [Hs | Hs].
    - pose proof (Z.pow_le_mono_r 2 (digits m2) (52 + (-52 - e2 - e'))
                    ltac:(lia) ltac:(lia)). lia.
    - pose proof (Z.pow_le_mono_r 2 (digits m2) 53 ltac:(lia) Hd).
      pose proof (Z.pow_le_mono_r 2 53 (52 + (-52 - e2 - e')) ltac:(lia) ltac:(lia)).
      lia. }
  destruct q as [|Q|Q]; try lia.
  destruct (aux_positive false Q e' l ltac:(pose proof (digits_pos Q); lia))
    as [(m & e & -> & _) | [-> _]]; exact I.
Qed.

Lemma times_thousand_positive x :
  valid_binary 53 1024 x = true -> strictly_positive x ->
  strictly_positive (mul x thousand).
Proof.
  intros Hv Hp. rewrite thousand_eq.
  destruct x as [|[]| |[] m e]; cbn [strictly_positive] in *; try tauto;
    try exact I.
  cbn [valid_binary] in Hv. unfold bounded in Hv.
  apply andb_true_iff in Hv as [Hc _]. apply canonical_iff in Hc.
  destruct (canonical_digits m e Hc) as (Hlo & _ & _).
  unfold mul. cbn [SFmul xorb].
  pose proof (digits_mul m 8796093022208000) as Hd.
  change (digits 8796093022208000) with 53 in Hd. pose proof (digits_pos m).
  destruct (aux_positive false (m * 8796093022208000) (e + -43) loc_Exact ltac:(lia))
    as [(m' & e' & -> & _) | [-> _]]; exact I.
Qed.

Lemma valid_div a b :
  regular a -> regular b -> strictly_positive b ->
  valid_binary 53 1024 (div a b) = true.
Proof.
  intros Ha Hb Hp.
  assert (H : nonneg (div a b)).
  { apply div_nonneg; try assumption; intros ->; destruct Hp. }
  destruct H as [H | ->]; [apply valid_of_regular, H | reflexivity].
Qed.

(** The waiting time computed on a denial for an empty bucket is
    positive. *)
Lemma retry_positive r :
  regular r -> strictly_positive r ->
  gtb (ceil (mul (div (sub one zero) r) thousand)) zero = true.
Proof.
  intros Hr Hp. change (sub one zero) with one.
  apply strictly_positive_gt, ceil_positive, times_thousand_positive.
  - apply valid_div; [split; [reflexivity | discriminate] | exact Hr | exact Hp].
  - apply reciprocal_positive; assumption.
Qed.

End DoubleFacts.

(** ** The rate limiter *)

Module RateProps.
Import RateLimit RateSpec Scenario DoubleFacts.

Lemma checkRateLimit_present getNow refillNow (store : BucketStore) ip config b :
  store !! ip = Some b ->
  checkRateLimit getNow refillNow store ip config =
  if Double.geb (refilled config refillNow b) Double.one then
    ({| allowed := true; retryAfterMs := None |},
     <[ip := {| tokens := Double.sub (refilled config refillNow b) Double.one;
                lastRefill := refillNow |}]> store)
  else
    ({| allowed := false;
        retryAfterMs := Some (retry_after config (refilled config refillNow b)) |},
     <[ip := {| tokens := refilled config refillNow b;
                lastRefill := refillNow |}]> store).
Proof.
  intros Hb. unfold checkRateLimit, getBucket. rewrite Hb.
  unfold refillBucket, refilled, retry_after; cbn [tokens lastRefill].
  change (Double.of_Z 1) with Double.one.
  change (Double.of_Z 1000) with Double.thousand.
  destruct (Double.geb _ Double.one); reflexivity.
Qed.

Lemma checkRateLimit_absent getNow refillNow (store : BucketStore) ip config :
  store !! ip = None ->
  checkRateLimit getNow refillNow store ip config =
  checkRateLimit getNow refillNow
    (<[ip := {| tokens := maxTokens config; lastRefill := getNow |}]> store)
    ip config.
Proof.
  intros Hb. unfold checkRateLimit, getBucket.
  rewrite Hb, lookup_insert_eq. reflexivity.
Qed.

(** What the bounds mean for the numbers: a finite count in canonical
    form, worth at most the capacity. *)
Lemma within_bounds_regular config b :
  Double.regular (maxTokens config) -> within_bounds config b ->
  Double.regular (tokens b)
  /\ Double.units (tokens b) <= Double.units (maxTokens config).
Proof.
  intros Hmax (Hv & Hlo & Hhi).
  assert (Hr : Double.regular (tokens b))
    by (apply (regular_of_bounds _ (maxTokens config)); assumption).
  split; [exact Hr|]. apply (leb_regular _ _ Hr Hmax). exact Hhi.
Qed.

Lemma regular_within_bounds config t l :
  Double.regular (maxTokens config) -> Double.regular t ->
  Double.units t <= Double.units (maxTokens config) ->
  within_bounds config {| tokens := t; lastRefill := l |}.
Proof.
  intros Hmax Ht Hu. split; [apply valid_of_regular, Ht|].
  split; [apply zero_le_regular, Ht|].
  apply (leb_regular _ _ Ht Hmax). exact Hu.
Qed.

Lemma countable_units x :
  countable x -> Double.regular x /\ Double.units x <= 2 ^ 53 * 2 ^ 1074.
Proof.
  intros [Hr Hle]. split; [exact Hr|].
  destruct (of_Z_regular (2 ^ 53) ltac:(lia)) as [Hr53 Hu53].
  rewrite <- Hu53. apply (leb_regular _ _ Hr Hr53). exact Hle.
Qed.

(** The refilled count is a finite count of at most the capacity, whatever
    the bucket held. *)
Lemma refilled_capped config now b :
  Double.regular (maxTokens config) -> Double.regular (refillRate config) ->
  Double.regular (tokens b) -> 0 <= now - lastRefill b <= 2 ^ 53 ->
  Double.regular (refilled config now b)
  /\ Double.units (refilled config now b) <= Double.units (maxTokens config).
Proof.
  intros Hmax Hrate Hr Ht. unfold refilled.
  destruct (of_Z_regular (now - lastRefill b) Ht) as [He Hu].
  assert (Hs : Double.regular
                 (Double.div (Double.of_Z (now - lastRefill b)) Double.thousand)).
  { apply div_thousand; [exact He|]. rewrite Hu.
    apply Z.mul_le_mono_nonneg_r; [apply Z.pow_nonneg|]; lia. }
  pose proof (mul_nonneg _ _ Hs Hrate) as Hadd.
  pose proof (add_nonneg _ _ Hr Hadd) as Hsum.
  destruct (min_regular _ _ Hmax Hsum) as (H1 & H2 & _). split; assumption.
Qed.

Lemma refilled_regular config now b :
  Double.regular (maxTokens config) -> Double.regular (refillRate config) ->
  within_bounds config b -> 0 <= now - lastRefill b <= 2 ^ 53 ->
  Double.regular (refilled config now b)
  /\ Double.units (refilled config now b) <= Double.units (maxTokens config).
Proof.
  intros Hmax Hrate Hb Ht.
  destruct (within_bounds_regular config b Hmax Hb) as [Hr _].
  apply refilled_capped; assumption.
Qed.

Lemma units_one : Double.units Double.one = 2 ^ 1074.
Proof. vm_compute. reflexivity. Qed.

Lemma insert_within_bounds config since now (store : BucketStore) ip b :
  store_within_bounds config since store -> since <= now ->
  within_bounds config b -> 0 <= lastRefill b <= now ->
  store_within_bounds config now (<[ip := b]> store).
Proof.
  intros Hstore Ht Hb Hl ip' b' Hlook.
  destruct (decide (ip = ip')) as [<- | Hne].
  - rewrite lookup_insert_eq in Hlook. injection Hlook as <-. auto.
  - rewrite lookup_insert_ne in Hlook by exact Hne.
    destruct (Hstore ip' b' Hlook) as [Hw Hl']. split; [exact Hw | lia].
Qed.

(** One call keeps the count of its bucket within bounds, and an allowed
    call takes exactly one token. *)
Lemma taken_within_bounds config now b :
  countable (maxTokens config) -> Double.regular (refillRate config) ->
  within_bounds config b -> 0 <= now - lastRefill b <= 2 ^ 53 ->
  Double.geb (refilled config now b) Double.one = true ->
  within_bounds config
    {| tokens := Double.sub (refilled config now b) Double.one; lastRefill := now |}
  /\ (Double.value (Double.sub (refilled config now b) Double.one)
      == Double.value (refilled config now b) - 1)%Q.
Proof.
  intros Hcap Hrate Hb Ht Hq.
  destruct (countable_units _ Hcap) as [Hmax Hu53].
  destruct (refilled_regular config now b Hmax Hrate Hb Ht) as [Hr Hu].
  assert (H1 : 2 ^ 1074 <= Double.units (refilled config now b)).
  { rewrite <- units_one.
    apply (leb_regular Double.one _ ltac:(split; [reflexivity | discriminate]) Hr).
    exact Hq. }
  destruct (sub_one (refilled config now b) Hr ltac:(lia)) as [Hr' Hu'].
  split.
  - apply regular_within_bounds; [exact Hmax | exact Hr' |].
    pose proof (Z.pow_pos_nonneg 2 1074 ltac:(lia) ltac:(lia)). lia.
  - rewrite (value_units _ Hr'), (value_units _ Hr), Hu'.
    unfold Z.sub. rewrite inject_Z_plus, inject_Z_opp. field.
    discriminate.
Qed.

Lemma present_within_bounds config since getNow refillNow (store : BucketStore) ip b :
  countable (maxTokens config) -> Double.regular (refillRate config) ->
  store_within_bounds config since store ->
  since <= refillNow -> refillNow < 2 ^ 53 ->
  store !! ip = Some b ->
  store_within_bounds config refillNow
    (snd (checkRateLimit getNow refillNow store ip config)).
Proof.
  intros Hcap Hrate Hstore Ht Hclock Hb.
  rewrite (checkRateLimit_present _ _ _ _ _ _ Hb).
  destruct (Hstore ip b Hb) as [Hw Hl].
  assert (Hel : 0 <= refillNow - lastRefill b <= 2 ^ 53) by lia.
  destruct (Double.geb (refilled config refillNow b) Double.one) eqn:Hq; cbn [snd].
  - apply (insert_within_bounds config since); auto; [|cbn; lia].
    apply (taken_within_bounds config refillNow b); assumption.
  - apply (insert_within_bounds config since); auto; [|cbn; lia].
    destruct (countable_units _ Hcap) as [Hmax _].
    destruct (refilled_regular config refillNow b Hmax Hrate Hw Hel) as [Hr Hu].
    apply regular_within_bounds; assumption.
Qed.

Lemma step_within_bounds config since c (store : BucketStore) :
  countable (maxTokens config) -> Double.regular (refillRate config) ->
  store_within_bounds config since store ->
  0 <= since -> since <= getNow c -> getNow c <= refillNow c -> refillNow c < 2 ^ 53 ->
  store_within_bounds config (refillNow c)
    (snd (checkRateLimit (getNow c) (refillNow c) store (ip c) config)).
Proof.
  intros Hcap Hrate Hstore H0 Hg Hr Hclock.
  destruct (store !! ip c) as [b|] eqn:Hb.
  - apply (present_within_bounds config since) with (b := b); auto. lia.
  - rewrite checkRateLimit_absent by exact Hb.
    eapply (present_within_bounds config (getNow c)); auto.
    + apply (insert_within_bounds config since); auto; [|cbn; lia].
      destruct (countable_units _ Hcap) as [Hmax _].
      apply regular_within_bounds; [exact Hmax | exact Hmax | lia].
    + apply lookup_insert_eq.
Qed.

Lemma run_within_bounds config calls : forall since (store : BucketStore),
  countable (maxTokens config) -> Double.regular (refillRate config) ->
  store_within_bounds config since store -> 0 <= since ->
  non_decreasing since calls ->
  exists till, store_within_bounds config till (snd (run config calls store)).
Proof.
  induction calls as [|c calls IH]; intros since store Hcap Hrate Hstore H0 Hord.
  - exists since. exact Hstore.
  - destruct Hord as (Hg & Hr & Hclock & Hord). cbn [run].
    pose proof (step_within_bounds config since c store Hcap Hrate Hstore H0 Hg Hr Hclock)
      as Hstep.
    destruct (checkRateLimit _ _ store (ip c) config) as [r store1].
    cbn [snd] in Hstep.
    destruct (IH _ _ Hcap Hrate Hstep ltac:(lia) Hord) as [till Htill].
    destruct (run config calls store1) as [rs store2]. exists till. exact Htill.
Qed.


(** C9: the token count of every bucket stays within bounds.  The counts
    are doubles, as in the program.  For a capacity from 0 to 2^53, a
    finite refill rate that is not negative and clock readings that never
    go back, after any run of [checkRateLimit] calls every bucket of the
    store holds a count that is not negative and not above [maxTokens].
    In each call the bucket is first refilled to
    [min(maxTokens, tokens + elapsed / 1000 * refillRate)]; the request is
    allowed exactly when that is at least 1, and then one token is taken,
    which lowers the count by exactly 1; a denied request takes none; no
    other bucket changes. *)
Theorem token_count_within_bounds (config : RateLimitConfig) (since : Z)
    (calls : list Call) (store : BucketStore) :
  countable (maxTokens config) -> Double.regular (refillRate config) ->
  store_within_bounds config since store -> 0 <= since ->
  non_decreasing since calls ->
  (forall ip b, snd (run config calls store) !! ip = Some b ->
                Double.geb (tokens b) Double.zero = true
                /\ Double.geb (maxTokens config) (tokens b) = true)
  /\ (forall getNow refillNow ip,
        let b := bucket_of config getNow store ip in
        let outcome := checkRateLimit getNow refillNow store ip config in
        snd outcome !! ip
        = Some {| tokens := if allowed (fst outcome)
                            then Double.sub (refilled config refillNow b) Double.one
                            else refilled config refillNow b;
                  lastRefill := refillNow |}
        /\ allowed (fst outcome)
           = Double.geb (refilled config refillNow b) Double.one
        /\ (since <= getNow -> getNow <= refillNow -> refillNow < 2 ^ 53 ->
            allowed (fst outcome) = true ->
            (Double.value (Double.sub (refilled config refillNow b) Double.one)
             == Double.value (refilled config refillNow b) - 1)%Q)
        /\ (forall other, other <> ip -> snd outcome !! other = store !! other)).
Proof.
  intros Hcap Hrate Hstore H0 Hord. split.
  - intros ip b Hb.
    destruct (run_within_bounds config calls since store Hcap Hrate Hstore H0 Hord)
      as [till Htill].
    destruct (Htill ip b Hb) as [(_ & Hlo & Hhi) _]. split; assumption.
  - intros getNow refillNow ip b outcome. subst b outcome.
    assert (Hexact : forall b,
               within_bounds config b -> 0 <= refillNow - lastRefill b <= 2 ^ 53 ->
               Double.geb (refilled config refillNow b) Double.one = true ->
               (Double.value (Double.sub (refilled config refillNow b) Double.one)
                == Double.value (refilled config refillNow b) - 1)%Q).
    { intros b Hw Hel Hq.
      apply (taken_within_bounds config refillNow b Hcap Hrate Hw Hel Hq). }
    unfold bucket_of.
    destruct (store !! ip) as [b|] eqn:Hb; cbn [default from_option id].
    + rewrite (checkRateLimit_present _ _ _ _ _ _ Hb).
      destruct (Hstore ip b Hb) as [Hw Hl].
      destruct (Double.geb (refilled config refillNow b) Double.one) eqn:Hq;
        cbn [fst snd allowed].
      * split; [apply lookup_insert_eq|]. split; [reflexivity|]. split.
        -- intros Hg Hr Hclock _. apply Hexact; [exact Hw | lia | exact Hq].
        -- intros other Hne. apply lookup_insert_ne. congruence.
      * split; [apply lookup_insert_eq|]. split; [reflexivity|]. split.
        -- intros _ _ _ H. discriminate H.
        -- intros other Hne. apply lookup_insert_ne. congruence.
    + rewrite checkRateLimit_absent by exact Hb.
      rewrite (checkRateLimit_present _ _ _ _ _ _ (lookup_insert_eq _ _ _)).
      destruct (Double.geb (refilled config refillNow _) Double.one) eqn:Hq;
        cbn [fst snd allowed].
      * split; [apply lookup_insert_eq|]. split; [reflexivity|]. split.
        -- intros Hg Hr Hclock _. apply Hexact; [|cbn [lastRefill]; lia | exact Hq].
           destruct (countable_units _ Hcap) as [Hmax _].
           apply regular_within_bounds; [exact Hmax | exact Hmax | lia].
        -- intros other Hne. rewrite !lookup_insert_ne by congruence.
           reflexivity.
      * split; [apply lookup_insert_eq|]. split; [reflexivity|]. split.
        -- intros _ _ _ H. discriminate H.
        -- intros other Hne. rewrite !lookup_insert_ne by congruence.
           reflexivity.
Qed.

(** *** A burst at one clock reading *)

Lemma rate_finite r :
  Double.regular r -> Double.strictly_positive r ->
  Double.mul (Double.div (Double.of_Z 0) Double.thousand) r = Double.zero.
Proof.
  destruct r as [|[]| |[] m e]; cbn [Double.regular Double.strictly_positive];
    try tauto; intros _ _; reflexivity.
Qed.

Lemma of_Z_pos_finite m :
  1 <= m <= 2 ^ 53 -> exists p e, Double.of_Z m = S754_finite false p e.
Proof.
  intros Hm. destruct (of_Z_regular m ltac:(lia)) as [Hr Hu].
  pose proof (Z.pow_pos_nonneg 2 1074 ltac:(lia) ltac:(lia)) as Hp.
  destruct (Double.of_Z m) as [|[]| |[] p e]; cbn [Double.regular Double.units] in *;
    try tauto; try nia. eauto.
Qed.

Lemma refilled_same_time config now b m N :
  Double.regular (refillRate config) ->
  Double.strictly_positive (refillRate config) ->
  lastRefill b = now -> tokens b = Double.of_Z m ->
  maxTokens config = Double.of_Z N -> 0 <= m <= N -> N <= 2 ^ 53 ->
  refilled config now b = Double.of_Z m.
Proof.
  intros Hr Hp Hl Ht Hmax Hm HN. unfold refilled.
  rewrite Hl, Z.sub_diag, (rate_finite _ Hr Hp), Ht, Hmax.
  assert (Hadd : Double.add (Double.of_Z m) Double.zero = Double.of_Z m).
  { destruct (Z.eq_dec m 0) as [-> | Hne]; [reflexivity|].
    destruct (of_Z_pos_finite m ltac:(lia)) as (p & e & ->). reflexivity. }
  rewrite Hadd.
  destruct (of_Z_regular m ltac:(lia)) as [Rm Um].
  destruct (of_Z_regular N ltac:(lia)) as [RN UN].
  unfold Double.min. rewrite (compare_regular _ _ RN Rm), UN, Um.
  pose proof (Z.pow_pos_nonneg 2 1074 ltac:(lia) ltac:(lia)) as Hpow.
  destruct (Z.compare_spec (N * 2 ^ 1074) (m * 2 ^ 1074)) as [E | E | E].
  - assert (N = m) as -> by nia.
    destruct (Double.of_Z m) as [[]| | |]; reflexivity.
  - nia.
  - reflexivity.
Qed.

Lemma geb_one m :
  0 <= m <= 2 ^ 53 -> Double.geb (Double.of_Z m) Double.one = (1 <=? m).
Proof.
  intros Hm. destruct (of_Z_regular m Hm) as [Rm Um].
  pose proof (leb_regular Double.one (Double.of_Z m)
                ltac:(split; [reflexivity | discriminate]) Rm) as H.
  rewrite units_one, Um in H. unfold Double.geb.
  pose proof (Z.pow_pos_nonneg 2 1074 ltac:(lia) ltac:(lia)) as Hpow.
  destruct (Z.leb_spec 1 m) as [H1 | H1].
  - apply H. nia.
  - destruct (SFleb Double.one (Double.of_Z m)); [|reflexivity].
    assert (2 ^ 1074 <= m * 2 ^ 1074) by (apply H; reflexivity). nia.
Qed.

Lemma sub_one_of_Z m :
  1 <= m <= 2 ^ 53 ->
  Double.sub (Double.of_Z m) Double.one = Double.of_Z (m - 1).
Proof.
  intros Hm. destruct (Z.eq_dec m 1) as [-> | Hne]; [reflexivity|].
  destruct (of_Z_regular m ltac:(lia)) as [Rm Um].
  destruct (of_Z_regular (m - 1) ltac:(lia)) as [Rm' Um'].
  pose proof (Z.pow_pos_nonneg 2 1074 ltac:(lia) ltac:(lia)) as Hpow.
  destruct (sub_one (Double.of_Z m) Rm ltac:(rewrite Um; nia)) as [Rs Us].
  apply regular_units_inj; [exact Rs | exact Rm' | rewrite Us, Um; nia |].
  rewrite Us, Um, Um'. ring.
Qed.

Lemma burst_present config ip now (m : nat) : forall (store : BucketStore) b,
  Double.regular (refillRate config) ->
  Double.strictly_positive (refillRate config) ->
  (exists N, maxTokens config = Double.of_Z N /\ Z.of_nat m <= N <= 2 ^ 53) ->
  store !! ip = Some b -> lastRefill b = now ->
  tokens b = Double.of_Z (Z.of_nat m) ->
  exists b',
    snd (run config (burst ip now (S m)) store) !! ip = Some b'
    /\ tokens b' = Double.zero
    /\ fst (run config (burst ip now (S m)) store)
       = (repeat granted m
          ++ [{| allowed := false;
                 retryAfterMs := Some (retry_after config (tokens b')) |}])%list.
Proof.
  induction m as [|m IH]; intros store b Hr Hp (N & Hmax & HN) Hb Hl Ht;
    pose proof (refilled_same_time config now b _ N Hr Hp Hl Ht Hmax
                  ltac:(lia) ltac:(lia)) as Hsame.
  - unfold burst. cbn [repeat run RateLimit.ip getNow refillNow].
    rewrite (checkRateLimit_present _ _ _ _ _ _ Hb), Hsame.
    cbn [fst snd repeat app].
    eexists. split; [apply lookup_insert_eq|]. split; reflexivity.
  - change (burst ip now (S (S m)))
      with ({| RateLimit.ip := ip; getNow := now; refillNow := now |}
            :: burst ip now (S m)).
    cbn [run RateLimit.ip getNow refillNow].
    rewrite (checkRateLimit_present _ _ _ _ _ _ Hb), Hsame.
    rewrite geb_one by lia.
    destruct (Z.leb_spec 1 (Z.of_nat (S m))) as [_ | H]; [|lia].
    rewrite sub_one_of_Z by lia.
    replace (Z.of_nat (S m) - 1) with (Z.of_nat m) by lia.
    set (store1 := <[ip := _]> store).
    destruct (IH store1 {| tokens := Double.of_Z (Z.of_nat m); lastRefill := now |}
                Hr Hp)
      as (b' & Hb' & Hzero & Hres).
    + exists N. split; [exact Hmax | lia].
    + apply lookup_insert_eq.
    + reflexivity.
    + reflexivity.
    + destruct (run config (burst ip now (S m)) store1) as [rs store2].
      cbn [fst snd] in *. exists b'. split; [exact Hb'|]. split; [exact Hzero|].
      rewrite Hres. reflexivity.
Qed.

Lemma run_absent config c calls (store : BucketStore) :
  store !! ip c = None ->
  run config (c :: calls) store
  = run config (c :: calls)
      (<[ip c := {| tokens := maxTokens config; lastRefill := getNow c |}]> store).
Proof.
  intros Hb. cbn [run]. rewrite (checkRateLimit_absent _ _ _ _ _ Hb). reflexivity.
Qed.

(** C6: a fresh identity against a limiter of capacity [N] (a whole
    number up to 2^53, with a positive finite refill rate), in the double
    arithmetic of the program.  Of [N + 1] consecutive calls made at one
    and the same clock reading, the first [N] are allowed and the last is
    denied; the retry-after it reports is
    [ceil((1 - currentTokens) / refillRate * 1000)], where
    [currentTokens] (the count left in the bucket) is zero, and it is
    positive. *)
Theorem fresh_identity_admissions (config : RateLimitConfig)
    (store : BucketStore) (ip : string) (now : Z) (N : nat) :
  store !! ip = None ->
  maxTokens config = Double.of_Z (Z.of_nat N) -> Z.of_nat N <= 2 ^ 53 ->
  Double.regular (refillRate config) ->
  Double.strictly_positive (refillRate config) ->
  exists b,
    snd (run config (burst ip now (S N)) store) !! ip = Some b
    /\ tokens b = Double.zero
    /\ fst (run config (burst ip now (S N)) store)
       = (repeat {| allowed := true; retryAfterMs := None |} N
          ++ [{| allowed := false;
                 retryAfterMs :=
                   Some (Double.ceil
                           (Double.mul
                              (Double.div (Double.sub Double.one (tokens b))
                                 (refillRate config))
                              Double.thousand)) |}])%list
    /\ Double.gtb
         (Double.ceil
            (Double.mul
               (Double.div (Double.sub Double.one (tokens b)) (refillRate config))
               Double.thousand))
         Double.zero = true.
Proof.
  intros Hfresh Hcap HN Hr Hp.
  change (burst ip now (S N))
    with ({| RateLimit.ip := ip; getNow := now; refillNow := now |}
          :: burst ip now N).
  rewrite run_absent by exact Hfresh. cbn [RateLimit.ip getNow].
  destruct (burst_present config ip now N
              (<[ip := {| tokens := maxTokens config; lastRefill := now |}]> store)
              {| tokens := maxTokens config; lastRefill := now |} Hr Hp)
    as (b & Hb & Hzero & Hres).
  - exists (Z.of_nat N). split; [exact Hcap | lia].
  - apply lookup_insert_eq.
  - reflexivity.
  - exact Hcap.
  - exists b. split; [exact Hb|]. split; [exact Hzero|].
    split; [exact Hres|]. rewrite Hzero. apply retry_positive; assumption.
Qed.

Lemma fresh_identity_admissions_witness :
  exists b,
    snd (run RATE_LIMITS_challenge (burst "203.0.113.7" 1700000000000 11) ∅)
      !! "203.0.113.7" = Some b
    /\ tokens b = Double.zero
    /\ fst (run RATE_LIMITS_challenge (burst "203.0.113.7" 1700000000000 11) ∅)
       = (repeat {| allowed := true; retryAfterMs := None |} 10
          ++ [{| allowed := false;
                 retryAfterMs :=
                   Some (Double.ceil
                           (Double.mul
                              (Double.div (Double.sub Double.one (tokens b))
                                 (refillRate RATE_LIMITS_challenge))
                              Double.thousand)) |}])%list
    /\ Double.gtb
         (Double.ceil
            (Double.mul
               (Double.div (Double.sub Double.one (tokens b))
                  (refillRate RATE_LIMITS_challenge))
               Double.thousand))
         Double.zero = true.
Proof.
  apply (fresh_identity_admissions RATE_LIMITS_challenge ∅ "203.0.113.7"
           1700000000000 10).
  - reflexivity.
  - reflexivity.
  - vm_compute. discriminate.
  - vm_compute. split; [reflexivity | discriminate].
  - exact I.
Defined.


Lemma token_count_within_bounds_witness :
  Double.geb
    (tokens (bucket_of RATE_LIMITS_submit 0
               (snd (run RATE_LIMITS_submit three_calls ∅)) "203.0.113.7"))
    Double.zero = true
  /\ Double.geb (maxTokens RATE_LIMITS_submit)
       (tokens (bucket_of RATE_LIMITS_submit 0
                  (snd (run RATE_LIMITS_submit three_calls ∅)) "203.0.113.7"))
     = true.
Proof.
  refine (proj1 (token_count_within_bounds RATE_LIMITS_submit 0 three_calls ∅
                   _ _ _ _ _) "203.0.113.7" _ _).
  - split; [vm_compute; split; [reflexivity | discriminate] | reflexivity].
  - vm_compute. split; [reflexivity | discriminate].
  - intros ip b H. rewrite lookup_empty in H. discriminate.
  - lia.
  - simpl. lia.
  - vm_compute. reflexivity.
Defined.

(** The shipped challenge limiter: ten calls at time 0 empty the bucket;
    at 1 ms it holds 1/6000 and the call is denied; at 6000 ms the sum
    [1/6000 + 5.999 * (10/60)] comes out just below 1 in double
    arithmetic, so the call is denied once more, with one more
    millisecond to wait. *)
Example sum_just_below_one :
  let calls := (burst "203.0.113.7" 0 10
                ++ [ {| ip := "203.0.113.7"; getNow := 1; refillNow := 1 |};
                     {| ip := "203.0.113.7"; getNow := 6000; refillNow := 6000 |} ])%list in
  let outcome := run RATE_LIMITS_challenge calls ∅ in
  List.map allowed (fst outcome) = (repeat true 10 ++ [false; false])%list
  /\ List.map retryAfterMs (skipn 10 (fst outcome))
     = [Some (Double.of_Z 6000); Some (Double.of_Z 1)]
  /\ option_map tokens (snd outcome !! "203.0.113.7")
     = Some (S754_finite false 9007199254740991 (-53)).
Proof. vm_compute. repeat split; reflexivity. Qed.

(** One token every 49 seconds: the waiting time for a whole token is
    computed as 49001 ms, one more than 49000, because [1 / (1/49)]
    is rounded up to the next double above 49. *)
Example retry_after_rounds :
  let config := {| maxTokens := Double.of_Z 1;
                   refillRate := Double.div (Double.of_Z 1) (Double.of_Z 49);
                   refillInterval := Double.of_Z 1000 |} in
  List.map retryAfterMs (fst (run config (burst "203.0.113.7" 0 2) ∅))
  = [None; Some (Double.of_Z 49001)].
Proof. vm_compute. reflexivity. Qed.

Example retry_after_shipped :
  List.map retryAfterMs
    (skipn 10 (fst (run RATE_LIMITS_challenge (burst "203.0.113.7" 0 11) ∅)))
  = [Some (Double.of_Z 6000)].
Proof. vm_compute. reflexivity. Qed.

End RateProps.

Module SessionProps.
Import Text Js Sessions MapFacts Scenario.

Lemma evict_spec victims : forall (m : SessionStore),
  List.NoDup (keys m) -> List.NoDup (keys victims) -> incl victims m ->
  (List.length (evict victims m) + List.length victims = List.length m)%nat
  /\ List.NoDup (keys (evict victims m))
  /\ forall e, In e (evict victims m) <-> In e m /\ ~ In (fst e) (keys victims).
Proof.
  induction victims as [|v vs IH]; intros m Hm Hvs Hincl.
  - cbn. split; [lia|]. split; [exact Hm|]. intros e. tauto.
  - cbn in Hvs. apply List.NoDup_cons_iff in Hvs as [Hv Hvs].
    assert (Hvm : In v m) by (apply Hincl; now left).
    assert (Hincl' : incl vs (map_delete (fst v) m)).
    { intros e He. apply map_delete_In; [exact Hm|]. split.
      - apply Hincl. now right.
      - intros Hk. apply Hv. rewrite <- Hk. apply List.in_map. exact He. }
    destruct (IH (map_delete (fst v) m) (map_delete_keys _ _ Hm) Hvs Hincl')
      as (Hlen & Hnd & Hin).
    change (evict (v :: vs) m) with (evict vs (map_delete (fst v) m)).
    pose proof (map_delete_length (fst v) m (List.in_map fst _ _ Hvm)) as Hdel.
    split; [cbn [List.length]; lia|]. split; [exact Hnd|].
    intros e. rewrite Hin, (map_delete_In _ _ _ Hm). cbn. split.
    + intros [[He Hk] Hn]. split; [exact He|]. intros [E | H]; auto.
    + intros [He Hn]. repeat split; auto.
Qed.

Lemma firstn_keys_NoDup (m : SessionStore) n :
  List.NoDup (keys m) -> List.NoDup (keys (firstn n m)).
Proof.
  intros Hnd. unfold keys in *.
  rewrite <- (List.firstn_skipn n m), List.map_app in Hnd.
  apply List.NoDup_app_remove_r in Hnd. exact Hnd.
Qed.

Lemma cleanup_spec now (m : SessionStore) :
  List.NoDup (keys m) ->
  let unexpired := List.filter (fun e => negb (expired now e)) m in
  let m' := cleanupOldSessions now m in
  map_size m' <= MAX_SESSIONS
  /\ List.NoDup (keys m')
  /\ (forall e, In e m' -> In e unexpired)
  /\ (forall e kept, In e unexpired -> ~ In e m' -> In kept m' ->
        created e <= created kept)
  /\ (map_size unexpired <= MAX_SESSIONS -> m' = unexpired).
Proof.
  intros Hm unexpired m'. subst m'. unfold cleanupOldSessions. fold unexpired.
  assert (Hu : List.NoDup (keys unexpired)) by (apply filter_keys; exact Hm).
  destruct (Z.gtb_spec (map_size unexpired) MAX_SESSIONS) as [Hover | Hfits].
  - set (sorted := sort_by created unexpired).
    set (k := Z.to_nat (map_size unexpired - MAX_SESSIONS)).
    pose proof (sort_by_perm created unexpired) as Hperm. fold sorted in Hperm.
    assert (Hsk : List.NoDup (keys sorted)).
    { unfold keys. eapply Permutation_NoDup; [|exact Hu].
      apply Permutation_map. symmetry. exact Hperm. }
    assert (Hvictims : incl (firstn k sorted) unexpired).
    { intros e He. apply (Permutation_in _ Hperm).
      rewrite <- (List.firstn_skipn k sorted). apply List.in_or_app. now left. }
    destruct (evict_spec (firstn k sorted) unexpired Hu
                (firstn_keys_NoDup sorted k Hsk) Hvictims)
      as (Hlen & Hnd & Hin).
    assert (Hk : List.length (firstn k sorted) = k).
    { apply List.firstn_length_le.
      rewrite (Permutation_length Hperm). unfold k, map_size in *.
      unfold MAX_SESSIONS in *. lia. }
    split; [|split; [exact Hnd|split; [|split]]].
    + unfold map_size in *. unfold k, MAX_SESSIONS in *. lia.
    + intros e He. apply Hin in He. tauto.
    + intros e kept He Hgone Hkept.
      apply (sorted_prefix_le created sorted k); [apply sort_by_sorted | |].
      * destruct (in_dec string_dec (fst e) (keys (firstn k sorted))) as [Hv | Hv].
        -- unfold keys in Hv. apply List.in_map_iff in Hv as (v & Hfst & Hv).
           rewrite (key_determines unexpired e v Hu He (Hvictims v Hv)); auto.
        -- exfalso. apply Hgone. apply Hin. tauto.
      * apply Hin in Hkept as [Hkept Hnot].
        apply (Permutation_in _ (Permutation_sym Hperm)) in Hkept.
        rewrite <- (List.firstn_skipn k sorted) in Hkept.
        apply List.in_app_or in Hkept as [Hkept | Hkept]; [|exact Hkept].
        exfalso. apply Hnot. apply List.in_map. exact Hkept.
    + intros Hfits. lia.
  - split; [exact Hfits|]. split; [exact Hu|]. split; [auto|].
    split; [intros e kept He Hgone; contradiction | reflexivity].
Qed.

Lemma young_filter now (m : SessionStore) :
  List.filter (fun e => now - sessionCreatedAt (snd e) <=? SESSION_MAX_AGE_MS) m
  = List.filter (fun e => negb (expired now e)) m.
Proof.
  apply List.filter_ext. intros e. unfold expired, created.
  rewrite Z.gtb_ltb, Z.leb_antisym. reflexivity.
Qed.

(** The cleanup removes exactly the excess. *)
Lemma cleanup_size now (m : SessionStore) :
  List.NoDup (keys m) ->
  map_size (cleanupOldSessions now m)
  = Z.min (map_size (List.filter (fun e => negb (expired now e)) m)) MAX_SESSIONS.
Proof.
  intros Hm. unfold cleanupOldSessions.
  set (unexpired := List.filter (fun e => negb (expired now e)) m).
  assert (Hu : List.NoDup (keys unexpired)) by (apply filter_keys; exact Hm).
  destruct (Z.gtb_spec (map_size unexpired) MAX_SESSIONS) as [Hover | Hfits];
    [|lia].
  set (sorted := sort_by created unexpired).
  set (k := Z.to_nat (map_size unexpired - MAX_SESSIONS)).
  pose proof (sort_by_perm created unexpired) as Hperm. fold sorted in Hperm.
  assert (Hsk : List.NoDup (keys sorted)).
  { unfold keys. eapply Permutation_NoDup; [|exact Hu].
    apply Permutation_map. symmetry. exact Hperm. }
  assert (Hvictims : incl (firstn k sorted) unexpired).
  { intros e He. apply (Permutation_in _ Hperm).
    rewrite <- (List.firstn_skipn k sorted). apply List.in_or_app. now left. }
  destruct (evict_spec (firstn k sorted) unexpired Hu
              (firstn_keys_NoDup sorted k Hsk) Hvictims)
    as (Hlen & _ & _).
  assert (Hk : List.length (firstn k sorted) = k).
  { apply List.firstn_length_le.
    rewrite (Permutation_length Hperm). unfold k, map_size in *.
    unfold MAX_SESSIONS in *. lia. }
  unfold map_size in *. unfold k, MAX_SESSIONS in *. lia.
Qed.

(** C10: the session store is bounded.  [createSession] sets the new
    session and cleans up.  Of the sessions then stored, the survivors are
    those whose age at the cleanup is at most the 5-minute maximum.  The
    store after the call holds exactly the survivors if there are at most
    10,000 of them, and exactly 10,000 of them otherwise: so at most
    10,000 sessions (with pairwise distinct keys), never one past the
    maximum age, and with only the excess evicted.  What is evicted are
    the oldest: no evicted survivor was created after a session that is
    kept. *)
Theorem createSession_bounded (io : CreateInputs) (ip : string) (timeout : Z)
    (sessions : SessionStore) :
  List.NoDup (keys sessions) ->
  let created_session := fst (createSession io ip timeout sessions) in
  let stored := map_set (sessionId created_session) created_session sessions in
  let survivors :=
    List.filter
      (fun e => cleanupNow io - sessionCreatedAt (snd e) <=? SESSION_MAX_AGE_MS)
      stored in
  let after := snd (createSession io ip timeout sessions) in
  map_size after <= MAX_SESSIONS
  /\ map_size after = Z.min (map_size survivors) MAX_SESSIONS
  /\ List.NoDup (keys after)
  /\ (forall e, In e after ->
        In e stored
        /\ cleanupNow io - sessionCreatedAt (snd e) <= SESSION_MAX_AGE_MS)
  /\ (forall e, In e stored ->
        cleanupNow io - sessionCreatedAt (snd e) > SESSION_MAX_AGE_MS ->
        ~ In e after)
  /\ (forall e kept,
        In e stored ->
        cleanupNow io - sessionCreatedAt (snd e) <= SESSION_MAX_AGE_MS ->
        ~ In e after -> In kept after ->
        MAX_SESSIONS < map_size survivors
        /\ sessionCreatedAt (snd e) <= sessionCreatedAt (snd kept))
  /\ (map_size survivors <= MAX_SESSIONS -> after = survivors).
Proof.
  intros Hnd created_session stored survivors after.
  assert (Hstored : List.NoDup (keys stored)) by (apply map_set_keys; exact Hnd).
  destruct (cleanup_spec (cleanupNow io) stored Hstored)
    as (Hsize & Hkeys & Hsub & Hold & Hfit).
  pose proof (cleanup_size (cleanupNow io) stored Hstored) as Hexact.
  change (cleanupOldSessions (cleanupNow io) stored) with after in *.
  rewrite <- (young_filter (cleanupNow io) stored) in Hsub, Hold, Hfit, Hexact.
  fold survivors in Hsub, Hold, Hfit, Hexact.
  assert (Hage : forall e, In e survivors <->
            In e stored
            /\ cleanupNow io - sessionCreatedAt (snd e) <= SESSION_MAX_AGE_MS).
  { intros e. unfold survivors. rewrite List.filter_In, Z.leb_le. tauto. }
  split; [exact Hsize|]. split; [exact Hexact|]. split; [exact Hkeys|].
  split; [|split; [|split; [|exact Hfit]]].
  - intros e He. apply Hage, Hsub, He.
  - intros e He Hpast Hin. apply Hsub, Hage in Hin. lia.
  - intros e kept He Hyoung Hgone Hkept. split.
    + destruct (Z_lt_le_dec MAX_SESSIONS (map_size survivors)) as [H | H];
        [exact H|].
      exfalso. apply Hgone. unfold after in *. rewrite (Hfit H).
      apply Hage. split; assumption.
    + apply (Hold e kept); [apply Hage; split; assumption | exact Hgone | exact Hkept].
Qed.

Example crowd_is_over_limit :
  map_size
    (List.filter
       (fun e => cleanupNow first_inputs - sessionCreatedAt (snd e)
                 <=? SESSION_MAX_AGE_MS)
       (map_set (generateSessionId (sessionIdBytes first_inputs))
          (fst (createSession first_inputs "203.0.113.7" 9000 crowd)) crowd))
  = MAX_SESSIONS + 1.
Proof. vm_compute. reflexivity. Qed.

Lemma crowd_distinct : List.NoDup (keys crowd).
Proof.
  unfold keys, crowd. rewrite List.map_map. cbn [crowd_member fst].
  apply NoDup_ListNoDup, (NoDup_fmap_2 pretty), NoDup_ListNoDup, List.seq_NoDup.
Qed.

(** One more session in a full store: 10,001 survivors, of which exactly
    10,000 are left. *)
Lemma createSession_bounded_witness :
  map_size (snd (createSession first_inputs "203.0.113.7" 9000 crowd))
  = MAX_SESSIONS.
Proof.
  pose proof (createSession_bounded first_inputs "203.0.113.7" 9000 crowd
                crowd_distinct) as H.
  cbv zeta in H. destruct H as (_ & H & _). rewrite H.
  vm_compute. reflexivity.
Defined.

End SessionProps.

Module ServerProps.
Import Text Js Sessions Server ServerSpec Scenario.

Lemma map_get_set {V} k (v : V) m : map_get k (map_set k v m) = Some v.
Proof.
  induction m as [|[k' v'] m IH]; cbn.
  - rewrite String.eqb_refl. reflexivity.
  - destruct (String.eqb_spec k k') as [-> | Hne]; cbn.
    + rewrite String.eqb_refl. reflexivity.
    + destruct (String.eqb_spec k k'); [congruence | exact IH].
Qed.

(** The handler once the request has reached the session. *)
Lemma authSubmit_past_guards config w io ip key answer st session :
  let_through io ip st ->
  falsy (JsString key) = false ->
  strlen answer <= Coherent.MAX_SENTENCE_LENGTH ->
  getSession (sessions st) key = Some session ->
  status session = active ->
  authSubmit config w io ip (Fields (JsString key) (JsString answer)) st =
  let st1 := {| sessions := sessions st; tokenStore := tokenStore st;
                submitStore :=
                  snd (RateLimit.checkSubmitRateLimit (rateGetNow io)
                         (rateRefillNow io) (submitStore st) ip) |} in
  if isBlockExpired (expiryNow io) session then
    let session' := fst (advanceToNextBlock (advanceNow io) (nextBlock io) session) in
    let st2 := with_sessions st1 (map_set key session' (sessions st)) in
    if negb (snd (advanceToNextBlock (advanceNow io) (nextBlock io) session)) then
      (AuthFailed "All blocks exhausted. Authentication failed."
         (currentBlock session'), st2, [FailureLogged "blocks_exhausted"])
    else
      (BlockExpired (currentBlock session') (challenge session')
         (blockTimeoutMs session')
         (blockStartedAt session' + blockTimeoutMs session')
         ("Block " ++ show (currentBlock session' - 1)
          ++ " expired. Now on block " ++ show (currentBlock session')
          ++ " of " ++ show (maxBlocks session') ++ "."),
       st2, [])
  else
    let verification :=
      Coherent.verifyCoherent w (data (challenge session))
        (as_answer (JsString answer)) in
    let verified :=
      Verified (data (challenge session)) (as_answer (JsString answer))
        (snd verification) in
    if Coherent.valid (fst verification) then
      let session' := markSessionPassed (passedNow io) session in
      let issued :=
        Token.createToken (tokenNow io) (tokenBytes io) config
          (challengeId (challenge session')) (Some ip) (tokenStore st) in
      (Success (Token.token (fst issued)) (currentBlock session')
         (Coherent.coherenceScore (fst verification)),
       {| sessions := map_set key session' (sessions st);
          tokenStore := snd issued;
          submitStore := submitStore st1 |},
       [verified])
    else
      (Failure (Coherent.errors (fst verification)) (currentBlock session)
         (getBlockTimeRemaining (remainingNow io) session)
         (Coherent.coherenceScore (fst verification)),
       st1, [verified; FailureLogged "coherence_failed"]).
Proof.
  intros Hadm Hkey Hlen Hget Hact. unfold let_through in Hadm.
  unfold authSubmit.
  destruct (RateLimit.checkSubmitRateLimit _ _ _ _) as [rateCheck buckets].
  cbn [fst snd] in *. rewrite Hadm. cbn [negb].
  rewrite Hkey. cbn [is_undefined orb too_long].
  replace (strlen answer >? Coherent.MAX_SENTENCE_LENGTH) with false
    by (symmetry; rewrite Z.gtb_ltb; apply Z.ltb_ge; exact Hlen).
  cbn [lookup_session sessions]. rewrite Hget. cbn [option_map].
  rewrite Hact. cbn [is_active negb].
  destruct (isBlockExpired (expiryNow io) session).
  - destruct (advanceToNextBlock _ _ session) as [session' advanced].
    cbn [fst snd]. destruct advanced; reflexivity.
  - cbv zeta.
    destruct (Coherent.verifyCoherent w _ _) as [verifyResult events].
    cbn [fst snd]. destruct (Coherent.valid verifyResult); [|reflexivity].
    destruct (Token.createToken _ _ _ _ _ _) as [tokenData tokens] eqn:Htok.
    reflexivity.
Qed.

Lemma advance_transition io session :
  status session = active ->
  timeout_transition io session
    (fst (advanceToNextBlock (advanceNow io) (nextBlock io) session)).
Proof.
  intros Hact. unfold timeout_transition, advanceToNextBlock.
  rewrite Z.geb_leb.
  destruct (Z.leb_spec (maxBlocks session) (currentBlock session)) as [Hmax | Hlt];
    destruct (Z.ltb_spec (currentBlock session) (maxBlocks session));
    try lia; cbn; repeat split; auto.
Qed.

(** What the handler answers to the oversized submission, and what it
    leaves behind. *)
Example oversized_submission_outcome :
  fst (fst (authSubmit test_config no_oracle late_inputs "203.0.113.7"
              (Fields (JsString "ses_A") (JsString oversized_answer))
              stale_state))
  = BadRequest "Answer too long. Maximum 10000 characters."
  /\ sessions (snd (fst (authSubmit test_config no_oracle late_inputs
                           "203.0.113.7"
                           (Fields (JsString "ses_A") (JsString oversized_answer))
                           stale_state)))
     = [("ses_A", stale_session)]
  /\ isBlockExpired (expiryNow late_inputs) stale_session = true.
Proof. vm_compute. repeat split; reflexivity. Qed.

(** C4 (as worded) fails: a submission whose answer has 10,001
    characters is turned away by the length guard before the session is
    looked at, so the session of an expired block stays where it was. *)
Lemma oversized_submission_does_not_advance : ~ expired_submission_advances.
Proof.
  intros Hall.
  destruct (Hall test_config no_oracle late_inputs "203.0.113.7" "ses_A"
              oversized_answer stale_state stale_session
              eq_refl eq_refl eq_refl) as (_ & after & Hget & Hstep).
  vm_compute in Hget. injection Hget as <-.
  vm_compute in Hstep. destruct Hstep as (_ & Hblock & _). discriminate Hblock.
Qed.

(** C4 (amended): for every submission that the rate limiter lets through, that
    names the session and whose answer has at most 10,000 characters, made
    to an active session whose block has timed out, the handler verifies
    nothing and applies the timeout transition: below the maximum the
    session stays active with the block number one higher, the challenge
    generated afresh (words, count and identifier drawn from the random
    source) and the block start time set to the clock reading; at the
    maximum the session becomes failed and keeps its challenge.  The
    session's identifier, address, block limit, timeout and creation time
    stay as they were; no other session and no token changes. *)
Theorem expired_submission_advances_past_guards
    (config : Token.Config) (w : Coherent.World) (io : Inputs) (ip key answer : string)
    (st : State) (session : AuthSession) :
  let_through io ip st ->
  falsy (JsString key) = false ->
  strlen answer <= Coherent.MAX_SENTENCE_LENGTH ->
  getSession (sessions st) key = Some session ->
  status session = active ->
  isBlockExpired (expiryNow io) session = true ->
  let outcome :=
    authSubmit config w io ip (Fields (JsString key) (JsString answer)) st in
  let after := fst (advanceToNextBlock (advanceNow io) (nextBlock io) session) in
  no_verification (snd outcome)
  /\ getSession (sessions (snd (fst outcome))) key = Some after
  /\ sessions (snd (fst outcome)) = map_set key after (sessions st)
  /\ tokenStore (snd (fst outcome)) = tokenStore st
  /\ timeout_transition io session after
  /\ (sessionId after, clientIp after, maxBlocks after, blockTimeoutMs after,
      sessionCreatedAt after, passedAt after)
     = (sessionId session, clientIp session, maxBlocks session,
        blockTimeoutMs session, sessionCreatedAt session, passedAt session)
  /\ (currentBlock session < maxBlocks session ->
      fst (fst outcome)
      = BlockExpired (currentBlock session + 1) (freshChallenge (nextBlock io))
          (blockTimeoutMs session) (advanceNow io + blockTimeoutMs session)
          ("Block " ++ show (currentBlock session + 1 - 1)
           ++ " expired. Now on block " ++ show (currentBlock session + 1)
           ++ " of " ++ show (maxBlocks session) ++ "."))
  /\ (maxBlocks session <= currentBlock session ->
      fst (fst outcome)
      = AuthFailed "All blocks exhausted. Authentication failed."
          (currentBlock session)).
Proof.
  intros Hadm Hkey Hlen Hget Hact Hexp outcome after. subst outcome.
  rewrite (authSubmit_past_guards config w io ip key answer st session
             Hadm Hkey Hlen Hget Hact).
  cbv zeta. rewrite Hexp. fold after.
  pose proof (advance_transition io session Hact) as Hstep. fold after in Hstep.
  assert (Hframe :
    (sessionId after, clientIp after, maxBlocks after, blockTimeoutMs after,
     sessionCreatedAt after, passedAt after)
    = (sessionId session, clientIp session, maxBlocks session,
       blockTimeoutMs session, sessionCreatedAt session, passedAt session)).
  { subst after. unfold advanceToNextBlock.
    destruct (currentBlock session >=? maxBlocks session); reflexivity. }
  assert (Hres : snd (advanceToNextBlock (advanceNow io) (nextBlock io) session)
                 = (currentBlock session <? maxBlocks session)).
  { unfold advanceToNextBlock. rewrite Z.geb_leb.
    destruct (Z.leb_spec (maxBlocks session) (currentBlock session));
      destruct (Z.ltb_spec (currentBlock session) (maxBlocks session));
      try lia; reflexivity. }
  rewrite Hres.
  destruct (Z.ltb_spec (currentBlock session) (maxBlocks session)) as [Hlt | Hge];
    cbn [negb fst snd sessions tokenStore with_sessions].
  - split; [intros ch a ev []|].
    split; [apply map_get_set|]. split; [reflexivity|]. split; [reflexivity|].
    split; [exact Hstep|]. split; [exact Hframe|]. split; [|lia].
    intros _. subst after. unfold advanceToNextBlock.
    replace (currentBlock session >=? maxBlocks session) with false
      by (symmetry; rewrite Z.geb_leb; apply Z.leb_gt; exact Hlt).
    reflexivity.
  - split; [intros ch a ev [E | []]; discriminate|].
    split; [apply map_get_set|]. split; [reflexivity|]. split; [reflexivity|].
    split; [exact Hstep|]. split; [exact Hframe|]. split; [lia|].
    intros _. subst after. unfold advanceToNextBlock.
    replace (currentBlock session >=? maxBlocks session) with true
      by (symmetry; rewrite Z.geb_leb; apply Z.leb_le; exact Hge).
    reflexivity.
Qed.

Lemma expired_submission_advances_past_guards_witness :
  getSession
    (sessions (snd (fst (authSubmit test_config no_oracle late_inputs
                           "203.0.113.7"
                           (Fields (JsString "ses_A") (JsString "The apple."))
                           stale_state))))
    "ses_A"
  = Some (fst (advanceToNextBlock 20000 (nextBlock late_inputs) stale_session)).
Proof.
  refine (proj1 (proj2 (expired_submission_advances_past_guards
            test_config no_oracle late_inputs "203.0.113.7" "ses_A"
            "The apple." stale_state stale_session _ _ _ _ _ _))).
  - reflexivity.
  - reflexivity.
  - vm_compute. discriminate.
  - reflexivity.
  - reflexivity.
  - reflexivity.
Defined.

(** C8: a submission to an active session whose block has not timed out
    and whose verification fails leaves the session store as it was, the
    session with it (status, block number, challenge, block start time and
    every other field), and issues no token; once past the rate limiter
    and the request checks, the answer reports the errors, the same block
    and the time left, so the caller may retry. *)
Theorem failed_verification_keeps_session
    (config : Token.Config) (w : Coherent.World) (io : Inputs) (ip key : string)
    (answer : JsValue) (st : State) (session : AuthSession) :
  getSession (sessions st) key = Some session ->
  status session = active ->
  isBlockExpired (expiryNow io) session = false ->
  Coherent.valid
    (fst (Coherent.verifyCoherent w (data (challenge session)) (as_answer answer)))
  = false ->
  let outcome := authSubmit config w io ip (Fields (JsString key) answer) st in
  sessions (snd (fst outcome)) = sessions st
  /\ getSession (sessions (snd (fst outcome))) key = Some session
  /\ tokenStore (snd (fst outcome)) = tokenStore st
  /\ (forall text,
        answer = JsString text ->
        let_through io ip st -> falsy (JsString key) = false ->
        strlen text <= Coherent.MAX_SENTENCE_LENGTH ->
        fst (fst outcome)
        = Failure
            (Coherent.errors
               (fst (Coherent.verifyCoherent w (data (challenge session))
                       (as_answer answer))))
            (currentBlock session)
            (getBlockTimeRemaining (remainingNow io) session)
            (Coherent.coherenceScore
               (fst (Coherent.verifyCoherent w (data (challenge session))
                       (as_answer answer))))).
Proof.
  intros Hget Hact Hlive Hfail outcome.
  assert (Hsame : sessions (snd (fst outcome)) = sessions st
                  /\ tokenStore (snd (fst outcome)) = tokenStore st).
  { subst outcome. unfold authSubmit.
    destruct (RateLimit.checkSubmitRateLimit _ _ _ _) as [rateCheck buckets].
    destruct (negb (RateLimit.allowed rateCheck)); [split; reflexivity|].
    destruct (falsy (JsString key) || is_undefined answer); [split; reflexivity|].
    destruct (too_long answer); [split; reflexivity|].
    cbn [lookup_session sessions]. rewrite Hget. cbn [option_map].
    rewrite Hact. cbn [is_active negb]. rewrite Hlive.
    destruct answer as [| |text|truthy]; try (split; reflexivity).
    - destruct (Coherent.verifyCoherent w _ _) as [verifyResult events].
      cbn [fst] in Hfail. rewrite Hfail. split; reflexivity.
    - destruct (Coherent.verifyCoherent w _ _) as [verifyResult events].
      cbn [fst] in Hfail. rewrite Hfail. split; reflexivity.
    - destruct (Coherent.verifyCoherent w _ _) as [verifyResult events].
      cbn [fst] in Hfail. rewrite Hfail. split; reflexivity. }
  destruct Hsame as [Hs Ht].
  split; [exact Hs|]. split; [rewrite Hs; exact Hget|]. split; [exact Ht|].
  intros text -> Hadm Hkey Hlen. subst outcome.
  rewrite (authSubmit_past_guards config w io ip key text st session
             Hadm Hkey Hlen Hget Hact).
  cbv zeta. rewrite Hlive, Hfail. reflexivity.
Qed.

Lemma failed_verification_keeps_session_witness :
  sessions (snd (fst (authSubmit test_config no_oracle
                        {| rateGetNow := 5000; rateRefillNow := 5000;
                           expiryNow := 5000; advanceNow := 5000;
                           nextBlock := nextBlock late_inputs;
                           passedNow := 5000; tokenNow := 5000;
                           tokenBytes := fun _ => 0; remainingNow := 5001 |}
                        "203.0.113.7"
                        (Fields (JsString "ses_A") (JsString "The apple."))
                        stale_state)))
  = sessions stale_state.
Proof.
  refine (proj1 (failed_verification_keeps_session test_config no_oracle
            _ "203.0.113.7" "ses_A" (JsString "The apple.") stale_state
            stale_session _ _ _ _)).
  - reflexivity.
  - reflexivity.
  - reflexivity.
  - vm_compute. reflexivity.
Defined.

End ServerProps.

(** ** Tokens: validation, status checks, sweep *)

Module TokenExtras.
Import Text Token Scenario TokenProps.

Lemma prefix_nonempty tok :
  String.prefix "rcap_" tok = true -> (String.length tok =? 0)%nat = false.
Proof. destruct tok; [discriminate | reflexivity]. Qed.

Lemma gtb_false a b : a <= b -> (a >? b) = false.
Proof. intros H. rewrite Z.gtb_ltb. apply Z.ltb_ge. exact H. Qed.

Lemma gtb_true a b : b < a -> (a >? b) = true.
Proof. intros H. rewrite Z.gtb_ltb. apply Z.ltb_lt. exact H. Qed.

(** X1: [validateToken] accepts only what the store holds.  A valid answer
    means the argument is a string with the [rcap_] prefix that was in the
    store and had not expired; the answer carries the stored challenge and
    expiry, and the entry is deleted.  An invalid answer carries an error.
    In every case the store gains nothing and changes at no other key. *)
Theorem validateToken_sound (now : Z) (tok : option string) (store : TokenStore) :
  (valid (fst (validateToken now tok store)) = true ->
     exists t data,
       tok = Some t
       /\ String.prefix "rcap_" t = true
       /\ store !! t = Some data
       /\ now <= expiresAt data
       /\ fst (validateToken now tok store)
          = {| valid := true; v_challengeId := Some (challengeId data);
               v_expiresAt := Some (expiresAt data); error := None |}
       /\ snd (validateToken now tok store) = delete t store)
  /\ (valid (fst (validateToken now tok store)) = false ->
      exists msg, error (fst (validateToken now tok store)) = Some msg)
  /\ snd (validateToken now tok store) ⊆ store
  /\ (forall other, tok <> Some other ->
        snd (validateToken now tok store) !! other = store !! other).
Proof.
  unfold validateToken.
  destruct tok as [t|]; [|cbn; repeat split; eauto; discriminate].
  destruct (String.length t =? 0)%nat; [cbn; repeat split; eauto; discriminate|].
  destruct (String.prefix "rcap_" t) eqn:Hpre;
    [|cbn; repeat split; eauto; discriminate].
  cbn [negb]. destruct (store !! t) as [data|] eqn:Hdata;
    [|cbn; repeat split; eauto; discriminate].
  destruct (Z.gtb_spec now (expiresAt data)) as [Hlate | Hlive]; cbn [fst snd valid error].
  - split; [discriminate|]. split; [eauto|]. split; [apply delete_subseteq|].
    intros other Hne. apply lookup_delete_ne. congruence.
  - split.
    + intros _. exists t, data. repeat split; auto.
    + split; [discriminate|]. split; [apply delete_subseteq|].
      intros other Hne. apply lookup_delete_ne. congruence.
Qed.

(** X2: an expired token is refused with "Token expired" and removed by
    that very call, so every later attempt finds nothing. *)
Theorem expired_token_is_dropped (now : Z) (tok : string) (store : TokenStore)
    (data : VerificationToken) (later : list Z) :
  String.prefix "rcap_" tok = true ->
  store !! tok = Some data ->
  expiresAt data < now ->
  validateToken now (Some tok) store
  = (rejected "Token expired", delete tok store)
  /\ redeem_all tok later (delete tok store)
     = (List.map (fun _ => rejected "Token not found or already used") later,
        delete tok store).
Proof.
  intros Hpre Hdata Hlate. split.
  - unfold validateToken.
    rewrite (prefix_nonempty tok Hpre), Hpre, Hdata. cbn [negb].
    rewrite gtb_true by exact Hlate. reflexivity.
  - apply redeem_all_absent; auto using prefix_nonempty.
    apply lookup_delete_eq.
Qed.

Lemma expired_token_is_dropped_witness :
  fst (validateToken 70000
         (Some (token (fst (createToken 1000 (fun _ => 0) test_config "ch_A"
                              None ∅))))
         (snd (createToken 1000 (fun _ => 0) test_config "ch_A" None ∅)))
  = rejected "Token expired".
Proof.
  refine (f_equal fst (proj1 (expired_token_is_dropped 70000
            (token (fst (createToken 1000 (fun _ => 0) test_config "ch_A" None ∅)))
            (snd (createToken 1000 (fun _ => 0) test_config "ch_A" None ∅))
            (fst (createToken 1000 (fun _ => 0) test_config "ch_A" None ∅))
            [] _ _ _))).
  - reflexivity.
  - reflexivity.
  - simpl. lia.
Defined.

(** X3: the status checks consume nothing.  [isTokenValid] answers true
    exactly for a stored token that has not expired, and then leaves the
    store as it is; [getTokenInfo] returns the stored data in exactly that
    case and has the same effect on the store; for a string with the
    [rcap_] prefix the answer of [isTokenValid] is the validity
    [validateToken] would report. *)
Theorem status_checks_do_not_consume (now : Z) (tok : string)
    (store : TokenStore) :
  (fst (isTokenValid now tok store) = true <->
     exists data, store !! tok = Some data /\ now <= expiresAt data)
  /\ (fst (isTokenValid now tok store) = true ->
      snd (isTokenValid now tok store) = store)
  /\ (forall data, fst (getTokenInfo now tok store) = Some data <->
                   store !! tok = Some data /\ now <= expiresAt data)
  /\ snd (getTokenInfo now tok store) = snd (isTokenValid now tok store)
  /\ (String.prefix "rcap_" tok = true ->
      valid (fst (validateToken now (Some tok) store))
      = fst (isTokenValid now tok store)).
Proof.
  unfold isTokenValid, getTokenInfo, validateToken.
  destruct (store !! tok) as [data|] eqn:Hdata.
  - destruct (Z.gtb_spec now (expiresAt data)) as [Hlate | Hlive]; cbn [fst snd].
    + split; [split; [discriminate | intros (d & E & H); injection E as <-; lia]|].
      split; [discriminate|].
      split; [intros d; split; [discriminate | intros [E H]; injection E as <-; lia]|].
      split; [reflexivity|].
      intros Hpre. rewrite (prefix_nonempty tok Hpre), Hpre. reflexivity.
    + split; [split; [intros _; exists data; auto | reflexivity]|].
      split; [reflexivity|].
      split; [intros d; split;
               [intros E; injection E as <-; auto | intros [E _]; congruence]|].
      split; [reflexivity|].
      intros Hpre. rewrite (prefix_nonempty tok Hpre), Hpre. reflexivity.
  - cbn [fst snd].
    split; [split; [discriminate | intros (d & E & _); discriminate]|].
    split; [discriminate|].
    split; [intros d; split; [discriminate | intros [E _]; discriminate]|].
    split; [reflexivity|].
    intros Hpre. rewrite (prefix_nonempty tok Hpre), Hpre. reflexivity.
Qed.

(** X4: the sweep removes exactly the tokens whose expiry lies before the
    sweep time, and a sweep never changes whether a later redemption
    succeeds. *)
Theorem sweep_keeps_live_tokens (swept : Z) (store : TokenStore) :
  (forall tok data,
     cleanupTokens swept store !! tok = Some data <->
     store !! tok = Some data /\ swept <= expiresAt data)
  /\ (forall now tok,
        swept <= now ->
        valid (fst (validateToken now tok (cleanupTokens swept store)))
        = valid (fst (validateToken now tok store))).
Proof.
  assert (Hlook : forall tok data,
            cleanupTokens swept store !! tok = Some data <->
            store !! tok = Some data /\ swept <= expiresAt data).
  { intros tok data. unfold cleanupTokens, cleanup.
    rewrite map_lookup_filter_Some. cbn. split; intros [H1 H2]; split; auto; lia. }
  split; [exact Hlook|].
  intros now tok Hnow. unfold validateToken.
  destruct tok as [t|]; [|reflexivity].
  destruct (String.length t =? 0)%nat; [reflexivity|].
  destruct (String.prefix "rcap_" t); [|reflexivity]. cbn [negb].
  destruct (cleanupTokens swept store !! t) as [data|] eqn:Hswept.
  - apply Hlook in Hswept as [Hdata _]. rewrite Hdata.
    destruct (now >? expiresAt data); reflexivity.
  - destruct (store !! t) as [data|] eqn:Hdata; [|reflexivity].
    destruct (Z.gtb_spec now (expiresAt data)) as [Hlate | Hlive]; [reflexivity|].
    exfalso. assert (Hkeep : cleanupTokens swept store !! t = Some data)
      by (apply Hlook; split; [exact Hdata | lia]).
    congruence.
Qed.

Lemma sweep_keeps_live_tokens_witness :
  valid (fst (validateToken 2000
                (Some (token (fst (createToken 1000 (fun _ => 0) test_config
                                     "ch_A" None ∅))))
                (cleanupTokens 1500
                   (snd (createToken 1000 (fun _ => 0) test_config "ch_A"
                           None ∅)))))
  = true.
Proof.
  rewrite (proj2 (sweep_keeps_live_tokens 1500
             (snd (createToken 1000 (fun _ => 0) test_config "ch_A" None ∅)))
             2000 _ ltac:(lia)).
  reflexivity.
Defined.

End TokenExtras.

(** ** The format of tokens and identifiers *)

Module FormatProps.
Import Text Js Token Sessions FormatSpec.

Lemma length_text l : String.length (text l) = List.length l.
Proof.
  unfold text. induction l as [|c l IH]; [reflexivity|].
  cbn [string_of_list_ascii String.length]. rewrite IH. reflexivity.
Qed.

Lemma length_append (a b : string) :
  String.length (a ++ b) = (String.length a + String.length b)%nat.
Proof.
  induction a as [|c a IH]; [reflexivity|].
  change (S (String.length (a ++ b)) = S (String.length a + String.length b)).
  rewrite IH. reflexivity.
Qed.

Lemma sextet_keeps_one z : keeps_one (sextet z).
Proof.
  unfold sextet.
  assert (Hlt : (Z.to_nat (Z.land z 63) < 64)%nat).
  { assert (0 <= Z.land z 63 < 64).
    { change 63 with (Z.ones 6). rewrite Z.land_ones by lia.
      apply Z.mod_pos_bound. lia. }
    lia. }
  revert Hlt. generalize (Z.to_nat (Z.land z 63)). intros n Hn.
  do 64 (destruct n as [|n]; [eexists; split; reflexivity|]). lia.
Qed.

Lemma urlSafe_app l1 l2 : urlSafe (l1 ++ l2) = (urlSafe l1 ++ urlSafe l2)%list.
Proof. unfold urlSafe. apply List.flat_map_app. Qed.

Lemma urlSafe_cons c l : urlSafe (c :: l) = (urlSafe [c] ++ urlSafe l)%list.
Proof. apply (urlSafe_app [c] l). Qed.

(** The encoded body of [n] bytes: its length and its characters. *)
Lemma urlSafe_btoa (n : nat) : forall bytes,
  (List.length bytes <= n)%nat ->
  List.length (urlSafe (btoa bytes)) = ((4 * List.length bytes + 2) / 3)%nat
  /\ Forall (fun c => is_url_safe c = true) (urlSafe (btoa bytes)).
Proof.
  induction n as [|n IH]; intros bytes Hlen.
  - destruct bytes; [|cbn in Hlen; lia]. split; [reflexivity | constructor].
  - destruct bytes as [|a [|b [|c rest]]].
    + split; [reflexivity | constructor].
    + cbn [btoa].
      destruct (sextet_keeps_one (Z.shiftr a 2)) as (c1 & E1 & H1).
      destruct (sextet_keeps_one (Z.shiftl (Z.land a 3) 4)) as (c2 & E2 & H2).
      rewrite urlSafe_cons, E1, urlSafe_cons, E2. split; [reflexivity|].
      repeat constructor; assumption.
    + cbn [btoa].
      destruct (sextet_keeps_one (Z.shiftr a 2)) as (c1 & E1 & H1).
      destruct (sextet_keeps_one (Z.lor (Z.shiftl (Z.land a 3) 4) (Z.shiftr b 4)))
        as (c2 & E2 & H2).
      destruct (sextet_keeps_one (Z.shiftl (Z.land b 15) 2)) as (c3 & E3 & H3).
      rewrite urlSafe_cons, E1, urlSafe_cons, E2, urlSafe_cons, E3.
      split; [reflexivity|]. repeat constructor; assumption.
    + cbn [btoa].
      destruct (sextet_keeps_one (Z.shiftr a 2)) as (c1 & E1 & H1).
      destruct (sextet_keeps_one (Z.lor (Z.shiftl (Z.land a 3) 4) (Z.shiftr b 4)))
        as (c2 & E2 & H2).
      destruct (sextet_keeps_one (Z.lor (Z.shiftl (Z.land b 15) 2) (Z.shiftr c 6)))
        as (c3 & E3 & H3).
      destruct (sextet_keeps_one c) as (c4 & E4 & H4).
      rewrite urlSafe_cons, E1, urlSafe_cons, E2, urlSafe_cons, E3,
        urlSafe_cons, E4.
      destruct (IH rest ltac:(cbn in Hlen; lia)) as [Hl Hs].
      split.
      * cbn [List.length app]. rewrite Hl.
        replace (4 * S (S (S (List.length rest))) + 2)%nat
          with (4 * List.length rest + 2 + 4 * 3)%nat by lia.
        rewrite Nat.div_add by lia. lia.
      * cbn [app]. repeat (constructor; [assumption|]). exact Hs.
Qed.

(** X5: every token string is [rcap_] followed by 43 URL-safe characters
    (letters, digits, [-] and [_]): 48 characters, without padding. *)
Theorem token_string_format (randomBytes : nat -> Z) :
  exists body,
    generateTokenString randomBytes = "rcap_" ++ text body
    /\ List.length body = 43%nat
    /\ Forall (fun c => is_url_safe c = true) body
    /\ String.length (generateTokenString randomBytes) = 48%nat.
Proof.
  unfold generateTokenString.
  set (bytes := List.map (fun i => uint8 (randomBytes i)) (seq 0 32)).
  assert (Hn : List.length bytes = 32%nat)
    by (unfold bytes; rewrite List.length_map, List.length_seq; reflexivity).
  destruct (urlSafe_btoa 32 bytes ltac:(lia)) as [Hlen Hsafe].
  rewrite Hn in Hlen. change ((4 * 32 + 2) / 3)%nat with 43%nat in Hlen.
  exists (urlSafe (btoa bytes)). split; [reflexivity|]. split; [exact Hlen|].
  split; [exact Hsafe|].
  rewrite length_append, length_text, Hlen. reflexivity.
Qed.

Lemma charAt_alphabet z :
  0 <= z < 62 ->
  exists c, charAt alphabet z = [c] /\ is_alphanumeric c = true.
Proof.
  intros Hz. unfold charAt.
  assert (Hn : (Z.to_nat z < 62)%nat) by lia.
  revert Hn. generalize (Z.to_nat z). intros n Hn.
  do 62 (destruct n as [|n]; [eexists; split; reflexivity|]). lia.
Qed.

(** X6: [secureRandomString] returns exactly [length] characters, all of
    them letters or digits, whatever the random bytes; so a session
    identifier is [ses_] and 24 such characters and a challenge identifier
    is [ch_] and 16. *)
Theorem secureRandomString_format (randomBytes : nat -> Z) (length : nat) :
  String.length (secureRandomString randomBytes length) = length
  /\ Forall (fun c => is_alphanumeric c = true)
       (chars (secureRandomString randomBytes length))
  /\ String.length (generateSessionId randomBytes) = 28%nat
  /\ String.prefix "ses_" (generateSessionId randomBytes) = true
  /\ String.length (generateChallengeId randomBytes) = 19%nat
  /\ String.prefix "ch_" (generateChallengeId randomBytes) = true.
Proof.
  assert (Hgen : forall r n start,
            List.length (flat_map
               (fun i => charAt alphabet
                           (uint8 (r i) mod Z.of_nat (List.length alphabet)))
               (seq start n)) = n
            /\ Forall (fun c => is_alphanumeric c = true)
                 (flat_map
                    (fun i => charAt alphabet
                                (uint8 (r i) mod Z.of_nat (List.length alphabet)))
                    (seq start n))).
  { intros r n. induction n as [|n IH]; intros start; [split; [reflexivity | constructor]|].
    cbn [seq flat_map].
    destruct (charAt_alphabet (uint8 (r start) mod Z.of_nat (List.length alphabet)))
      as (c & E & Hc).
    { change (Z.of_nat (List.length alphabet)) with 62. apply Z.mod_pos_bound. lia. }
    rewrite E. destruct (IH (S start)) as [Hl Hs]. split.
    - rewrite List.length_app, Hl. reflexivity.
    - cbn [app]. constructor; assumption. }
  assert (Hlen : forall r n, String.length (secureRandomString r n) = n).
  { intros r n. unfold secureRandomString. rewrite length_text.
    apply (Hgen r n 0%nat). }
  split; [apply Hlen|]. split.
  - unfold secureRandomString, chars, text.
    rewrite list_ascii_of_string_of_list_ascii. apply (Hgen randomBytes length 0%nat).
  - unfold generateSessionId, generateChallengeId.
    rewrite !length_append, !Hlen.
    repeat split; try reflexivity; apply TokenProps.prefix_append.
Qed.

End FormatProps.

(** ** Blocks of a session *)

Module SessionExtras.
Import Text Js Sessions MapFacts Scenario SessionSpec SessionProps.

(** X7: the block deadline.  A block is expired exactly when the clock is
    past start + timeout; an expired block has no time remaining, and time
    remaining means the block is not expired; at the deadline itself the
    block is not expired although no time remains.  The time remaining is
    never negative, and never above the timeout once the block has
    started. *)
Theorem block_deadline (now : Z) (session : AuthSession) :
  (isBlockExpired now session = true <->
     blockStartedAt session + blockTimeoutMs session < now)
  /\ (isBlockExpired now session = true ->
      getBlockTimeRemaining now session = 0)
  /\ (0 < getBlockTimeRemaining now session ->
      isBlockExpired now session = false)
  /\ (now = blockStartedAt session + blockTimeoutMs session ->
      isBlockExpired now session = false
      /\ getBlockTimeRemaining now session = 0)
  /\ 0 <= getBlockTimeRemaining now session
  /\ (blockStartedAt session <= now ->
      getBlockTimeRemaining now session <= Z.max 0 (blockTimeoutMs session)).
Proof.
  unfold isBlockExpired, getBlockTimeRemaining.
  destruct (Z.gtb_spec (now - blockStartedAt session) (blockTimeoutMs session));
    repeat split; intros; try discriminate; try reflexivity; lia.
Qed.

Lemma block_progression_run steps : forall session results final,
  advance_all steps session = (results, final) ->
  currentBlock session <= maxBlocks session ->
  let left := Z.to_nat (maxBlocks session - currentBlock session) in
  let k := Nat.min (List.length steps) left in
  results = (repeat true k ++ repeat false (List.length steps - k))%list
  /\ currentBlock final = currentBlock session + Z.of_nat k
  /\ currentBlock final <= maxBlocks session
  /\ maxBlocks final = maxBlocks session
  /\ status final
     = (if (left <? List.length steps)%nat then failed else status session).
Proof.
  induction steps as [|[now e] steps IH]; intros session results final Hrun Hle.
  - injection Hrun as <- <-. cbn. repeat split; [lia | exact Hle].
  - cbn [advance_all] in Hrun.
    destruct (advanceToNextBlock now e session) as [s1 advanced] eqn:Hadv.
    destruct (advance_all steps s1) as [results1 final1] eqn:Hrest.
    injection Hrun as <- <-.
    unfold advanceToNextBlock in Hadv.
    destruct (Z.geb_spec (currentBlock session) (maxBlocks session)) as [Hmax | Hlt];
      injection Hadv as <- <-.
    + specialize (IH _ _ _ Hrest ltac:(cbn; lia)).
      cbn [currentBlock maxBlocks status] in IH.
      cbv zeta in *.
      replace (Z.to_nat (maxBlocks session - currentBlock session)) with 0%nat in * by lia.
      rewrite Nat.min_0_r in *. cbn [List.length].
      destruct IH as (Hres & Hblock & Hb & Hm & Hst).
      split; [rewrite Hres; cbn; rewrite Nat.sub_0_r; reflexivity|].
      split; [exact Hblock|]. split; [exact Hb|]. split; [exact Hm|].
      rewrite Hst. destruct (List.length steps); reflexivity.
    + specialize (IH _ _ _ Hrest ltac:(cbn; lia)).
      cbn [currentBlock maxBlocks status] in IH.
      cbv zeta in *.
      replace (Z.to_nat (maxBlocks session - (currentBlock session + 1)))
        with (Nat.pred (Z.to_nat (maxBlocks session - currentBlock session)))
        in IH by lia.
      destruct (Z.to_nat (maxBlocks session - currentBlock session)) as [|n] eqn:Hn;
        [lia|]. cbn [Nat.pred] in IH. cbn [List.length].
      rewrite <- Nat.succ_min_distr.
      destruct IH as (Hres & Hblock & Hb & Hm & Hst).
      split; [rewrite Hres; reflexivity|].
      split; [rewrite Hblock; lia|]. split; [exact Hb|]. split; [exact Hm|].
      rewrite Hst. reflexivity.
Qed.

(** X8: block progression.  For a session whose block number does not
    exceed its maximum, a run of block timeouts advances it while blocks
    are left and fails it from then on: the results are [true] for the
    first [maxBlocks - currentBlock] steps and [false] afterwards, the
    block number never passes the maximum, and the session is failed at
    the end exactly when the run was longer than the blocks left (its
    status is untouched otherwise). *)
Theorem block_progression (steps : list (Z * BlockEntropy))
    (session : AuthSession) :
  currentBlock session <= maxBlocks session ->
  let left := Z.to_nat (maxBlocks session - currentBlock session) in
  let k := Nat.min (List.length steps) left in
  fst (advance_all steps session)
  = (repeat true k ++ repeat false (List.length steps - k))%list
  /\ currentBlock (snd (advance_all steps session))
     = currentBlock session + Z.of_nat k
  /\ currentBlock (snd (advance_all steps session)) <= maxBlocks session
  /\ maxBlocks (snd (advance_all steps session)) = maxBlocks session
  /\ status (snd (advance_all steps session))
     = (if (left <? List.length steps)%nat then failed else status session).
Proof.
  intros Hle left k.
  destruct (advance_all steps session) as [results final] eqn:Hrun.
  apply (block_progression_run steps session results final Hrun Hle).
Qed.

Lemma block_progression_witness :
  fst (advance_all
         [(10000, Server.nextBlock late_inputs); (20000, Server.nextBlock late_inputs);
          (30000, Server.nextBlock late_inputs); (40000, Server.nextBlock late_inputs)]
         stale_session)
  = [true; true; false; false].
Proof.
  refine (proj1 (block_progression
            [(10000, Server.nextBlock late_inputs); (20000, Server.nextBlock late_inputs);
             (30000, Server.nextBlock late_inputs); (40000, Server.nextBlock late_inputs)]
            stale_session _)).
  simpl. lia.
Defined.

End SessionExtras.

(** ** The session store *)

Module StoreFacts.
Import Js MapFacts.

Section Lookup.
Context {V : Type}.
Implicit Types (m : list (string * V)) (k : string).

Lemma map_get_None k m : map_get k m = None <-> ~ In k (keys m).
Proof.
  induction m as [|[k' v] m IH]; cbn; [tauto|].
  destruct (String.eqb_spec k k') as [-> | Hne].
  - split; [discriminate | intros H; exfalso; apply H; now left].
  - rewrite IH. split; [intros H [E | Hin]; [congruence | auto] | tauto].
Qed.

Lemma map_get_In k v m :
  List.NoDup (keys m) -> map_get k m = Some v <-> In (k, v) m.
Proof.
  induction m as [|[k' v'] m IH]; intros Hnd; cbn; [split; [discriminate | tauto]|].
  cbn in Hnd. apply List.NoDup_cons_iff in Hnd as [Hx Hnd].
  destruct (String.eqb_spec k k') as [-> | Hne].
  - split.
    + intros E. injection E as ->. now left.
    + intros [E | Hin]; [congruence|].
      exfalso. apply Hx. apply (List.in_map fst) in Hin. exact Hin.
  - rewrite IH by exact Hnd. split; [tauto | intros [E | Hin]; [congruence | exact Hin]].
Qed.

Lemma map_get_delete_eq k m :
  List.NoDup (keys m) -> map_get k (map_delete k m) = None.
Proof.
  intros Hnd. apply map_get_None. intros Hin.
  unfold keys in Hin. apply List.in_map_iff in Hin as (e & <- & He).
  apply map_delete_In in He as [_ Hk]; [congruence | exact Hnd].
Qed.

Lemma map_get_delete_ne k k' m :
  k' <> k -> map_get k' (map_delete k m) = map_get k' m.
Proof.
  intros Hne. induction m as [|[k2 v] m IH]; cbn; [reflexivity|].
  destruct (String.eqb_spec k k2) as [-> | Hne2]; cbn.
  - destruct (String.eqb_spec k' k2); [congruence | reflexivity].
  - rewrite IH. reflexivity.
Qed.

Lemma map_get_set_eq k v m : map_get k (map_set k v m) = Some v.
Proof.
  induction m as [|[k' v'] m IH]; cbn.
  - rewrite String.eqb_refl. reflexivity.
  - destruct (String.eqb_spec k k') as [-> | Hne]; cbn.
    + rewrite String.eqb_refl. reflexivity.
    + destruct (String.eqb_spec k k'); [congruence | exact IH].
Qed.

Lemma map_get_set_ne k k' v m :
  k' <> k -> map_get k' (map_set k v m) = map_get k' m.
Proof.
  intros Hne. induction m as [|[k2 v2] m IH]; cbn.
  - destruct (String.eqb_spec k' k); [congruence | reflexivity].
  - destruct (String.eqb_spec k k2) as [-> | Hne2]; cbn.
    + destruct (String.eqb_spec k' k2); [congruence | reflexivity].
    + rewrite IH. reflexivity.
Qed.

Lemma map_set_length k v m :
  (List.length (map_set k v m) <= S (List.length m))%nat.
Proof.
  induction m as [|[k' v'] m IH]; cbn; [lia|].
  destruct (String.eqb k k'); cbn; lia.
Qed.

Lemma filter_all (f : string * V -> bool) m :
  (forall e, In e m -> f e = true) -> List.filter f m = m.
Proof.
  induction m as [|x m IH]; intros H; cbn; [reflexivity|].
  rewrite (H x (or_introl eq_refl)). f_equal. apply IH.
  intros e He. apply H. now right.
Qed.
End Lookup.

End StoreFacts.

Module StoreProps.
Import Text Js Sessions MapFacts StoreFacts Scenario SessionProps.

(** X9: a session just created can be looked up.  When the store has room
    (fewer than 10,000 sessions, distinct keys) and the cleanup runs within
    the maximum session age of the creation, [getSession] on the new
    identifier returns the session [createSession] returned: active, on
    block 1 of 3, its block not expired until the timeout has passed. *)
Theorem created_session_is_stored (io : CreateInputs) (ip : string)
    (timeout : Z) (sessions : SessionStore) :
  List.NoDup (keys sessions) ->
  map_size sessions < MAX_SESSIONS ->
  cleanupNow io - createdNow io <= SESSION_MAX_AGE_MS ->
  let session := fst (createSession io ip timeout sessions) in
  getSession (snd (createSession io ip timeout sessions)) (sessionId session)
  = Some session
  /\ status session = active
  /\ currentBlock session = 1
  /\ maxBlocks session = 3
  /\ (forall now, now <= createdNow io + timeout ->
        isBlockExpired now session = false).
Proof.
  intros Hnd Hroom Hage session.
  set (stored := map_set (sessionId session) session sessions).
  assert (Hstored : List.NoDup (keys stored)) by (apply map_set_keys; exact Hnd).
  destruct (cleanup_spec (cleanupNow io) stored Hstored)
    as (_ & _ & _ & _ & Hfit).
  change (snd (createSession io ip timeout sessions))
    with (cleanupOldSessions (cleanupNow io) stored).
  split; [|repeat split; try reflexivity].
  - rewrite Hfit.
    + unfold getSession. apply map_get_In; [apply filter_keys; exact Hstored|].
      apply List.filter_In. split.
      * apply map_get_In; [exact Hstored | apply map_get_set_eq].
      * unfold expired, created. cbn [snd sessionCreatedAt session createSession fst].
        apply negb_true_iff. rewrite Z.gtb_ltb. apply Z.ltb_ge. exact Hage.
    + pose proof (List.filter_length_le
                    (fun e => negb (expired (cleanupNow io) e)) stored) as Hf.
      pose proof (map_set_length (sessionId session) session sessions) as Hs.
      fold stored in Hs. unfold map_size, MAX_SESSIONS in *. lia.
  - intros now Hnow. unfold isBlockExpired.
    cbn [session createSession fst blockStartedAt blockTimeoutMs].
    rewrite Z.gtb_ltb. apply Z.ltb_ge. lia.
Qed.

Lemma created_session_is_stored_witness :
  getSession
    (snd (createSession first_inputs "203.0.113.7" 9000
            [("ses_A", stale_session)]))
    (sessionId (fst (createSession first_inputs "203.0.113.7" 9000
                       [("ses_A", stale_session)])))
  = Some (fst (createSession first_inputs "203.0.113.7" 9000
                 [("ses_A", stale_session)])).
Proof.
  refine (proj1 (created_session_is_stored first_inputs "203.0.113.7" 9000
                   [("ses_A", stale_session)] _ _ _)).
  - repeat constructor. simpl. tauto.
  - vm_compute. reflexivity.
  - vm_compute. discriminate.
Defined.

(** X10: [deleteSession] removes the session and nothing else: the
    identifier is no longer found, every other lookup is unchanged,
    deleting again changes nothing, and deleting an unknown identifier
    leaves the store as it is. *)
Theorem deleteSession_removes (id : string) (sessions : SessionStore) :
  List.NoDup (keys sessions) ->
  getSession (deleteSession id sessions) id = None
  /\ (forall other, other <> id ->
        getSession (deleteSession id sessions) other = getSession sessions other)
  /\ deleteSession id (deleteSession id sessions) = deleteSession id sessions
  /\ (getSession sessions id = None -> deleteSession id sessions = sessions).
Proof.
  intros Hnd. unfold getSession, deleteSession.
  assert (Hgone : map_get id (map_delete id sessions) = None)
    by (apply map_get_delete_eq; exact Hnd).
  split; [exact Hgone|]. split; [intros other Hne; apply map_get_delete_ne; exact Hne|].
  split.
  - apply map_delete_absent. apply map_get_None. exact Hgone.
  - intros Hnone. apply map_delete_absent. apply map_get_None. exact Hnone.
Qed.

Lemma deleteSession_removes_witness :
  getSession (deleteSession "ses_A" [("ses_A", stale_session)]) "ses_A" = None.
Proof.
  refine (proj1 (deleteSession_removes "ses_A" [("ses_A", stale_session)] _)).
  repeat constructor. simpl. tauto.
Defined.

(** X11: the session cleanup is idempotent: run again at the same clock
    reading it removes nothing more. *)
Theorem cleanupOldSessions_idempotent (now : Z) (sessions : SessionStore) :
  List.NoDup (keys sessions) ->
  cleanupOldSessions now (cleanupOldSessions now sessions)
  = cleanupOldSessions now sessions.
Proof.
  intros Hnd.
  destruct (cleanup_spec now sessions Hnd) as (Hsize & Hkeys & Hsub & _ & _).
  set (cleaned := cleanupOldSessions now sessions) in *.
  destruct (cleanup_spec now cleaned Hkeys) as (_ & _ & _ & _ & Hfit).
  assert (Hall : List.filter (fun e => negb (expired now e)) cleaned = cleaned).
  { apply filter_all. intros e He. apply Hsub in He.
    apply List.filter_In in He. tauto. }
  rewrite Hall in Hfit. apply Hfit. exact Hsize.
Qed.

Lemma cleanupOldSessions_idempotent_witness :
  cleanupOldSessions 400001
    (cleanupOldSessions 400001 [("ses_A", stale_session)])
  = cleanupOldSessions 400001 [("ses_A", stale_session)].
Proof.
  apply (cleanupOldSessions_idempotent 400001 [("ses_A", stale_session)]).
  repeat constructor. simpl. tauto.
Defined.

End StoreProps.

(** ** The failure log *)

Module LoggerProps.
Import Logger LoggerSpec.

Lemma within_window_all now l :
  Forall (fun ts => now - ts < FAILURE_WINDOW_MS) l -> within_window now l = l.
Proof.
  induction 1 as [|ts l Hts _ IH]; [reflexivity|].
  unfold within_window in *. cbn [List.filter].
  destruct (Z.ltb_spec (now - ts) FAILURE_WINDOW_MS); [|lia]. rewrite IH. reflexivity.
Qed.

Lemma within_window_twice now later l :
  now <= later -> within_window later (within_window now l) = within_window later l.
Proof.
  intros Hle. unfold within_window. induction l as [|ts l IH]; [reflexivity|].
  cbn [List.filter].
  destruct (Z.ltb_spec (now - ts) FAILURE_WINDOW_MS) as [H1 | H1]; cbn [List.filter];
    destruct (Z.ltb_spec (later - ts) FAILURE_WINDOW_MS) as [H2 | H2];
    try rewrite IH; try reflexivity; lia.
Qed.

Lemma logFailure_in_window cfg first now ev ip (tracker : FailureTracker) :
  in_window first (default [] (tracker !! ip)) ->
  first <= now < first + FAILURE_WINDOW_MS ->
  logFailure cfg now ev ip None None tracker
  = (nth_entry cfg ev ip (S (List.length (default [] (tracker !! ip)))),
     <[ip := (default [] (tracker !! ip) ++ [now])%list]> tracker).
Proof.
  intros Hh Hnow. unfold logFailure, trackFailure.
  rewrite within_window_all.
  2:{ eapply List.Forall_impl; [|exact Hh]. cbn. intros ts Hts. lia. }
  cbn [isRepeatOffender failureCount]. unfold nth_entry.
  rewrite List.length_app, Nat.add_1_r. cbn [List.length].
  unfold REPEAT_OFFENDER_THRESHOLD. rewrite Z.geb_leb.
  set (n := Z.of_nat (S (List.length (default [] (tracker !! ip))))).
  destruct (Z.leb_spec 5 n), (Z.ltb_spec n 5); try lia; cbn [negb];
    destruct (shouldLog cfg _); reflexivity.
Qed.

(** X12: failures of one address within one five-minute window are counted
    one by one, none forgotten: the n-th failure on record is reported
    with count n, as a warning up to the fourth and as an error, flagged
    as a repeat offender, from the fifth on (when the logger is enabled
    for that level); the tracker holds every clock reading of the window,
    and the record of no other address changes. *)
Theorem failures_escalate (cfg : LoggerConfig) (first : Z) (times : list Z)
    (ev : FailureEvent) (ip : string) (tracker : FailureTracker) :
  in_window first (default [] (tracker !! ip)) ->
  in_window first times ->
  fst (log_all cfg times ev ip tracker)
  = List.map
      (fun k => nth_entry cfg ev ip (List.length (default [] (tracker !! ip)) + S k))
      (seq 0 (List.length times))
  /\ default [] (snd (log_all cfg times ev ip tracker) !! ip)
     = (default [] (tracker !! ip) ++ times)%list
  /\ (forall other, other <> ip ->
        snd (log_all cfg times ev ip tracker) !! other = tracker !! other).
Proof.
  revert tracker. induction times as [|t times IH]; intros tracker Hh Hw.
  - cbn. rewrite app_nil_r. auto.
  - apply List.Forall_cons_iff in Hw as [Ht Hw]. cbn [log_all].
    rewrite (logFailure_in_window cfg first t ev ip tracker Hh Ht).
    set (history := default [] (tracker !! ip)) in *.
    set (tracker1 := <[ip := (history ++ [t])%list]> tracker).
    assert (H1 : default [] (tracker1 !! ip) = (history ++ [t])%list).
    { unfold tracker1. rewrite lookup_insert_eq. reflexivity. }
    destruct (IH tracker1) as (Hres & Hstore & Hother).
    + rewrite H1. apply List.Forall_app. split; [exact Hh|]. constructor; [exact Ht|constructor].
    + exact Hw.
    + destruct (log_all cfg times ev ip tracker1) as [entries tracker2].
      cbn [fst snd] in *. rewrite H1 in *. split; [|split].
      * cbn [List.length seq List.map]. f_equal; [f_equal; lia|].
        rewrite Hres, <- List.seq_shift, List.map_map.
        apply List.map_ext. intros k. rewrite List.length_app. cbn [List.length].
        f_equal. lia.
      * rewrite Hstore, <- List.app_assoc. reflexivity.
      * intros other Hne. rewrite Hother by exact Hne.
        unfold tracker1. apply lookup_insert_ne. congruence.
Qed.

Lemma failures_escalate_witness :
  List.map (option_map entryLevel)
    (fst (log_all {| enabled := true; level := info |}
            [1000; 2000; 3000; 4000; 5000; 6000] rate_limit_exceeded
            "203.0.113.7" ∅))
  = [Some warn; Some warn; Some warn; Some warn; Some error; Some error].
Proof.
  refine (eq_trans
            (f_equal (List.map (option_map entryLevel))
               (proj1 (failures_escalate {| enabled := true; level := info |} 1000
                         [1000; 2000; 3000; 4000; 5000; 6000] rate_limit_exceeded
                         "203.0.113.7" ∅ _ _))) _).
  - rewrite lookup_empty. constructor.
  - repeat constructor; unfold FAILURE_WINDOW_MS; lia.
  - reflexivity.
Defined.

(** X13: the periodic cleanup of the failure tracker is not observable:
    it keeps, for every address, exactly the failures of the last five
    minutes (dropping the address when none is left), and a failure
    tracked at or after the cleanup gets the count it would have got
    without the cleanup. *)
Theorem cleanup_keeps_counts (now : Z) (tracker : FailureTracker) :
  (forall ip,
     default [] (cleanupFailureTracker now tracker !! ip)
     = within_window now (default [] (tracker !! ip)))
  /\ (forall ip recent, cleanupFailureTracker now tracker !! ip = Some recent ->
        recent <> [])
  /\ (forall later ip, now <= later ->
        fst (trackFailure later ip (cleanupFailureTracker now tracker))
        = fst (trackFailure later ip tracker)).
Proof.
  assert (Hlook : forall ip,
            default [] (cleanupFailureTracker now tracker !! ip)
            = within_window now (default [] (tracker !! ip))).
  { intros ip. unfold cleanupFailureTracker. rewrite lookup_omap.
    destruct (tracker !! ip) as [l|]; cbn -[within_window]; [|reflexivity].
    destruct (within_window now l) eqn:E; reflexivity. }
  split; [exact Hlook|]. split.
  - intros ip recent. unfold cleanupFailureTracker. rewrite lookup_omap.
    destruct (tracker !! ip) as [l|]; cbn -[within_window]; [|discriminate].
    destruct (within_window now l) eqn:E; cbn; [discriminate|].
    intros H. injection H as <-. discriminate.
  - intros later ip Hle. unfold trackFailure. cbn [fst].
    rewrite Hlook, within_window_twice by exact Hle. reflexivity.
Qed.

End LoggerProps.

(** ** WebSocket connection counters *)

Module ConnectionProps.
Import Routes ConnectionSpec.

Lemma peer_of_address ip :
  (String.length ip =? 0)%nat = false -> peer (Some ip) = ip.
Proof. intros H. unfold peer. rewrite H. reflexivity. Qed.

Lemma ws_open_counted clientIp conns : counted conns -> counted (ws_open clientIp conns).
Proof.
  intros [Htot Hper]. destruct conns as [total per].
  cbn [totalConnections connectionsPerIp] in *.
  unfold ws_open, connections_of. cbn [totalConnections connectionsPerIp].
  set (ip := peer clientIp).
  split; [cbn; lia|]. intros ip' c'. cbn.
  destruct (decide (ip = ip')) as [<- | Hne].
  - rewrite lookup_insert_eq. intros E. injection E as <-.
    destruct (per !! ip) as [c|] eqn:Hc; cbn; [pose proof (Hper ip c Hc)|]; lia.
  - rewrite lookup_insert_ne by exact Hne. apply Hper.
Qed.

Lemma ws_close_counted clientIp conns : counted conns -> counted (ws_close clientIp conns).
Proof.
  intros [Htot Hper]. destruct conns as [total per].
  cbn [totalConnections connectionsPerIp] in *.
  unfold ws_close, connections_of. cbn [totalConnections connectionsPerIp].
  set (ip := peer clientIp).
  split; [cbn; lia|]. intros ip' c'. cbn.
  destruct (per !! ip) as [c|] eqn:Hc; cbn [default from_option id].
  - destruct (Z.leb_spec c 1).
    + intros H'. apply lookup_delete_Some in H' as [_ H']. apply (Hper _ _ H').
    + destruct (decide (ip = ip')) as [<- | Hne].
      * rewrite lookup_insert_eq. intros E. injection E as <-. lia.
      * rewrite lookup_insert_ne by exact Hne. apply Hper.
  - cbn. intros H'. apply lookup_delete_Some in H' as [_ H']. apply (Hper _ _ H').
Qed.

(** X14: a socket that is opened and closed again leaves the connection
    counters exactly as they were, and both handlers keep the counters
    well formed (a total that is not negative, no address with a count
    below one: an address whose last socket closes is removed). *)
Theorem open_then_close_restores (clientIp : option string) (conns : Connections) :
  counted conns ->
  ws_close clientIp (ws_open clientIp conns) = conns
  /\ counted (ws_open clientIp conns)
  /\ counted (ws_close clientIp conns).
Proof.
  intros Hc. split; [|split; [apply ws_open_counted | apply ws_close_counted]; exact Hc].
  destruct Hc as [Htot Hper]. destruct conns as [total per].
  cbn [totalConnections connectionsPerIp] in *.
  unfold ws_close, ws_open, connections_of. cbn [totalConnections connectionsPerIp].
  set (ip := peer clientIp).
  rewrite lookup_insert_eq. cbn [default from_option id].
  f_equal; [lia|].
  destruct (per !! ip) as [c|] eqn:Hc; cbn [default from_option id].
  - pose proof (Hper ip c Hc).
    destruct (Z.leb_spec (c + 1) 1); [lia|].
    rewrite insert_insert_eq. replace (c + 1 - 1) with c by lia.
    apply insert_id. exact Hc.
  - cbn. apply delete_insert_id. exact Hc.
Qed.

Lemma open_then_close_restores_witness :
  ws_close (Some "203.0.113.7")
    (ws_open (Some "203.0.113.7")
       {| totalConnections := 0; connectionsPerIp := ∅ |})
  = {| totalConnections := 0; connectionsPerIp := ∅ |}.
Proof.
  apply (open_then_close_restores (Some "203.0.113.7")
           {| totalConnections := 0; connectionsPerIp := ∅ |}).
  split; [cbn; lia|]. intros ip c H. cbn in H. rewrite lookup_empty in H. discriminate.
Defined.

Lemma socket_step_limits conns ev :
  (String.length (address ev) =? 0)%nat = false ->
  counted conns -> within_limits conns ->
  counted (socket_step conns ev) /\ within_limits (socket_step conns ev).
Proof.
  intros Hip Hc Hl. destruct ev as [ip | ip]; cbn [socket_step address] in *.
  - unfold upgrade_check.
    destruct (Z.geb_spec (totalConnections conns) MAX_TOTAL_CONNECTIONS) as [H1 | H1];
      [auto|].
    destruct (Z.geb_spec (connections_of conns ip) MAX_CONNECTIONS_PER_IP) as [H2 | H2];
      [auto|].
    split; [apply ws_open_counted, Hc|].
    destruct Hl as [Htot Hper]. unfold ws_open. rewrite (peer_of_address ip Hip).
    split; [cbn; lia|]. intros ip'. unfold connections_of at 1. cbn [connectionsPerIp].
    destruct (decide (ip = ip')) as [<- | Hne].
    + rewrite lookup_insert_eq. cbn. lia.
    + rewrite lookup_insert_ne by exact Hne. apply Hper.
  - split; [apply ws_close_counted, Hc|].
    destruct Hl as [Htot Hper]. destruct Hc as [Hc0 Hc1].
    unfold ws_close. rewrite (peer_of_address ip Hip).
    split; [cbn; unfold MAX_TOTAL_CONNECTIONS in *; lia|].
    intros ip'. unfold connections_of at 1. cbn [connectionsPerIp].
    pose proof (Hper ip) as Hip1. pose proof (Hper ip') as Hip2.
    destruct (Z.leb_spec (connections_of conns ip) 1).
    + destruct (decide (ip = ip')) as [<- | Hne].
      * rewrite lookup_delete_eq. cbn. unfold MAX_CONNECTIONS_PER_IP. lia.
      * rewrite lookup_delete_ne by exact Hne. exact Hip2.
    + destruct (decide (ip = ip')) as [<- | Hne].
      * rewrite lookup_insert_eq. cbn. lia.
      * rewrite lookup_insert_ne by exact Hne. exact Hip2.
Qed.

(** X15: the connection limits hold at all times.  Starting from counters
    within the limits, after any sequence of upgrade requests (each
    followed by the opening of the socket when the checks allow it) and
    closings, from addresses that are not empty, there are never more
    than 1000 connections counted in total nor more than 10 for one
    address. *)
Theorem connection_limits_hold (events : list SocketEvent) (conns : Connections) :
  Forall (fun ev => (String.length (address ev) =? 0)%nat = false) events ->
  counted conns -> within_limits conns ->
  totalConnections (fold_left socket_step events conns) <= MAX_TOTAL_CONNECTIONS
  /\ (forall ip, connections_of (fold_left socket_step events conns) ip
                 <= MAX_CONNECTIONS_PER_IP)
  /\ counted (fold_left socket_step events conns).
Proof.
  revert conns. induction events as [|ev events IH]; intros conns Hev Hc Hl.
  - cbn. destruct Hl. auto.
  - apply List.Forall_cons_iff in Hev as [Hip Hev]. cbn [fold_left].
    destruct (socket_step_limits conns ev Hip Hc Hl) as [Hc' Hl'].
    apply IH; assumption.
Qed.

Lemma connection_limits_hold_witness :
  connections_of
    (fold_left socket_step (repeat (Connects "203.0.113.7") 12)
       {| totalConnections := 0; connectionsPerIp := ∅ |})
    "203.0.113.7"
  <= MAX_CONNECTIONS_PER_IP.
Proof.
  refine (proj1 (proj2 (connection_limits_hold
            (repeat (Connects "203.0.113.7") 12)
            {| totalConnections := 0; connectionsPerIp := ∅ |} _ _ _))
            "203.0.113.7").
  - repeat constructor.
  - split; [cbn; lia|]. intros ip c H. cbn in H. rewrite lookup_empty in H. discriminate.
  - split; [cbn; unfold MAX_TOTAL_CONNECTIONS; lia|]. intros ip.
    unfold connections_of. cbn. rewrite lookup_empty. cbn.
    unfold MAX_CONNECTIONS_PER_IP. lia.
Defined.

End ConnectionProps.

(** ** Cleanup of the rate-limit stores *)

Module RateExtras.
Import RateLimit RateSpec DoubleFacts RateProps.


(** One bucket through the cleanup, for a clock that does not go back. *)
Lemma sweep_store_lookup (now : Z) (reads : string -> Z) (store : BucketStore)
    (ip : string) :
  now <= reads ip ->
  sweep_store now reads store !! ip
  = option_map (fun b => refillBucket (reads ip) b RATE_LIMITS_challenge)
      (store !! ip).
Proof.
  intros Hclock. unfold sweep_store. rewrite map_lookup_imap.
  destruct (store !! ip) as [b|]; [|reflexivity]. cbn [option_map mbind option_bind].
  cbn [refillBucket lastRefill].
  destruct (Z.gtb_spec (now - reads ip) staleThreshold) as [Hs | Hs].
  - unfold staleThreshold in Hs. lia.
  - rewrite andb_false_r. reflexivity.
Qed.

(** X16: the periodic cleanup of the rate-limit stores.  Each bucket is
    refilled, which sets its [lastRefill] to the clock reading of that
    moment, before its staleness is tested against the reading taken at
    the start of the cleanup; so with a clock that does not go back no
    bucket is ever removed: both stores keep all their addresses, each
    bucket refilled with the challenge configuration. *)
Theorem cleanup_never_evicts (now : Z) (reads : string -> Z)
    (challengeStore submitStore : BucketStore) :
  (forall ip, now <= reads ip) ->
  forall ip,
    fst (cleanupRateLimitStores now reads challengeStore submitStore) !! ip
    = option_map (fun b => refillBucket (reads ip) b RATE_LIMITS_challenge)
        (challengeStore !! ip)
    /\ snd (cleanupRateLimitStores now reads challengeStore submitStore) !! ip
       = option_map (fun b => refillBucket (reads ip) b RATE_LIMITS_challenge)
           (submitStore !! ip).
Proof.
  intros Hclock ip. cbn [cleanupRateLimitStores fst snd].
  split; apply sweep_store_lookup, Hclock.
Qed.

Lemma cleanup_never_evicts_witness :
  fst (cleanupRateLimitStores 1000000 (fun _ => 1000000)
         (<["203.0.113.7" := {| tokens := Double.of_Z 10; lastRefill := 0 |}]> ∅) ∅)
    !! "203.0.113.7"
  = Some {| tokens := Double.of_Z 10; lastRefill := 1000000 |}.
Proof.
  rewrite (proj1 (cleanup_never_evicts 1000000 (fun _ => 1000000)
             (<["203.0.113.7" := {| tokens := Double.of_Z 10; lastRefill := 0 |}]> ∅)
             ∅ ltac:(intros; lia) "203.0.113.7")).
  vm_compute. reflexivity.
Defined.

(** X17: the cleanup refills the buckets of the submit store with the
    configuration of the challenge store: whatever a submit bucket held
    (up to its capacity of 30), after a cleanup it holds at most 10
    tokens. *)
Theorem cleanup_caps_submit_buckets (now : Z) (reads : string -> Z)
    (challengeStore submitStore : BucketStore) (since : Z) :
  store_within_bounds RATE_LIMITS_submit since submitStore ->
  (forall ip, now <= reads ip /\ since <= reads ip < 2 ^ 53) ->
  forall ip b,
    snd (cleanupRateLimitStores now reads challengeStore submitStore) !! ip = Some b ->
    Double.geb (Double.of_Z 10) (tokens b) = true
    /\ Double.geb (tokens b) Double.zero = true.
Proof.
  intros Hstore Hclock ip b Hb.
  destruct (Hclock ip) as [Hnow Hread].
  cbn [cleanupRateLimitStores snd] in Hb.
  rewrite (sweep_store_lookup now reads submitStore ip Hnow) in Hb.
  destruct (submitStore !! ip) as [b0|] eqn:Hb0; [|discriminate].
  injection Hb as <-. destruct (Hstore ip b0 Hb0) as [Hw Hl].
  assert (Hmax30 : Double.regular (maxTokens RATE_LIMITS_submit))
    by (vm_compute; split; [reflexivity | discriminate]).
  destruct (within_bounds_regular _ _ Hmax30 Hw) as [Hr _].
  assert (Hmax10 : Double.regular (maxTokens RATE_LIMITS_challenge))
    by (vm_compute; split; [reflexivity | discriminate]).
  assert (Hrate : Double.regular (refillRate RATE_LIMITS_challenge))
    by (vm_compute; split; [reflexivity | discriminate]).
  destruct (refilled_capped RATE_LIMITS_challenge (reads ip) b0 Hmax10 Hrate Hr
              ltac:(lia)) as [Hreg Hu].
  change (tokens (refillBucket (reads ip) b0 RATE_LIMITS_challenge))
    with (refilled RATE_LIMITS_challenge (reads ip) b0).
  split.
  - apply (leb_regular _ _ Hreg Hmax10). exact Hu.
  - apply zero_le_regular, Hreg.
Qed.

Lemma cleanup_caps_submit_buckets_witness :
  option_map tokens
    (snd (cleanupRateLimitStores 5000 (fun _ => 5000) ∅
            (<["203.0.113.7" := {| tokens := Double.of_Z 30; lastRefill := 4000 |}]> ∅))
       !! "203.0.113.7")
  = Some (Double.of_Z 10)
  /\ Double.geb (Double.of_Z 10) (Double.of_Z 10) = true.
Proof.
  split; [vm_compute; reflexivity|].
  refine (proj1 (cleanup_caps_submit_buckets 5000 (fun _ => 5000) ∅
            (<["203.0.113.7" := {| tokens := Double.of_Z 30; lastRefill := 4000 |}]> ∅)
            4000 _ _ "203.0.113.7"
            {| tokens := Double.of_Z 10; lastRefill := 5000 |} _)).
  - intros ip b H. destruct (decide (ip = "203.0.113.7")) as [-> | Hne].
    + rewrite lookup_insert_eq in H. injection H as <-.
      split; [|cbn; lia]. repeat split; reflexivity.
    + rewrite lookup_insert_ne, lookup_empty in H by congruence. discriminate.
  - intros ip. lia.
  - vm_compute. reflexivity.
Defined.

End RateExtras.

(** ** The single-shot challenge store *)

Module EvictionFacts.
Import Js MapFacts.

Section Capped.
Context {V : Type} (keep : string * V -> bool) (age : string * V -> Z) (limit : Z).
Implicit Types (m : list (string * V)) (e : string * V).

Lemma fold_delete_spec (victims : list (string * V)) : forall m,
  List.NoDup (keys m) -> List.NoDup (keys victims) -> incl victims m ->
  (List.length (fold_left (fun m e => map_delete (fst e) m) victims m)
   + List.length victims = List.length m)%nat
  /\ List.NoDup (keys (fold_left (fun m e => map_delete (fst e) m) victims m))
  /\ forall e, In e (fold_left (fun m e => map_delete (fst e) m) victims m)
               <-> In e m /\ ~ In (fst e) (keys victims).
Proof.
  induction victims as [|v vs IH]; intros m Hm Hvs Hincl.
  - cbn. split; [lia|]. split; [exact Hm|]. intros e. tauto.
  - cbn in Hvs. apply List.NoDup_cons_iff in Hvs as [Hv Hvs].
    assert (Hvm : In v m) by (apply Hincl; now left).
    assert (Hincl' : incl vs (map_delete (fst v) m)).
    { intros e He. apply map_delete_In; [exact Hm|]. split.
      - apply Hincl. now right.
      - intros Hk. apply Hv. rewrite <- Hk. apply List.in_map. exact He. }
    destruct (IH (map_delete (fst v) m) (map_delete_keys _ _ Hm) Hvs Hincl')
      as (Hlen & Hnd & Hin).
    cbn [fold_left].
    pose proof (map_delete_length (fst v) m (List.in_map fst _ _ Hvm)) as Hdel.
    split; [cbn [List.length]; lia|]. split; [exact Hnd|].
    intros e. rewrite Hin, (map_delete_In _ _ _ Hm). cbn. split.
    + intros [[He Hk] Hn]. split; [exact He|]. intros [E | H]; auto.
    + intros [He Hn]. repeat split; auto.
Qed.

(** Filtering, then deleting the oldest entries above a limit. *)
Lemma capped_cleanup_spec m :
  0 <= limit -> List.NoDup (keys m) ->
  let kept := List.filter keep m in
  let m' :=
    if map_size kept >? limit then
      fold_left (fun m e => map_delete (fst e) m)
        (firstn (Z.to_nat (map_size kept - limit)) (sort_by age kept)) kept
    else kept in
  map_size m' = Z.min (map_size kept) limit
  /\ List.NoDup (keys m')
  /\ (forall e, In e m' -> In e kept)
  /\ (forall e k, In e kept -> ~ In e m' -> In k m' -> age e <= age k)
  /\ (map_size kept <= limit -> m' = kept).
Proof.
  intros Hlimit Hm kept m'. subst m'.
  assert (Hu : List.NoDup (keys kept)) by (apply filter_keys; exact Hm).
  destruct (Z.gtb_spec (map_size kept) limit) as [Hover | Hfits].
  - set (sorted := sort_by age kept).
    set (k := Z.to_nat (map_size kept - limit)).
    pose proof (sort_by_perm age kept) as Hperm. fold sorted in Hperm.
    assert (Hsk : List.NoDup (keys sorted)).
    { unfold keys. eapply Permutation_NoDup; [|exact Hu].
      apply Permutation_map. symmetry. exact Hperm. }
    assert (Hvictims : incl (firstn k sorted) kept).
    { intros e He. apply (Permutation_in _ Hperm).
      rewrite <- (List.firstn_skipn k sorted). apply List.in_or_app. now left. }
    assert (Hvk : List.NoDup (keys (firstn k sorted))).
    { unfold keys in *. rewrite <- (List.firstn_skipn k sorted), List.map_app in Hsk.
      apply List.NoDup_app_remove_r in Hsk. exact Hsk. }
    destruct (fold_delete_spec (firstn k sorted) kept Hu Hvk Hvictims)
      as (Hlen & Hnd & Hin).
    assert (Hk : List.length (firstn k sorted) = k).
    { apply List.firstn_length_le.
      rewrite (Permutation_length Hperm). unfold k, map_size in *. lia. }
    split; [|split; [exact Hnd|split; [|split]]].
    + unfold map_size in *. unfold k in *. lia.
    + intros e He. apply Hin in He. tauto.
    + intros e kept' He Hgone Hkept.
      apply (sorted_prefix_le age sorted k); [apply sort_by_sorted | |].
      * destruct (in_dec string_dec (fst e) (keys (firstn k sorted))) as [Hv | Hv].
        -- unfold keys in Hv. apply List.in_map_iff in Hv as (v & Hfst & Hv).
           rewrite (key_determines kept e v Hu He (Hvictims v Hv)); auto.
        -- exfalso. apply Hgone. apply Hin. tauto.
      * apply Hin in Hkept as [Hkept Hnot].
        apply (Permutation_in _ (Permutation_sym Hperm)) in Hkept.
        rewrite <- (List.firstn_skipn k sorted) in Hkept.
        apply List.in_app_or in Hkept as [Hkept | Hkept]; [|exact Hkept].
        exfalso. apply Hnot. apply List.in_map. exact Hkept.
    + intros Hfits. lia.
  - split; [lia|]. split; [exact Hu|]. split; [auto|].
    split; [intros e k He Hgone; contradiction | reflexivity].
Qed.
End Capped.

End EvictionFacts.

Module ChallengeProps.
Import Text Js Coherent Challenges MapFacts EvictionFacts StoreFacts Scenario
  ChallengeScenario.

(** X18: the store of single-shot challenges is bounded by its cleanup.
    Of the stored challenges, the live ones are those whose expiry is not
    before the cleanup time.  After [cleanupChallenges] the store holds
    exactly the live challenges if there are at most 10,000 of them and
    exactly 10,000 of them otherwise, never an expired one; a live
    challenge is missing only if there were more than 10,000, and then it
    was created no later than any challenge kept. *)
Theorem cleanupChallenges_bounded (now : Z) (store : ChallengeStore) :
  List.NoDup (keys store) ->
  let live := List.filter (fun e => now <=? expiresAt (snd e)) store in
  let after := cleanupChallenges now store in
  map_size after = Z.min (map_size live) MAX_CHALLENGES
  /\ List.NoDup (keys after)
  /\ (forall e, In e after -> In e store /\ now <= expiresAt (snd e))
  /\ (forall e, In e store -> expiresAt (snd e) < now -> ~ In e after)
  /\ (forall e kept, In e store -> now <= expiresAt (snd e) ->
        ~ In e after -> In kept after ->
        MAX_CHALLENGES < map_size live
        /\ createdAt (snd e) <= createdAt (snd kept))
  /\ (map_size live <= MAX_CHALLENGES -> after = live).
Proof.
  intros Hnd live after.
  assert (Hlive : live = List.filter (fun e => negb (stale now e)) store).
  { apply List.filter_ext. intros e. unfold stale. rewrite Z.leb_antisym. reflexivity. }
  destruct (capped_cleanup_spec (fun e => negb (stale now e)) made MAX_CHALLENGES store
              ltac:(unfold MAX_CHALLENGES; lia) Hnd)
    as (Hsize & Hkeys & Hsub & Hold & Hfit).
  change (if map_size (List.filter (fun e => negb (stale now e)) store)
             >? MAX_CHALLENGES then _ else _) with after in *.
  rewrite <- Hlive in *.
  assert (Hage : forall e, In e live <-> In e store /\ now <= expiresAt (snd e)).
  { intros e. unfold live. rewrite List.filter_In, Z.leb_le. tauto. }
  split; [exact Hsize|]. split; [exact Hkeys|].
  split; [|split; [|split; [|exact Hfit]]].
  - intros e He. apply Hage, Hsub, He.
  - intros e He Hpast Hin. apply Hsub, Hage in Hin. lia.
  - intros e kept He Hyoung Hgone Hkept. split.
    + destruct (Z_lt_le_dec MAX_CHALLENGES (map_size live)) as [H | H]; [exact H|].
      exfalso. apply Hgone. unfold after in *. rewrite (Hfit H).
      apply Hage. split; assumption.
    + apply (Hold e kept); [apply Hage; split; assumption | exact Hgone | exact Hkept].
Qed.

Lemma challenge_crowd_distinct : List.NoDup (keys challenge_crowd).
Proof.
  unfold keys, challenge_crowd. rewrite List.map_map. cbn [challenge_crowd_member fst].
  apply NoDup_ListNoDup, (NoDup_fmap_2 pretty), NoDup_ListNoDup, List.seq_NoDup.
Qed.

(** 10,001 live challenges: exactly 10,000 are left. *)
Lemma cleanupChallenges_bounded_witness :
  map_size (cleanupChallenges 20000 challenge_crowd) = MAX_CHALLENGES.
Proof.
  pose proof (cleanupChallenges_bounded 20000 challenge_crowd
                challenge_crowd_distinct) as H.
  cbv zeta in H. destruct H as (H & _). rewrite H.
  vm_compute. reflexivity.
Defined.

End ChallengeProps.

Module ChallengeFlow.
Import Text Js Coherent Challenges MapFacts StoreFacts Scenario ChallengeScenario.

(** X19: a stored challenge is verified at most once.  When [verifyAnswer]
    succeeds, the challenge was stored, not yet verified and not past its
    expiry, the answer was a text that [verifyCoherent] accepts, and the
    store afterwards holds the challenge marked as verified; from then on
    every call for the same identifier, at any time and with any answer,
    is refused as already verified, changes nothing and verifies
    nothing. *)
Theorem verified_challenge_is_spent (now : Z) (w : World) (id : string)
    (answer : option string) (store after : ChallengeStore)
    (result : VerifyResult) (events : list Event) :
  verifyAnswer now w id answer store = (Some result, after, events) ->
  success result = true ->
  (exists ch text,
      map_get id store = Some ch /\ verified ch = false /\ now <= expiresAt ch
      /\ answer = Some text
      /\ valid (fst (verifyCoherent w (data ch) {| sentence := Some text |})) = true
      /\ after = map_set id (mark_verified ch) store)
  /\ (forall now' w' answer',
        verifyAnswer now' w' id answer' after
        = (Some (failure "Challenge already verified"), after, [])).
Proof.
  unfold verifyAnswer. intros Hrun Hok.
  destruct (map_get id store) as [ch|] eqn:Hget.
  2:{ injection Hrun as <- <- <-. discriminate. }
  destruct (verified ch) eqn:Hver.
  { injection Hrun as <- <- <-. discriminate. }
  destruct (Z.gtb_spec now (expiresAt ch)) as [Hlate | Hfresh].
  { injection Hrun as <- <- <-. discriminate. }
  destruct answer as [text|]; [|discriminate].
  destruct (verifyCoherent w (data ch) {| sentence := Some text |}) as [res evs] eqn:Hv.
  destruct (valid res) eqn:Hvalid; cbn [negb] in Hrun.
  2:{ injection Hrun as <- <- <-. discriminate. }
  injection Hrun as <- <- <-. split.
  - exists ch, text. rewrite Hv. cbn [fst]. repeat split; auto.
  - intros now' w' answer'. rewrite map_get_set_eq. reflexivity.
Qed.

Lemma verified_challenge_is_spent_witness :
  fst (fst (verifyAnswer 2000 no_oracle "ch_A" (Some good_answer) one_challenge))
  = Some {| success := true; error := None |}
  /\ fst (fst (verifyAnswer 2001 no_oracle "ch_A" (Some good_answer)
                 (snd (fst (verifyAnswer 2000 no_oracle "ch_A" (Some good_answer)
                              one_challenge)))))
     = Some (failure "Challenge already verified").
Proof.
  split; [vm_compute; reflexivity|].
  refine (f_equal (fun x => fst (fst x))
            (proj2 (verified_challenge_is_spent 2000 no_oracle "ch_A"
                      (Some good_answer) one_challenge
                      (snd (fst (verifyAnswer 2000 no_oracle "ch_A"
                                   (Some good_answer) one_challenge)))
                      {| success := true; error := None |}
                      (snd (verifyAnswer 2000 no_oracle "ch_A"
                              (Some good_answer) one_challenge)) _ _)
               2001 no_oracle (Some good_answer))).
  - vm_compute. reflexivity.
  - reflexivity.
Defined.

(** X20: a generated challenge can be fetched under its identifier up to
    and including its expiry time, and is then returned as generated with
    the store unchanged; fetched later it is not returned and is removed
    from the store, every other challenge staying where it was. *)
Theorem generated_challenge_round_trip (io : GenerateInputs)
    (config : Token.Config) (ip : option string) (store : ChallengeStore)
    (now : Z) :
  List.NoDup (keys store) ->
  let ch := fst (generateChallenge io config ip store) in
  let stored := snd (generateChallenge io config ip store) in
  (now <= expiresAt ch ->
     getChallenge now (challengeId ch) stored = (Some ch, stored))
  /\ (expiresAt ch < now ->
     fst (getChallenge now (challengeId ch) stored) = None
     /\ map_get (challengeId ch) (snd (getChallenge now (challengeId ch) stored)) = None
     /\ forall other, other <> challengeId ch ->
          map_get other (snd (getChallenge now (challengeId ch) stored))
          = map_get other store).
Proof.
  intros Hnd ch stored. subst ch stored.
  unfold generateChallenge, generateChallengeOfType, getChallenge.
  cbn [fst snd challengeId expiresAt]. rewrite map_get_set_eq.
  cbn [expiresAt]. split.
  - intros Hfresh.
    match goal with |- context [?a >? ?b] => destruct (Z.gtb_spec a b) end;
      [lia | reflexivity].
  - intros Hlate.
    match goal with |- context [?a >? ?b] => destruct (Z.gtb_spec a b) end; [|lia].
    cbn [fst snd]. split; [reflexivity|]. split.
    + apply map_get_delete_eq. apply map_set_keys. exact Hnd.
    + intros other Hne. rewrite map_get_delete_ne, map_get_set_ne by exact Hne.
      reflexivity.
Qed.

Lemma generated_challenge_round_trip_witness :
  let io := {| idNow := 1000; idBytes := fun i => Z.of_nat i; createdNow := 1000;
               entropy := whisper_entropy |} in
  let ch := fst (generateChallenge io test_config None one_challenge) in
  fst (getChallenge 10000 (challengeId ch)
         (snd (generateChallenge io test_config None one_challenge))) = Some ch
  /\ fst (getChallenge 10001 (challengeId ch)
            (snd (generateChallenge io test_config None one_challenge))) = None.
Proof.
  intros io ch.
  assert (Hnd : List.NoDup (keys one_challenge)).
  { repeat constructor. intros []. }
  split.
  - refine (f_equal fst
              (proj1 (generated_challenge_round_trip io test_config None
                        one_challenge 10000 Hnd) _)).
    vm_compute. discriminate.
  - refine (proj1 (proj2 (generated_challenge_round_trip io test_config None
                            one_challenge 10001 Hnd) _)).
    vm_compute. reflexivity.
Defined.

End ChallengeFlow.

Module SubmitProps.
Import Text Js Coherent Challenges Server Routes MapFacts StoreFacts Scenario
  ChallengeScenario.

Lemma getChallenge_absent now k (store : ChallengeStore) :
  map_get k store = None -> getChallenge now k store = (None, store).
Proof. unfold getChallenge. intros ->. reflexivity. Qed.

(** X21: the single-shot flow gives at most one token per challenge.
    When [/submit] answers with a success, the body named a stored
    challenge that was not past its expiry; the token returned is stored
    with that challenge's identifier, the caller's address and the
    configured lifetime; the challenge is gone from the store and no other
    challenge is touched; and every later submission that names the same
    challenge and carries an answer is answered with "Challenge not found
    or expired". *)
Theorem submit_consumes_challenge (config : Token.Config)
    (logger : Logger.LoggerConfig) (w : World) (io : SubmitInputs)
    (ip : string) (id answer : JsValue) (st after : SubmitState)
    (issued : option string) (err : option string) (events : list Event)
    (entry : option Logger.FailureLogEntry) :
  List.NoDup (keys (challenges st)) ->
  submit config logger w io ip (Fields id answer) st
  = (SubmitResult true issued err, after, events, entry) ->
  exists k ch,
    id = JsString k
    /\ map_get k (challenges st) = Some ch
    /\ getNow io <= expiresAt ch /\ verifyNow io <= expiresAt ch
    /\ issued = Some (Token.generateTokenString (issueBytes io))
    /\ tokens after !! Token.generateTokenString (issueBytes io)
       = Some {| Token.token := Token.generateTokenString (issueBytes io);
                 Token.challengeId := k;
                 Token.issuedAt := issueNow io;
                 Token.expiresAt := issueNow io + Token.tokenExpiryMs config;
                 Token.clientIp := Some ip |}
    /\ map_get k (challenges after) = None
    /\ (forall other, other <> k ->
          map_get other (challenges after) = map_get other (challenges st))
    /\ failures after = failures st
    /\ (forall config' logger' w' io' ip' answer',
          is_undefined answer' = false ->
          fst (fst (fst (submit config' logger' w' io' ip' (Fields id answer') after)))
          = SubmitNotFound "Challenge not found or expired").
Proof.
  intros Hnd Hrun. unfold submit in Hrun.
  destruct (falsy id || is_undefined answer) eqn:Hguard; [discriminate|].
  apply orb_false_iff in Hguard as [Hid Hans].
  destruct id as [| |k|truthy]; try discriminate.
  2:{ (* a truthy value that is no string finds nothing *)
      destruct (Logger.logFailure _ _ _ _ _ _ _); discriminate. }
  unfold getChallenge in Hrun.
  destruct (map_get k (challenges st)) as [ch|] eqn:Hget.
  2:{ destruct (Logger.logFailure _ _ _ _ _ _ _); discriminate. }
  destruct (Z.gtb_spec (getNow io) (expiresAt ch)) as [Hlate | Hfresh].
  { destruct (Logger.logFailure _ _ _ _ _ _ _); discriminate. }
  destruct (verifyAnswer (verifyNow io) w k (answer_text answer) (challenges st))
    as [[result store'] evs] eqn:Hverify.
  destruct result as [result|]; [|discriminate].
  destruct (success result) eqn:Hsuccess; [|discriminate].
  cbn in Hrun. injection Hrun as <- <- <- <- <-.
  unfold verifyAnswer in Hverify. rewrite Hget in Hverify.
  destruct (verified ch) eqn:Hver.
  { injection Hverify as <- <- <-. discriminate. }
  destruct (Z.gtb_spec (verifyNow io) (expiresAt ch)) as [Hlate | Hfresh'].
  { injection Hverify as <- <- <-. discriminate. }
  destruct (answer_text answer) as [text|]; [|discriminate].
  destruct (verifyCoherent w (data ch) {| sentence := Some text |}) as [res es].
  destruct (valid res); cbn [negb] in Hverify.
  2:{ injection Hverify as <- <- <-. discriminate. }
  injection Hverify as <- <- <-.
  assert (Hgone : map_get k (map_delete k (map_set k (mark_verified ch) (challenges st)))
                  = None).
  { apply map_get_delete_eq, map_set_keys, Hnd. }
  exists k, ch. cbn [challenges tokens failures].
  split; [reflexivity|]. split; [exact Hget|]. split; [exact Hfresh|].
  split; [exact Hfresh'|]. split; [reflexivity|].
  split; [apply lookup_insert_eq|]. split; [exact Hgone|].
  split; [|split; [reflexivity|]].
  - intros other Hne. rewrite map_get_delete_ne, map_get_set_ne by exact Hne.
    reflexivity.
  - intros config' logger' w' io' ip' answer' Hdef. unfold submit.
    rewrite Hid, Hdef. cbn [orb challenges].
    rewrite (getChallenge_absent _ _ _ Hgone).
    destruct (Logger.logFailure _ _ _ _ _ _ _). reflexivity.
Qed.

Lemma submit_consumes_challenge_witness :
  let first :=
    submit test_config default_logger no_oracle prompt_inputs "203.0.113.7"
      (Fields (JsString "ch_A") (JsString good_answer)) one_open in
  fst (fst (fst first))
  = SubmitResult true (Some (Token.generateTokenString (fun i => Z.of_nat i))) None
  /\ fst (fst (fst (submit test_config default_logger no_oracle prompt_inputs
                      "203.0.113.7"
                      (Fields (JsString "ch_A") (JsString good_answer))
                      (snd (fst (fst first))))))
     = SubmitNotFound "Challenge not found or expired".
Proof.
  intros first. split; [vm_compute; reflexivity|].
  assert (Hnd : List.NoDup (keys (challenges one_open))).
  { repeat constructor. intros []. }
  destruct (submit_consumes_challenge test_config default_logger no_oracle
              prompt_inputs "203.0.113.7" (JsString "ch_A") (JsString good_answer)
              one_open (snd (fst (fst first)))
              (Some (Token.generateTokenString (fun i => Z.of_nat i))) None
              (snd (fst first)) (snd first) Hnd)
    as (k & ch & _ & _ & _ & _ & _ & _ & _ & _ & _ & Hnext).
  - vm_compute. reflexivity.
  - apply Hnext. reflexivity.
Defined.

End SubmitProps.

(** ** The word draw and the oracle's score *)

Module DrawProps.
Import Text Js Coherent GeneratorSpec MapFacts GeneratorProps.

Lemma map_snd_combine {A B} (l : list A) : forall (l' : list B),
  List.length l = List.length l' -> List.map snd (combine l l') = l'.
Proof.
  induction l as [|a l IH]; intros [|b l'] H; cbn in *; try discriminate;
    [reflexivity|]. f_equal. apply IH. lia.
Qed.

(** The shuffled array of [pickRandom] is a rearrangement of the pool. *)
Lemma shuffled_perm {T} r (arr : list T) :
  Permutation
    (List.map fst
       (sort_by snd
          (List.map (fun it => (snd it, uint32 (r (fst it)))) (indexed arr))))
    arr.
Proof.
  rewrite (Permutation_map fst (sort_by_perm snd _)).
  rewrite List.map_map. cbn [fst]. unfold indexed.
  rewrite map_snd_combine by apply List.length_seq. reflexivity.
Qed.

Lemma pickRandom_NoDup {T} r (arr : list T) n :
  List.NoDup arr -> List.NoDup (pickRandom r arr n).
Proof.
  intros Hnd. unfold pickRandom.
  assert (H : List.NoDup
                (List.map fst
                   (sort_by snd
                      (List.map (fun it => (snd it, uint32 (r (fst it))))
                         (indexed arr))))).
  { eapply Permutation_NoDup; [symmetry; apply shuffled_perm | exact Hnd]. }
  rewrite <- (List.firstn_skipn n _) in H.
  apply List.NoDup_app_remove_r in H. exact H.
Qed.

(** X22: [pickRandom] draws without replacement.  From a pool without
    repetition it returns [min n (pool size)] items of the pool, no item
    twice, whatever the random keys; asked for the whole pool or more, it
    returns a rearrangement of the pool. *)
Theorem pickRandom_without_replacement {T} (randomBytes : nat -> Z)
    (arr : list T) (n : nat) :
  List.NoDup arr ->
  List.NoDup (pickRandom randomBytes arr n)
  /\ incl (pickRandom randomBytes arr n) arr
  /\ List.length (pickRandom randomBytes arr n) = Nat.min n (List.length arr)
  /\ ((List.length arr <= n)%nat -> Permutation (pickRandom randomBytes arr n) arr).
Proof.
  intros Hnd. split; [apply pickRandom_NoDup; exact Hnd|].
  split; [apply pickRandom_incl|].
  pose proof (shuffled_perm randomBytes arr) as Hperm.
  unfold pickRandom. split.
  - rewrite List.length_firstn, (Permutation_length Hperm). reflexivity.
  - intros Hn. rewrite List.firstn_all2; [exact Hperm|].
    rewrite (Permutation_length Hperm). exact Hn.
Qed.

Lemma pools_distinct :
  List.NoDup NOUNS /\ List.NoDup ADJECTIVES /\ List.NoDup VERBS
  /\ List.NoDup TIME_WORDS.
Proof.
  repeat split; apply NoDup_ListNoDup, (bool_decide_unpack _); vm_compute; exact I.
Qed.

Lemma pickRandom_without_replacement_witness :
  List.NoDup (pickRandom (fun i => 7 - Z.of_nat i) NOUNS 2)
  /\ List.length (pickRandom (fun i => 7 - Z.of_nat i) NOUNS 2) = 2%nat.
Proof.
  destruct (pickRandom_without_replacement (fun i => 7 - Z.of_nat i) NOUNS 2
              (proj1 pools_distinct)) as (Hnd & _ & Hlen & _).
  split; [exact Hnd | exact Hlen].
Defined.

Lemma among_spec pool w : among pool w = true <-> In w pool.
Proof.
  unfold among. rewrite List.existsb_exists. split.
  - intros (x & Hx & E). apply String.eqb_eq in E. subst. exact Hx.
  - intros H. exists w. split; [exact H | apply String.eqb_refl].
Qed.

Lemma pools_overlap w (P Q : list string) (allowed : string -> bool) :
  forallb (fun x => negb (among Q x) || allowed x) P = true ->
  In w P -> In w Q -> allowed w = true.
Proof.
  intros Hall HP HQ. rewrite List.forallb_forall in Hall.
  specialize (Hall w HP). apply among_spec in HQ. rewrite HQ in Hall.
  exact Hall.
Qed.

Lemma count_drawn {T} (dec : forall x y : T, {x = y} + {x <> y}) r
    (pool : list T) n w :
  List.NoDup pool ->
  (count_occ dec (pickRandom r pool n) w <= 1)%nat
  /\ (~ In w pool -> count_occ dec (pickRandom r pool n) w = 0%nat).
Proof.
  intros Hnd. split.
  - apply (proj1 (List.NoDup_count_occ dec _)). apply pickRandom_NoDup. exact Hnd.
  - intros Hout. apply List.count_occ_not_In. intros Hin.
    apply Hout. apply (pickRandom_incl r pool n). exact Hin.
Qed.

(** X23: the only word a generated challenge can hold twice is "whisper"
    (a noun and a verb), and no word is held three times: whatever the
    random source, every other word occurs at most once among the
    five. *)
Theorem only_whisper_repeats (e : Entropy) (w : string) :
  shuffles e ->
  (count_occ string_dec (words (generateCoherentChallenge e)) w
   <= if String.eqb w "whisper" then 2 else 1)%nat.
Proof.
  intros Hsh. unfold generateCoherentChallenge. cbn [words].
  rewrite <- (proj1 (Permutation_count_occ string_dec _ _) (Hsh _) w).
  rewrite !List.count_occ_app.
  destruct pools_distinct as (HN & HA & HV & HT).
  destruct (count_drawn string_dec (nounKeys e) NOUNS 2 w HN) as [N1 N0].
  destruct (count_drawn string_dec (adjectiveKeys e) ADJECTIVES 1 w HA) as [A1 A0].
  destruct (count_drawn string_dec (verbKeys e) VERBS 1 w HV) as [V1 V0].
  destruct (count_drawn string_dec (timeKeys e) TIME_WORDS 1 w HT) as [T1 T0].
  assert (NA : In w NOUNS -> In w ADJECTIVES -> false = true)
    by (apply (pools_overlap w NOUNS ADJECTIVES (fun _ => false)); vm_compute; reflexivity).
  assert (NT : In w NOUNS -> In w TIME_WORDS -> false = true)
    by (apply (pools_overlap w NOUNS TIME_WORDS (fun _ => false)); vm_compute; reflexivity).
  assert (AV : In w ADJECTIVES -> In w VERBS -> false = true)
    by (apply (pools_overlap w ADJECTIVES VERBS (fun _ => false)); vm_compute; reflexivity).
  assert (AT : In w ADJECTIVES -> In w TIME_WORDS -> false = true)
    by (apply (pools_overlap w ADJECTIVES TIME_WORDS (fun _ => false)); vm_compute; reflexivity).
  assert (VT : In w VERBS -> In w TIME_WORDS -> false = true)
    by (apply (pools_overlap w VERBS TIME_WORDS (fun _ => false)); vm_compute; reflexivity).
  assert (NV : In w NOUNS -> In w VERBS -> String.eqb w "whisper" = true)
    by (apply (pools_overlap w NOUNS VERBS (fun x => String.eqb x "whisper"));
        vm_compute; reflexivity).
  destruct (in_dec string_dec w NOUNS) as [iN | oN];
    destruct (in_dec string_dec w ADJECTIVES) as [iA | oA];
    destruct (in_dec string_dec w VERBS) as [iV | oV];
    destruct (in_dec string_dec w TIME_WORDS) as [iT | oT];
    try (specialize (NA iN iA); discriminate);
    try (specialize (NT iN iT); discriminate);
    try (specialize (AV iA iV); discriminate);
    try (specialize (AT iA iT); discriminate);
    try (specialize (VT iV iT); discriminate);
    try rewrite (N0 oN); try rewrite (A0 oA); try rewrite (V0 oV);
    try rewrite (T0 oT);
    try (rewrite (NV iN iV));
    destruct (String.eqb w "whisper"); lia.
Qed.

Lemma only_whisper_repeats_witness :
  (count_occ string_dec
     (words (generateCoherentChallenge Scenario.whisper_entropy)) "whisper" <= 2)%nat.
Proof.
  refine (only_whisper_repeats Scenario.whisper_entropy "whisper" _).
  intros l. reflexivity.
Defined.

End DrawProps.

Module OracleProps.
Import Text Js Coherent.

(** X24: the score [checkCoherence] returns is an integer from 1 to 10
    whatever the service answers; it differs from the passing default 7
    only when a key is set and the service's reply, trimmed and read by
    [parseInt], is that very score; and an error note comes only with the
    default. *)
Theorem checkCoherence_score_range (w : World) (s : string) :
  1 <= score (checkCoherence w s) <= 10
  /\ (score (checkCoherence w s) <> 7 ->
        key_missing (OPENAI_API_KEY w) = false
        /\ exists content,
             fetch w s = Response true (ReplyContent content)
             /\ parseInt (trim content) = Some (score (checkCoherence w s)))
  /\ (error (checkCoherence w s) <> None -> score (checkCoherence w s) = 7).
Proof.
  unfold checkCoherence.
  destruct (key_missing (OPENAI_API_KEY w)); [cbn; repeat split; try lia; congruence|].
  destruct (fetch w s) as [|[] [| |c]]; cbn [score error];
    try (repeat split; try lia; congruence).
  - destruct (parseInt "") as [n|] eqn:E; [|cbn; repeat split; try lia; congruence].
    vm_compute in E. discriminate.
  - destruct (parseInt (trim c)) as [n|] eqn:E;
      [|cbn; repeat split; try lia; congruence].
    destruct (Z.ltb_spec n 1), (Z.gtb_spec n 10); cbn;
      try (repeat split; try lia; congruence).
    split; [lia|]. split; [|congruence].
    intros _. split; [reflexivity|]. exists c. split; [reflexivity | exact E].
Qed.

End OracleProps.

(** ** /auth/submit: the accepted submission, and what a request can touch *)

Module SubmissionProps.
Import Text Js Sessions Server ServerSpec Scenario SubmissionScenario StoreFacts
  ServerProps.

(** X25: an accepted submission ends the session and pays out one token.
    For a submission that the rate limiter lets through, made in time to
    an active session with an answer that [verifyCoherent] accepts, the
    handler answers with a success that carries the token and the block
    number; the session is stored as passed, with the time of passing,
    and no other session changes; the token is stored with the
    identifier of the session's challenge, the caller's address and the
    configured lifetime; and every later submission to that session that
    gets past the rate limiter and the request checks is refused as
    "Session already passed", changing neither sessions nor tokens. *)
Theorem accepted_submission_passes_session
    (config : Token.Config) (w : Coherent.World) (io : Inputs)
    (ip key answer : string) (st : State) (session : AuthSession) :
  let_through io ip st ->
  falsy (JsString key) = false ->
  strlen answer <= Coherent.MAX_SENTENCE_LENGTH ->
  getSession (sessions st) key = Some session ->
  status session = active ->
  isBlockExpired (expiryNow io) session = false ->
  Coherent.valid
    (fst (Coherent.verifyCoherent w (data (challenge session))
            (as_answer (JsString answer)))) = true ->
  let outcome :=
    authSubmit config w io ip (Fields (JsString key) (JsString answer)) st in
  let after := snd (fst outcome) in
  let issued := Token.generateTokenString (tokenBytes io) in
  fst (fst outcome)
  = Success issued (currentBlock session)
      (Coherent.coherenceScore
         (fst (Coherent.verifyCoherent w (data (challenge session))
                 (as_answer (JsString answer)))))
  /\ getSession (sessions after) key
     = Some (markSessionPassed (passedNow io) session)
  /\ (forall other, other <> key ->
        getSession (sessions after) other = getSession (sessions st) other)
  /\ tokenStore after !! issued
     = Some {| Token.token := issued;
               Token.challengeId := challengeId (challenge session);
               Token.issuedAt := tokenNow io;
               Token.expiresAt := tokenNow io + Token.tokenExpiryMs config;
               Token.clientIp := Some ip |}
  /\ (forall config' w' io' ip' answer',
        let_through io' ip' after ->
        too_long answer' = false -> is_undefined answer' = false ->
        let again := authSubmit config' w' io' ip' (Fields (JsString key) answer') after in
        fst (fst again) = BadRequest "Session already passed"
        /\ sessions (snd (fst again)) = sessions after
        /\ tokenStore (snd (fst again)) = tokenStore after).
Proof.
  intros Hadm Hkey Hlen Hget Hact Hlive Hvalid outcome after issued.
  subst after outcome.
  rewrite (authSubmit_past_guards config w io ip key answer st session
             Hadm Hkey Hlen Hget Hact).
  cbv zeta. rewrite Hlive, Hvalid. unfold Token.createToken.
  cbn [fst snd sessions tokenStore Token.token markSessionPassed challenge].
  fold issued. unfold getSession.
  split; [reflexivity|]. split; [apply map_get_set_eq|].
  split; [intros other Hne; apply map_get_set_ne; exact Hne|].
  split; [apply lookup_insert_eq|].
  intros config' w' io' ip' answer' Hadm' Hshort Hdef.
  unfold let_through in Hadm'. unfold authSubmit.
  destruct (RateLimit.checkSubmitRateLimit _ _ _ _) as [rateCheck buckets].
  cbn [fst] in Hadm'. rewrite Hadm'. cbn [negb].
  rewrite Hkey, Hdef, Hshort. cbn [orb lookup_session sessions].
  unfold getSession. rewrite map_get_set_eq. cbn [option_map status is_active negb].
  repeat split.
Qed.

Lemma accepted_submission_passes_session_witness :
  let outcome :=
    authSubmit test_config no_oracle prompt_reads "203.0.113.7"
      (Fields (JsString "ses_A") (JsString fitting_answer)) stale_state in
  fst (fst outcome)
  = Success (Token.generateTokenString (fun i => Z.of_nat i)) 1 (Some 7)
  /\ option_map status (getSession (sessions (snd (fst outcome))) "ses_A")
     = Some passed
  /\ fst (fst (authSubmit test_config no_oracle late_inputs "203.0.113.7"
                 (Fields (JsString "ses_A") (JsString fitting_answer))
                 (snd (fst outcome))))
     = BadRequest "Session already passed".
Proof.
  intros outcome.
  destruct (accepted_submission_passes_session test_config no_oracle
              prompt_reads "203.0.113.7" "ses_A" fitting_answer stale_state
              stale_session)
    as (Hresp & Hsession & _ & _ & Hagain);
    try (vm_compute; reflexivity).
  - vm_compute. discriminate.
  - cbv zeta in Hresp, Hsession, Hagain. fold outcome in Hresp, Hsession, Hagain.
    split; [exact Hresp|]. split; [rewrite Hsession; reflexivity|].
    apply (Hagain test_config no_oracle late_inputs "203.0.113.7"
             (JsString fitting_answer)); vm_compute; reflexivity.
Defined.

(** X26: what a submission can touch.  Whatever the request and whatever
    the stores, [/auth/submit] changes no session other than the one the
    body names; it changes the session store only when it answers with a
    success, a block expiry or an authentication failure; and it changes
    the token store only when it answers with a success, and then by
    storing exactly the token it returns. *)
Theorem authSubmit_frame (config : Token.Config) (w : Coherent.World)
    (io : Inputs) (ip : string) (body : Body) (st : State) :
  let outcome := authSubmit config w io ip body st in
  let after := snd (fst outcome) in
  (forall other,
     (forall answer, body <> Fields (JsString other) answer) ->
     getSession (sessions after) other = getSession (sessions st) other)
  /\ match fst (fst outcome) with
     | Success tok _ _ =>
         exists data,
           Token.token data = tok
           /\ tokenStore after = <[tok := data]> (tokenStore st)
     | BlockExpired _ _ _ _ _ | AuthFailed _ _ => tokenStore after = tokenStore st
     | _ => tokenStore after = tokenStore st /\ sessions after = sessions st
     end.
Proof.
  intros outcome after. subst after outcome. unfold authSubmit.
  destruct (RateLimit.checkSubmitRateLimit _ _ _ _) as [rateCheck buckets].
  destruct (negb (RateLimit.allowed rateCheck)); [cbn; auto|].
  destruct body as [|id answer]; [cbn; auto|].
  destruct (falsy id || is_undefined answer); [cbn; auto|].
  destruct (too_long answer); [cbn; auto|].
  destruct id as [| |key|truthy]; cbn [lookup_session sessions]; try (cbn; auto).
  unfold getSession.
  destruct (map_get key (sessions st)) as [session|] eqn:Hget;
    cbn [option_map]; [|cbn; auto].
  assert (Hframe : forall s' other,
            (forall answer0, Fields (JsString key) answer <> Fields (JsString other) answer0) ->
            map_get other (map_set key s' (sessions st))
            = map_get other (sessions st)).
  { intros s' other Hne. apply map_get_set_ne. intros ->. apply (Hne answer).
    reflexivity. }
  destruct (negb (is_active (status session))); [cbn; auto|].
  destruct (isBlockExpired (expiryNow io) session).
  - destruct (advanceToNextBlock _ _ session) as [session' advanced].
    destruct advanced; cbn; auto.
  - destruct answer as [| |text|truthy];
      try (destruct (Coherent.verifyCoherent w _ _) as [verifyResult events];
           destruct (Coherent.valid verifyResult));
      cbn; auto.
    all: split; [apply Hframe|]; eexists; split; [|reflexivity]; reflexivity.
Qed.

End SubmissionProps.

(** ** Session statistics *)

Module StatsProps.
Import Text Js Sessions.

Lemma count_active_from (sessions : SessionStore) : forall start,
  fold_left
    (fun count entry =>
       match status (snd entry) with
       | active => count + 1
       | _ => count
       end)
    sessions start
  = start + Z.of_nat
              (List.length
                 (List.filter
                    (fun entry =>
                       match status (snd entry) with active => true | _ => false end)
                    sessions)).
Proof.
  induction sessions as [|e sessions IH]; intros start; cbn [fold_left List.filter].
  - cbn. lia.
  - rewrite IH. destruct (status (snd e)); cbn [List.length]; lia.
Qed.

(** X27: the session statistics count what is stored: [total] is the
    number of stored sessions, [active] the number of those whose status
    is active, so that 0 <= active <= total, with equality exactly when
    every stored session is active. *)
Theorem getSessionStats_counts (sessions : SessionStore) :
  total (getSessionStats sessions) = map_size sessions
  /\ activeCount (getSessionStats sessions)
     = map_size
         (List.filter
            (fun entry =>
               match status (snd entry) with active => true | _ => false end)
            sessions)
  /\ 0 <= activeCount (getSessionStats sessions) <= total (getSessionStats sessions)
  /\ (activeCount (getSessionStats sessions) = total (getSessionStats sessions)
      <-> forall entry, In entry sessions -> status (snd entry) = active).
Proof.
  unfold getSessionStats, map_size. cbn [total activeCount].
  rewrite count_active_from.
  set (is_live := fun entry : string * AuthSession =>
                    match status (snd entry) with active => true | _ => false end).
  pose proof (List.filter_length_le is_live sessions) as Hle.
  split; [reflexivity|]. split; [lia|]. split; [lia|].
  assert (Hall : List.length (List.filter is_live sessions) = List.length sessions
                 <-> forall entry, In entry sessions -> is_live entry = true).
  { clear Hle. induction sessions as [|e sessions IH]; cbn [List.filter List.length].
    - split; [intros _ entry [] | reflexivity].
    - pose proof (List.filter_length_le is_live sessions) as Hle.
      destruct (is_live e) eqn:He; cbn [List.length].
      + split.
        * intros H entry [<- | Hin]; [exact He|]. apply IH; [lia | exact Hin].
        * intros H. f_equal. apply IH. intros entry Hin. apply H. now right.
      + split; [lia|]. intros H. rewrite (H e (or_introl eq_refl)) in He.
        discriminate. }
  split.
  - intros H entry Hin. assert (Hl : is_live entry = true) by (apply Hall; [lia | exact Hin]).
    unfold is_live in Hl. destruct (status (snd entry)); [reflexivity | discriminate..].
  - intros H.
    assert (Hl : List.length (List.filter is_live sessions) = List.length sessions).
    { apply Hall. intros entry Hin. unfold is_live. rewrite (H entry Hin).
      reflexivity. }
    lia.
Qed.

End StatsProps.
